(** * Sudoku game engine of [src/sudoku-game.tsx]

    A shallow embedding of the board generator, the puzzle carver, the
    constraint checker, the hint routine and the React session state of
    the [SudokuGame] component, followed by the properties proved about
    them.

    Conventions of the embedding.
    - A [Board] is the [number[][]] of the source: a list of rows.  All
      boards the component builds are 9x9; reading outside a board gives
      0 in the model (the source never reads there).
    - A function that mutates its [board] argument in place returns the
      mutated board (state passing).
    - [Math.random()] is a stream of draws.  [Math.floor(Math.random() * n)]
      may be any of [0 .. n-1] and nothing else; it is modelled by
      reducing the next draw modulo [n], so that quantifying over all
      streams quantifies over all outcomes. *)

From Stdlib Require Import ZifyNat Ascii.
From stdpp Require Import base numbers option list gmap pretty.

Open Scope nat_scope.

(** [lia] reasons about division by a constant. *)
Ltac Zify.zify_post_hook ::= Z.to_euclidean_division_equations.

(** ** Boards *)

Abbreviation Cell := (nat * nat)%type.
Abbreviation Board := (list (list nat)).

Inductive Difficulty := Easy | Medium | Hard | Expert.

(** [board[row][col]] *)
Definition cell (board : Board) (row col : nat) : nat :=
  match board !! row with
  | Some r => default 0 (r !! col)
  | None => 0
  end.

(** [board[row][col] = v] *)
Definition setCell (board : Board) (row col v : nat) : Board :=
  alter (λ r, <[col := v]> r) row board.

(** [Array(9).fill(null).map(() => Array(9).fill(0))] *)
Definition emptyBoard : Board := replicate 9 (replicate 9 0).

(** [for (let i = 0; i < n; i++)] ranges over [range n]. *)
Definition range (n : nat) : list nat := seq 0 n.

(** The index pairs visited by two nested loops [i < n], [j < m]. *)
Definition range2 (n m : nat) : list (nat * nat) :=
  i ← range n; j ← range m; [(i, j)].

Definition wfBoard (board : Board) : Prop :=
  length board = 9 ∧ Forall (λ r, length r = 9) board.

(** ** Random source *)

Definition Random : Type := nat → nat.

(** [Math.floor(Math.random() * n)] for the draw [u]. *)
Definition randomBelow (n : nat) (u : nat) : nat := u `mod` n.

Global Arguments randomBelow : simpl never.
Global Arguments cell : simpl never.
Global Arguments setCell : simpl never.

(** ** Constraint checker *)

(** [isValidPlacement]: each loop leaves with [false] at the first hit. *)
Definition isValidPlacement (board : Board) (row col num : nat) : bool :=
  forallb (λ i, negb (cell board row i =? num)) (range 9)
  && forallb (λ i, negb (cell board i col =? num)) (range 9)
  && (let boxRow := row / 3 * 3 in
      let boxCol := col / 3 * 3 in
      forallb (λ '(i, j), negb (cell board (boxRow + i) (boxCol + j) =? num))
              (range2 3 3)).

(** [isBoardFilled] *)
Definition isBoardFilled (board : Board) : bool :=
  forallb (λ '(row, col), negb (cell board row col =? 0)) (range2 9 9).

(** One group of [isBoardValid]: the inner loop with its [seen] set. *)
Fixpoint scanSeen (nums : list nat) (seen : gset nat) : bool :=
  match nums with
  | [] => true
  | num :: rest =>
      if num =? 0 then scanSeen rest seen
      else if decide (num ∈ seen) then false
      else scanSeen rest ({[num]} ∪ seen)
  end.

Definition rowCells (row : nat) : list Cell := (λ col, (row, col)) <$> range 9.
Definition colCells (col : nat) : list Cell := (λ row, (row, col)) <$> range 9.
Definition boxCells (boxRow boxCol : nat) : list Cell :=
  (λ '(i, j), (boxRow + i, boxCol + j)) <$> range2 3 3.

(** The box corners [boxRow, boxCol = 0, 3, 6]. *)
Definition boxCorners : list (nat * nat) :=
  (λ '(i, j), (3 * i, 3 * j)) <$> range2 3 3.

Definition values (board : Board) (cells : list Cell) : list nat :=
  (λ '(row, col), cell board row col) <$> cells.

(** [isBoardValid] *)
Definition isBoardValid (board : Board) : bool :=
  forallb (λ row, scanSeen (values board (rowCells row)) ∅) (range 9)
  && forallb (λ col, scanSeen (values board (colCells col)) ∅) (range 9)
  && forallb (λ '(boxRow, boxCol),
                scanSeen (values board (boxCells boxRow boxCol)) ∅) boxCorners.

(** One group of [highlightInvalidCells].  The [seen] map remembers under
    each number a key of type [K] (a column, a row, or an offset pair in
    the box scan); [pos] turns a key into board coordinates. *)
Section ScanInvalid.
Context {K : Type} (pos : K → Cell).

Fixpoint scanInvalid (items : list (K * nat)) (seen : gmap nat K)
    (invalid : list Cell) : list Cell :=
  match items with
  | [] => invalid
  | (k, num) :: rest =>
      if num =? 0 then scanInvalid rest seen invalid
      else
        match seen !! num with
        | Some prev =>
            scanInvalid rest (<[num := k]> seen) (invalid ++ [pos k; pos prev])
        | None => scanInvalid rest (<[num := k]> seen) invalid
        end
  end.
End ScanInvalid.

Definition scanRow (board : Board) (invalid : list Cell) (row : nat) : list Cell :=
  scanInvalid (λ col, (row, col))
    ((λ col, (col, cell board row col)) <$> range 9) ∅ invalid.

Definition scanCol (board : Board) (invalid : list Cell) (col : nat) : list Cell :=
  scanInvalid (λ row, (row, col))
    ((λ row, (row, cell board row col)) <$> range 9) ∅ invalid.

Definition scanBox (board : Board) (invalid : list Cell) (corner : nat * nat)
    : list Cell :=
  let '(boxRow, boxCol) := corner in
  scanInvalid (λ '(i, j), (boxRow + i, boxCol + j))
    ((λ '(i, j), ((i, j), cell board (boxRow + i) (boxCol + j))) <$> range2 3 3)
    ∅ invalid.

(** [highlightInvalidCells]: the list handed to [setInvalidCells]. *)
Definition highlightInvalidCells (board : Board) : list Cell :=
  let invalid := foldl (scanRow board) [] (range 9) in
  let invalid := foldl (scanCol board) invalid (range 9) in
  foldl (scanBox board) invalid boxCorners.

(** ** Board generator *)

(** [[nums[i], nums[j]] = [nums[j], nums[i]]] *)
Definition swap (nums : list nat) (i j : nat) : list nat :=
  <[j := nums !!! i]> (<[i := nums !!! j]> nums).

(** The Fisher-Yates loop of [fillBox], [for (let i = ...; i > 0; i--)];
    [k] counts the draws taken from the random stream so far. *)
Fixpoint shuffle (i : nat) (rnd : Random) (k : nat) (nums : list nat)
    : list nat * nat :=
  match i with
  | 0 => (nums, k)
  | S i' =>
      let j := randomBelow (i + 1) (rnd k) in
      shuffle i' rnd (S k) (swap nums i j)
  end.

(** [fillBox]: the second loop writes [nums[numIndex++]]. *)
Definition fillBox (board : Board) (rowStart colStart : nat)
    (rnd : Random) (k : nat) : Board * nat :=
  let '(nums, k') := shuffle 8 rnd k [1; 2; 3; 4; 5; 6; 7; 8; 9] in
  let '(board', _) :=
    foldl (λ '(b, numIndex) '(i, j),
             (setCell b (rowStart + i) (colStart + j) (nums !!! numIndex),
              S numIndex))
          (board, 0) (range2 3 3) in
  (board', k').

(** [fillDiagonalBoxes]: [box = 0, 3, 6]. *)
Definition fillDiagonalBoxes (board : Board) (rnd : Random) (k : nat)
    : Board * nat :=
  foldl (λ '(b, k') box, fillBox b box box rnd k') (board, k) [0; 3; 6].

(** [findEmptyCell] *)
Definition findEmptyCell (board : Board) : option Cell :=
  List.find (λ '(row, col), cell board row col =? 0) (range2 9 9).

(** The [for (let num = 1; num <= 9; num++)] loop of [solveBoard] at the
    empty cell [(row, col)]; [solve] is the recursive call.  A placement
    that leads nowhere is taken back before the next number is tried. *)
Fixpoint tryNums (solve : Board → option (bool * Board)) (row col : nat)
    (nums : list nat) (board : Board) : option (bool * Board) :=
  match nums with
  | [] => Some (false, board)
  | num :: nums' =>
      if isValidPlacement board row col num then
        match solve (setCell board row col num) with
        | None => None
        | Some (true, board') => Some (true, board')
        | Some (false, board') =>
            tryNums solve row col nums' (setCell board' row col 0)
        end
      else tryNums solve row col nums' board
  end.

(** [solveBoard].  The recursion of the source goes one level deeper for
    each cell it fills; [fuel] bounds that depth, and [None] means the
    bound was too small.  The result carries the board as the call
    leaves it. *)
Fixpoint solveBoard (fuel : nat) (board : Board) : option (bool * Board) :=
  match fuel with
  | 0 => None
  | S fuel' =>
      match findEmptyCell board with
      | None => Some (true, board)
      | Some (row, col) => tryNums (solveBoard fuel') row col (seq 1 9) board
      end
  end.

(** Depth that is enough for any 9x9 board: 81 cells and the last call. *)
Definition solveDepth : nat := 82.

(** [generateSolvedBoard]; the result of [solveBoard] is ignored, the
    board is returned as the search left it. *)
Definition generateSolvedBoard (rnd : Random) (k : nat) : Board * nat :=
  let '(board, k') := fillDiagonalBoxes emptyBoard rnd k in
  match solveBoard solveDepth board with
  | Some (_, board') => (board', k')
  | None => (board, k')
  end.

(** ** Puzzle carver *)

Definition cellsToRemove (difficulty : Difficulty) : nat :=
  match difficulty with
  | Easy => 30
  | Medium => 40
  | Hard => 50
  | Expert => 60
  end.

(** The [while (removed < cellsToRemove)] loop.  It has no bound of its
    own: [fuel] limits the number of iterations and [None] says the loop
    was still running when the fuel ran out. *)
Fixpoint removeCells (fuel : nat) (rnd : Random) (k : nat) (quota : nat)
    (board : Board) (removed : nat) : option (Board * nat) :=
  if removed <? quota then
    match fuel with
    | 0 => None
    | S fuel' =>
        let row := randomBelow 9 (rnd k) in
        let col := randomBelow 9 (rnd (S k)) in
        if negb (cell board row col =? 0) then
          removeCells fuel' rnd (S (S k)) quota (setCell board row col 0)
                      (S removed)
        else removeCells fuel' rnd (S (S k)) quota board removed
    end
  else Some (board, k).

(** What [createPlayableBoard] leaves behind: its argument object, the
    board it returns, and the position in the random stream. *)
Record Carved := {
  solvedAfter : Board;
  playable : Board;
  drawsUsed : nat
}.

(** [createPlayableBoard].  [JSON.parse(JSON.stringify(solvedBoard))]
    builds new row arrays, so the loop writes into [board] only. *)
Definition createPlayableBoard (fuel : nat) (solvedBoard : Board)
    (difficulty : Difficulty) (rnd : Random) (k : nat) : option Carved :=
  let board := solvedBoard in
  match removeCells fuel rnd k (cellsToRemove difficulty) board 0 with
  | Some (board', k') =>
      Some {| solvedAfter := solvedBoard; playable := board'; drawsUsed := k' |}
  | None => None
  end.

(** ** Session state: the [useState] cells of the component *)

Record Session := {
  selectedCell : option Cell;
  gameBoard : Board;
  originalBoard : Board;
  completed : bool;
  difficulty : Difficulty;
  gameStarted : bool;
  timer : nat;
  timerRunning : bool;
  invalidCells : list Cell
}.

Definition initialSession : Session := {|
  selectedCell := None;
  gameBoard := [];
  originalBoard := [];
  completed := false;
  difficulty := Medium;
  gameStarted := false;
  timer := 0;
  timerRunning := false;
  invalidCells := []
|}.

(** [startNewGame]; [gameBoard] and [originalBoard] are two separate
    copies of the carved board. *)
Definition startNewGame (fuel : nat) (rnd : Random) (s : Session)
    : option Session :=
  let '(solvedBoard, k) := generateSolvedBoard rnd 0 in
  match createPlayableBoard fuel solvedBoard (difficulty s) rnd k with
  | None => None
  | Some carved =>
      Some {| selectedCell := None;
              gameBoard := playable carved;
              originalBoard := playable carved;
              completed := false;
              difficulty := difficulty s;
              gameStarted := true;
              timer := 0;
              timerRunning := true;
              invalidCells := [] |}
  end.

(** [handleCellSelect] *)
Definition handleCellSelect (row col : nat) (s : Session) : Session :=
  if negb (cell (originalBoard s) row col =? 0) then s
  else {| selectedCell := Some (row, col);
          gameBoard := gameBoard s;
          originalBoard := originalBoard s;
          completed := completed s;
          difficulty := difficulty s;
          gameStarted := gameStarted s;
          timer := timer s;
          timerRunning := timerRunning s;
          invalidCells := invalidCells s |}.

(** The tail shared by [handleNumberInput] and [showHint]: store the new
    board, mark completion, recompute the highlighted cells. *)
Definition commitBoard (newBoard : Board) (s : Session) : Session :=
  let done := isBoardFilled newBoard && isBoardValid newBoard in
  {| selectedCell := selectedCell s;
     gameBoard := newBoard;
     originalBoard := originalBoard s;
     completed := if done then true else completed s;
     difficulty := difficulty s;
     gameStarted := gameStarted s;
     timer := timer s;
     timerRunning := if done then false else timerRunning s;
     invalidCells := highlightInvalidCells newBoard |}.

(** [handleNumberInput].  [[...gameBoard]] shares its rows with the state
    it was copied from, so the write lands in the rows of [gameBoard];
    [originalBoard] has rows of its own. *)
Definition handleNumberInput (num : nat) (s : Session) : Session :=
  match selectedCell s with
  | None => s
  | Some (row, col) =>
      let newBoard :=
        setCell (gameBoard s) row col
                (if num =? cell (gameBoard s) row col then 0 else num) in
      commitBoard newBoard s
  end.

(** The cells [showHint] collects against a solved board. *)
Definition emptyOrIncorrect (board solvedBoard : Board) : list Cell :=
  List.filter
    (λ '(row, col),
       (cell board row col =? 0)
       || negb (cell board row col =? cell solvedBoard row col))
    (range2 9 9).

(** [showHint] *)
Definition showHint (rnd : Random) (s : Session) : Session :=
  if negb (gameStarted s) then s
  else
    let '(solvedBoard, k) := generateSolvedBoard rnd 0 in
    let emptyOrIncorrectCells := emptyOrIncorrect (gameBoard s) solvedBoard in
    if 0 <? length emptyOrIncorrectCells then
      let randomIndex := randomBelow (length emptyOrIncorrectCells) (rnd k) in
      let '(row, col) := emptyOrIncorrectCells !!! randomIndex in
      let newBoard :=
        setCell (gameBoard s) row col (cell solvedBoard row col) in
      commitBoard newBoard s
    else s.

(** [setDifficulty], from the selector. *)
Definition changeDifficulty (d : Difficulty) (s : Session) : Session :=
  {| selectedCell := selectedCell s;
     gameBoard := gameBoard s;
     originalBoard := originalBoard s;
     completed := completed s;
     difficulty := d;
     gameStarted := gameStarted s;
     timer := timer s;
     timerRunning := timerRunning s;
     invalidCells := invalidCells s |}.

(** One firing of the interval set up by the timer effect. *)
Definition tick (s : Session) : Session :=
  if timerRunning s then
    {| selectedCell := selectedCell s;
       gameBoard := gameBoard s;
       originalBoard := originalBoard s;
       completed := completed s;
       difficulty := difficulty s;
       gameStarted := gameStarted s;
       timer := timer s + 1;
       timerRunning := timerRunning s;
       invalidCells := invalidCells s |}
  else s.

(** What the rendered page lets the player do: the handlers behind its
    controls, each with the draws its call takes from [Math.random]. *)
Inductive Event :=
  | NewGame (fuel : nat) (rnd : Random)
  | ClickCell (row col : nat)
  | ClickNumber (num : nat)
  | ClickHint (rnd : Random)
  | SelectDifficulty (d : Difficulty)
  | Tick.

(** Which controls the JSX renders and enables.  The board is drawn once
    the game has started, the number pad (buttons 1 to 9) while a cell is
    selected, the hint button until the game is completed, and the
    difficulty selector is disabled during a running game. *)
Definition enabled (e : Event) (s : Session) : bool :=
  match e with
  | NewGame _ _ => true
  | ClickCell row col => gameStarted s && (row <? 9) && (col <? 9)
  | ClickNumber num =>
      gameStarted s && bool_decide (is_Some (selectedCell s))
      && (1 <=? num) && (num <=? 9)
  | ClickHint _ => gameStarted s && negb (completed s)
  | SelectDifficulty _ => negb (gameStarted s && negb (completed s))
  | Tick => timerRunning s
  end.

Definition handle (e : Event) (s : Session) : option Session :=
  match e with
  | NewGame fuel rnd => startNewGame fuel rnd s
  | ClickCell row col => Some (handleCellSelect row col s)
  | ClickNumber num => Some (handleNumberInput num s)
  | ClickHint rnd => Some (showHint rnd s)
  | SelectDifficulty d => Some (changeDifficulty d s)
  | Tick => Some (tick s)
  end.

Definition fire (e : Event) (s : Session) : option Session :=
  if enabled e s then handle e s else None.

Inductive reachable : Session → Prop :=
  | reachable_initial : reachable initialSession
  | reachable_fire e s s' : reachable s → fire e s = Some s' → reachable s'.

(** A whole run of events. *)
Fixpoint play (events : list Event) (s : Session) : option Session :=
  match events with
  | [] => Some s
  | e :: rest =>
      match fire e s with
      | Some s' => play rest s'
      | None => None
      end
  end.

(** A stream that is 0 during the three shuffles and then names the cells
    of the board one after the other, row by row. *)
Definition rowMajorRandom : Random :=
  λ n, if n <? 24 then 0
       else let i := (n - 24) / 2 in
            if Nat.even n then i / 9 else i.

(** ** Vocabulary of the specification *)

(** The cells [isValidPlacement] reads for the target [(row, col)]: its
    row, its column and its box.  The target lies in all three. *)
Definition inUnit (row col row' col' : nat) : Prop :=
  (row' = row ∧ col' < 9) ∨ (col' = col ∧ row' < 9)
  ∨ (row' / 3 = row / 3 ∧ col' / 3 = col / 3).

(** The 27 groups of the board: 9 rows, 9 columns, 9 boxes. *)
Definition units : list (list Cell) :=
  (rowCells <$> range 9) ++ (colCells <$> range 9)
  ++ ((λ '(boxRow, boxCol), boxCells boxRow boxCol) <$> boxCorners).

(** A solved grid: 9x9, and every group holds each of 1 to 9 once. *)
Definition solvedGrid (board : Board) : Prop :=
  wfBoard board ∧ ∀ u, u ∈ units → values board u ≡ₚ seq 1 9.

(** The number of cells that are not 0. *)
Definition countNonZero (board : Board) : nat :=
  length (filter (λ '(row, col), cell board row col ≠ 0) (range2 9 9)).

(** A board whose only entry is a 5 in the top left corner. *)
Definition cornerFive : Board := setCell emptyBoard 0 0 5.

(** Two 7s in row 0, at columns 0 and 3, and nothing else. *)
Definition twoSevens : Board := setCell (setCell emptyBoard 0 0 7) 0 3 7.

(** The value a board holds at a cell. *)
Definition cellAt (board : Board) (p : Cell) : nat := cell board p.1 p.2.

(** The cells named by the first [n] rounds of the removal loop when the
    random stream stands at draw [k]; each round takes two draws. *)
Fixpoint picks (rnd : Random) (k n : nat) : list Cell :=
  match n with
  | 0 => []
  | S n' =>
      (randomBelow 9 (rnd k), randomBelow 9 (rnd (S k)))
      :: picks rnd (S (S k)) n'
  end.

(** A list that holds each of 1 to 9 and has nine entries. *)
Definition groupComplete (nums : list nat) : bool :=
  forallb (λ d, bool_decide (d ∈ nums)) (seq 1 9) && (length nums =? 9).

(** The test that decides [solvedGrid]. *)
Definition checkSolved (board : Board) : bool :=
  bool_decide (wfBoard board)
  && forallb (λ u, groupComplete (values board u)) units.

(** The board [generateSolvedBoard] returns when every draw is 0. *)
Definition sampleSolved : Board :=
  [ [2; 3; 4; 1; 5; 6; 7; 8; 9];
    [5; 6; 7; 3; 8; 9; 1; 4; 2];
    [8; 9; 1; 4; 7; 2; 3; 5; 6];
    [1; 5; 6; 2; 3; 4; 9; 7; 8];
    [9; 2; 8; 5; 6; 7; 4; 1; 3];
    [4; 7; 3; 8; 9; 1; 6; 2; 5];
    [6; 8; 9; 7; 1; 5; 2; 3; 4];
    [3; 1; 2; 9; 4; 8; 5; 6; 7];
    [7; 4; 5; 6; 2; 3; 8; 9; 1] ].

(** The cells among [cells] that a board still holds a number in. *)
Definition liveCells (board : Board) (cells : list Cell) : gset Cell :=
  list_to_set (filter (λ p, cellAt board p ≠ 0) cells).

(** The draws of a hint call: 1 in the three shuffles, then 40 to choose
    among the collected cells. *)
Definition hintRandom : Random := λ n, if n <? 24 then 1 else 40.

(** Clicking each of [cells] and entering the number [solved] holds there. *)
Definition fillEvents (solved : Board) (cells : list Cell) : list Event :=
  cells ≫= λ '(row, col), [ClickCell row col; ClickNumber (cell solved row col)].

(** A game on medium difficulty whose carver empties the first 40 cells,
    row by row. *)
Definition openingRun : list Event := [NewGame 40 rowMajorRandom].

(** The same game, played to the end with the numbers of the solution. *)
Definition winningRun : list Event :=
  openingRun ++ fillEvents sampleSolved (take 40 (range2 9 9)).

Definition openedSession : Session :=
  default initialSession (play openingRun initialSession).

Definition wonSession : Session :=
  default initialSession (play winningRun initialSession).

(** ** Completing a seeded board *)

(** [solveBoard] finds a solved grid above the seeded board if there is
    one.  That there always is one is shown by laying out the six boxes
    off the diagonal.  The box right of the first diagonal box and the box
    below it are taken from a fixed [family] of thirteen pairs.  For every
    seeding more than half of the family can be continued round the
    corner below the middle box, and more than half round the corner
    above it, so one pair can be continued both ways.  The two counts are
    found by evaluation, over all ways to split nine digits into three
    lines of three. *)

(** ** Placement of nine digits in a box *)

(** The nine digits of a box are numbered 0 to 8.  A list of nine
    numbers below 3 says in which row (or column) of a box each digit
    lies. *)
Abbreviation Lines := (list nat).

Definition validb (f : Lines) : bool :=
  (length f =? 9) && forallb (λ i, i <? 3) f.

(** Digit by digit, the line that is neither [f]'s nor [g]'s. *)
Definition third (f g : Lines) : Lines := zip_with (λ i j, 3 - i - j) f g.

(** No digit has the same line in [f] and [g]. *)
Definition avoidsb (f g : Lines) : bool :=
  forallb (λ '(i, j), negb (i =? j)) (zip f g).

(** With rows [p] and columns [q] every cell of the box gets a digit. *)
Definition perpb (p q : Lines) : bool :=
  forallb (λ k, existsb (λ '(i, j), 3 * i + j =? k) (zip p q)) (seq 0 9).

Definition count (v : nat) (f : Lines) : nat := length (List.filter (Nat.eqb v) f).
Definition balancedb (f : Lines) : bool :=
  (count 0 f =? 3) && (count 1 f =? 3) && (count 2 f =? 3).

Definition Valid (f : Lines) : Prop := length f = 9 ∧ Forall (λ i, i < 3) f.
Definition Avoids (f g : Lines) : Prop :=
  ∀ d i j, f !! d = Some i → g !! d = Some j → i ≠ j.
Definition Perp (p q : Lines) : Prop :=
  ∀ r c, r < 3 → c < 3 → ∃ d, p !! d = Some r ∧ q !! d = Some c.

(** Renaming the lines by a permutation of 0, 1, 2. *)
Definition perms3 : list (list nat) :=
  [[0; 1; 2]; [0; 2; 1]; [1; 0; 2]; [1; 2; 0]; [2; 0; 1]; [2; 1; 0]].
Definition relabel (t : list nat) (f : Lines) : Lines := (λ i, nth i t 0) <$> f.
Definition inverse3 (t : list nat) : list nat :=
  (λ i, default 0 (fst <$> list_find (Nat.eqb i) t)) <$> [0; 1; 2].

(** The renaming that makes the first digit's line 0 and the next other
    line 1. *)
Fixpoint firstOther (x : nat) (f : Lines) : nat :=
  match f with
  | [] => x
  | y :: r => if y =? x then firstOther x r else y
  end.
Definition normPerm (f : Lines) : list nat :=
  let h := hd 0 f in
  let o := firstOther h f in
  default [0; 1; 2]
    (head (List.filter (λ t, (nth h t 0 =? 0) && (nth o t 0 =? 1)) perms3)).
Definition normalize (f : Lines) : Lines := relabel (normPerm f) f.

Fixpoint allLines (n : nat) : list Lines :=
  match n with
  | 0 => [[]]
  | S n' => r ← allLines n'; [0 :: r; 1 :: r; 2 :: r]
  end.

(** One representative of each way to split the nine digits into three
    lines of three. *)
Definition parts : list Lines :=
  remove_dups (normalize <$> List.filter balancedb (allLines 9)).

(** ** Tries keyed by line lists *)

Inductive Trie (V : Type) :=
  | Tip (v : option (Lines * V))
  | Fork (t0 t1 t2 : Trie V).
Arguments Tip {V} v.
Arguments Fork {V} t0 t1 t2.

Definition tempty {V} : Trie V := Tip None.

Fixpoint lines_eqb (k k' : Lines) : bool :=
  match k, k' with
  | [], [] => true
  | i :: r, i' :: r' => (i =? i') && lines_eqb r r'
  | _, _ => false
  end.

Fixpoint tgetAux {V} (key rest : Lines) (t : Trie V) : option V :=
  match rest, t with
  | [], Tip (Some (k, v)) => if lines_eqb k key then Some v else None
  | i :: rest', Fork t0 t1 t2 =>
      match i with
      | 0 => tgetAux key rest' t0
      | 1 => tgetAux key rest' t1
      | _ => tgetAux key rest' t2
      end
  | _, _ => None
  end.

Fixpoint tputAux {V} (key rest : Lines) (v : V) (t : Trie V) : Trie V :=
  match rest with
  | [] => Tip (Some (key, v))
  | i :: rest' =>
      let '(t0, t1, t2) :=
        match t with
        | Fork a b c => (a, b, c)
        | Tip _ => (tempty, tempty, tempty)
        end in
      match i with
      | 0 => Fork (tputAux key rest' v t0) t1 t2
      | 1 => Fork t0 (tputAux key rest' v t1) t2
      | _ => Fork t0 t1 (tputAux key rest' v t2)
      end
  end.

Definition tget {V} (k : Lines) (t : Trie V) : option V := tgetAux k k t.
Definition tput {V} (k : Lines) (v : V) (t : Trie V) : Trie V := tputAux k k v t.

Fixpoint tunion {V} (s t : Trie V) : Trie V :=
  match s, t with
  | Tip None, _ => t
  | _, Tip None => s
  | Tip (Some _), _ => s
  | Fork _ _ _, Tip (Some _) => s
  | Fork a b c, Fork a' b' c' => Fork (tunion a a') (tunion b b') (tunion c c')
  end.

Definition tmem (k : Lines) (t : Trie unit) : bool :=
  match tget k t with
  | Some _ => true
  | None => false
  end.
Definition tofList (l : list Lines) : Trie unit := foldr (λ k t, tput k () t) tempty l.

(** ** Filling a box next to a filled one *)

(** The ranks of the digits within their lines of [p]. *)
Fixpoint ranksFrom (p : Lines) (n0 n1 n2 : nat) : list nat :=
  match p with
  | [] => []
  | 0 :: r => n0 :: ranksFrom r (S n0) n1 n2
  | 1 :: r => n1 :: ranksFrom r n0 (S n1) n2
  | _ :: r => n2 :: ranksFrom r n0 n1 (S n2)
  end.

(** Candidates for the lines [q] across [p]: in each line of [p] the
    three digits get the lines 0, 1, 2 in one of the six orders; an order
    is kept when it stays clear of [f] on that line. *)
Definition candidates (p f : Lines) : list Lines :=
  let rk := zip (zip p (ranksFrom p 0 0 0)) f in
  let fits (i : nat) (t : list nat) : bool :=
    forallb (λ '(pi, r, fi), negb (pi =? i) || negb (nth r t 0 =? fi)) rk in
  t0 ← List.filter (fits 0) perms3;
  t1 ← List.filter (fits 1) perms3;
  t2 ← List.filter (fits 2) perms3;
  [(λ '(pi, r, _), nth r (match pi with 0 => t0 | 1 => t1 | _ => t2 end) 0) <$> rk].

(** The lines across [p] that stay clear of [f], each one checked. *)
Definition opts (p f : Lines) : list Lines :=
  List.filter (λ q, validb q && avoidsb q f && perpb p q) (candidates p f).

(** For a representative [p], the representatives across it. *)
Definition orthSet (p : Lines) : Trie unit :=
  tofList (List.filter (perpb p) (normalize <$> candidates p (replicate 9 3))).

Definition orthTable : Trie (Trie unit) :=
  foldr (λ p t, tput p (orthSet p) t) tempty parts.

Definition orthOf (v : Lines) : Trie unit :=
  default tempty (tget (normalize v) orthTable).

(** A chain of three boxes round a corner, as X, V, U: rows [p] of the
    first box and columns [q] of the last are given, the boxes in
    between have columns [f] and rows [g] to stay clear of. *)
Definition leftSet (f p : Lines) : Trie unit :=
  foldr (λ p' t, tunion (orthOf (third f p')) t) tempty (opts p f).

Definition rightKeys (g q : Lines) : list Lines :=
  (λ u, normalize (third g u)) <$> opts q g.

Definition meets (l : Trie unit) (r : list Lines) : bool :=
  existsb (λ j, tmem j l) r.

Fixpoint countMeets (ls : list (Trie unit)) (rs : list (list Lines)) : nat :=
  match ls, rs with
  | l :: ls', r :: rs' => (if meets l r then 1 else 0) + countMeets ls' rs'
  | _, _ => 0
  end.

Definition majority (need : nat) (ps qs : list Lines) : bool :=
  let rights := (λ g, rightKeys g <$> qs) <$> parts in
  let lefts := (λ f, leftSet f <$> ps) <$> parts in
  forallb (λ l, forallb (λ r, need <=? countMeets l r) rights) lefts.

Definition rowsA : Lines := [0; 0; 0; 1; 1; 1; 2; 2; 2].
Definition colsA : Lines := [0; 1; 2; 0; 1; 2; 0; 1; 2].

(** Thirteen ways to lay out the rows of the box right of the first
    diagonal box and the columns of the box below it. *)
Definition family : list (Lines * Lines) := [
  ([1; 2; 2; 2; 0; 0; 1; 0; 1], [2; 2; 0; 1; 0; 1; 2; 0; 1]);
  ([2; 1; 2; 0; 0; 2; 0; 1; 1], [2; 0; 1; 1; 2; 0; 2; 0; 1]);
  ([1; 1; 2; 2; 0; 2; 0; 0; 1], [1; 2; 0; 2; 2; 1; 1; 0; 0]);
  ([1; 1; 2; 2; 2; 0; 1; 0; 0], [1; 0; 0; 2; 2; 0; 1; 2; 1]);
  ([1; 1; 2; 0; 2; 2; 0; 1; 0], [2; 0; 1; 2; 0; 0; 1; 2; 1]);
  ([1; 2; 2; 0; 0; 2; 1; 1; 0], [2; 2; 0; 1; 0; 1; 1; 2; 0]);
  ([1; 2; 2; 0; 2; 0; 0; 1; 1], [1; 2; 1; 1; 2; 0; 2; 0; 0]);
  ([2; 1; 1; 2; 2; 0; 0; 1; 0], [2; 0; 1; 1; 2; 0; 1; 2; 0]);
  ([2; 1; 1; 2; 0; 2; 1; 0; 0], [1; 2; 0; 1; 0; 0; 2; 2; 1]);
  ([2; 2; 1; 0; 2; 0; 1; 0; 1], [1; 0; 0; 2; 0; 1; 2; 2; 1]);
  ([2; 2; 1; 2; 0; 0; 1; 1; 0], [2; 0; 1; 1; 0; 1; 2; 2; 0]);
  ([2; 2; 2; 0; 0; 0; 1; 1; 1], [2; 2; 1; 2; 0; 1; 1; 0; 0]);
  ([1; 2; 1; 2; 0; 2; 0; 0; 1], [1; 0; 1; 2; 2; 1; 2; 0; 0])].



(** A chain that can be filled: columns [p'] for the first box and rows
    [u] for the last one such that the box in between is filled too. *)
Definition path (p q f g : Lines) : Prop :=
  ∃ p' u, Valid p' ∧ Valid u ∧ Avoids p' f ∧ Perp p p' ∧ Avoids u g ∧ Perp q u
          ∧ Perp (third g u) (third f p').

(** ** Boards from box layouts *)

(** The digit that a box has at row [i], column [j]. *)
Definition digitAt (bx : Lines * Lines) (i j : nat) : option nat :=
  fst <$> list_find (λ rc, rc = (i, j)) (zip bx.1 bx.2).

Definition tabulate (f : nat → nat → nat) : Board :=
  (λ r, f r <$> range 9) <$> range 9.

(** The board whose box in band [R], stack [C] is laid out as
    [layout R C]; digit [d] stands for the number [digs !! d]. *)
Definition assemble (digs : list nat) (layout : nat → nat → Lines * Lines) : Board :=
  tabulate (λ r c,
    default 0 (d ← digitAt (layout (r / 3) (c / 3)) (r `mod` 3) (c `mod` 3);
               digs !! d)).

(** ** The seeded board *)

(** The board after [fillDiagonalBoxes] when the three shuffles gave
    [la], [lb] and [lc]. *)
Definition seedBoard (la lb lc : list nat) : Board :=
  tabulate (λ r c,
    if r / 3 =? c / 3
    then nth (3 * (r `mod` 3) + c `mod` 3) (nth (r / 3) [la; lb; lc] []) 0
    else 0).

(** The second loop of [fillBox], after the shuffle gave [nums]. *)
Definition writeBox (board : Board) (rowStart colStart : nat) (nums : list nat)
    : Board :=
  (foldl (λ '(b, numIndex) '(i, j),
            (setCell b (rowStart + i) (colStart + j) (nums !!! numIndex),
             S numIndex))
         (board, 0) (range2 3 3)).1.

(** [full] has the entries of [board] wherever [board] has one. *)
Definition extends (board full : Board) : Prop :=
  ∀ r c, r < 9 → c < 9 → cell board r c ≠ 0 → cell full r c = cell board r c.

(** Where the number [v] stands in the list [l]. *)
Definition position (l : list nat) (v : nat) : nat :=
  default 0 (fst <$> list_find (λ x, x = v) l).

(** Rows and columns, in a box filled with [l], of the numbers of [la]. *)
Definition boxRows (la l : list nat) : Lines := (λ v, position l v / 3) <$> la.
Definition boxCols (la l : list nat) : Lines := (λ v, position l v `mod` 3) <$> la.

(** The layout of a whole board round the three seeded boxes. *)
Definition completion (la lb lc : list nat) (x x' y' z u u' : Lines)
    (R C : nat) : Lines * Lines :=
  match R, C with
  | 0, 0 => (rowsA, colsA)
  | 0, 1 => (x, x')
  | 0, _ => (third rowsA x, y')
  | 1, 0 => (z, third colsA u')
  | 1, 1 => (boxRows la lb, boxCols la lb)
  | 1, _ => (third (boxRows la lb) z, third (boxCols la lc) y')
  | _, 0 => (u, u')
  | _, 1 => (third (boxRows la lc) u, third (boxCols la lb) x')
  | _, _ => (boxRows la lc, boxCols la lc)
  end.

(** ** Search *)

(** A board on its way to a solved grid: 9x9, entries up to 9, and no
    number twice in a group. *)
Definition partialGrid (board : Board) : Prop :=
  wfBoard board
  ∧ (∀ r c, r < 9 → c < 9 → cell board r c ≤ 9)
  ∧ ∀ r c r' c', r < 9 → c < 9 → r' < 9 → c' < 9 → (r, c) ≠ (r', c') →
      inUnit r c r' c' → cell board r c ≠ 0 → cell board r c ≠ cell board r' c'.

Definition filled (board : Board) : Prop :=
  ∀ r c, r < 9 → c < 9 → cell board r c ≠ 0.

(** ** What the page shows *)

(** [s.padStart(n, fill)] for a one-character [fill]. *)
Fixpoint fillStart (n : nat) (fill : Ascii.ascii) (s : string) : string :=
  match n with
  | 0 => s
  | S n' => String fill (fillStart n' fill s)
  end.
Definition padStart (n : nat) (fill : Ascii.ascii) (s : string) : string :=
  fillStart (n - String.length s) fill s.

(** [formatTime].  [toString] gives the decimal numeral of an integer;
    that is what JavaScript does for the integers it holds exactly, those
    below 2^53. *)
Definition formatTime (seconds : nat) : string :=
  let minutes := seconds / 60 in
  let remainingSeconds := seconds `mod` 60 in
  padStart 2 "0"%char (pretty minutes) +:+ ":" +:+ padStart 2 "0"%char (pretty remainingSeconds).

(** [isInvalidCell] *)
Definition isInvalidCell (s : Session) (row col : nat) : bool :=
  existsb (λ cell, (cell.1 =? row) && (cell.2 =? col)) (invalidCells s).

(** [isSelectedCell] *)
Definition isSelectedCell (s : Session) (row col : nat) : bool :=
  match selectedCell s with
  | None => false
  | Some (selectedRow, selectedCol) => (selectedRow =? row) && (selectedCol =? col)
  end.

(** [isRelatedToSelected] *)
Definition isRelatedToSelected (s : Session) (row col : nat) : bool :=
  match selectedCell s with
  | None => false
  | Some (selectedRow, selectedCol) =>
      if row =? selectedRow then true
      else if col =? selectedCol then true
      else (selectedRow / 3 =? row / 3) && (selectedCol / 3 =? col / 3)
  end.

(** One cell of the rendered board: its text and the class names the JSX
    computes for it. *)
Record CellView := {
  text : string;
  borderRight : string;
  borderBottom : string;
  bgColor : string;
  textColor : string
}.

Definition cellView (s : Session) (rowIndex colIndex : nat) : CellView :=
  let value := cell (gameBoard s) rowIndex colIndex in
  let isOriginal := negb (cell (originalBoard s) rowIndex colIndex =? 0) in
  {| text := if negb (value =? 0) then pretty value else "";
     borderRight :=
       if ((colIndex + 1) `mod` 3 =? 0) && (colIndex <? 8)
       then "border-r-2 border-r-black" else "border-r border-gray-300";
     borderBottom :=
       if ((rowIndex + 1) `mod` 3 =? 0) && (rowIndex <? 8)
       then "border-b-2 border-b-black" else "border-b border-gray-300";
     bgColor :=
       if isSelectedCell s rowIndex colIndex then "bg-blue-200"
       else if isRelatedToSelected s rowIndex colIndex then "bg-blue-50"
       else "bg-white";
     textColor :=
       if isInvalidCell s rowIndex colIndex then "text-red-600"
       else if isOriginal then "text-black font-bold" else "text-blue-600" |}.

(** ** What holds in every session *)

(** The facts that every handler keeps: the highlighted list is the one
    of the current board, the clock runs exactly during a game, the
    selected cell is an empty cell of the puzzle, and once a game has
    started both boards are 9x9, the entries are at most 9, the puzzle
    has a solved grid above it and, until the game is completed, as many
    numbers as the difficulty leaves. *)
Definition sessionInv (s : Session) : Prop :=
  invalidCells s = highlightInvalidCells (gameBoard s)
  ∧ timerRunning s = gameStarted s && negb (completed s)
  ∧ (completed s = true → gameStarted s = true)
  ∧ (∀ row col, selectedCell s = Some (row, col) →
       gameStarted s = true ∧ row < 9 ∧ col < 9
       ∧ cell (originalBoard s) row col = 0)
  ∧ if gameStarted s then
      wfBoard (gameBoard s) ∧ wfBoard (originalBoard s)
      ∧ (∀ r c, r < 9 → c < 9 → cell (gameBoard s) r c ≤ 9)
      ∧ (∃ full, solvedGrid full ∧ extends (originalBoard s) full)
      ∧ (completed s = false →
         countNonZero (originalBoard s) = 81 - cellsToRemove (difficulty s))
    else gameBoard s = [] ∧ originalBoard s = [].

(** The winning game one move before its end: 39 cells are filled in and
    the last empty cell, (4,3), is selected. *)
Definition lastMoveRun : list Event :=
  openingRun ++ fillEvents sampleSolved (take 39 (range2 9 9)) ++ [ClickCell 4 3].

Definition lastMoveSession : Session :=
  default initialSession (play lastMoveRun initialSession).

(** * Properties *)

(** ** Loops and boards *)

Lemma forallb_spec {A} (f : A → bool) (l : list A) :
  forallb f l = true ↔ ∀ x, x ∈ l → f x = true.
Proof.
  rewrite forallb_forall. by setoid_rewrite list_elem_of_In.
Qed.

Lemma elem_of_range n i : i ∈ range n ↔ i < n.
Proof. unfold range. rewrite elem_of_seq. lia. Qed.

Lemma elem_of_range2 n m i j : (i, j) ∈ range2 n m ↔ i < n ∧ j < m.
Proof.
  unfold range2. rewrite list_elem_of_bind. split.
  - intros (i' & Hj & Hi). apply list_elem_of_bind in Hj as (j' & Hij & Hj).
    apply list_elem_of_singleton in Hij. simplify_eq.
    by rewrite <- !elem_of_range.
  - intros [Hi Hj]. exists i. rewrite elem_of_range. split; [|done].
    apply list_elem_of_bind. exists j. rewrite elem_of_range.
    split; [by apply list_elem_of_singleton | done].
Qed.

Lemma cell_setCell_ne board row col v row' col' :
  (row, col) ≠ (row', col') →
  cell (setCell board row col v) row' col' = cell board row' col'.
Proof.
  intros Hne. unfold cell, setCell.
  destruct (decide (row = row')) as [<- | Hr].
  - rewrite list_lookup_alter_eq. destruct (board !! row) as [r|]; [simpl|done].
    rewrite list_lookup_insert_ne; [done | congruence].
  - by rewrite list_lookup_alter_ne.
Qed.

Lemma cell_setCell_eq board row col v :
  wfBoard board → row < 9 → col < 9 →
  cell (setCell board row col v) row col = v.
Proof.
  intros [Hlen Hrows] Hr Hc. unfold cell, setCell.
  rewrite list_lookup_alter_eq.
  destruct (lookup_lt_is_Some_2 board row) as [r Hrow]; [lia|].
  rewrite Hrow. simpl.
  rewrite list_lookup_insert_eq; [done|].
  rewrite Forall_forall in Hrows.
  rewrite (Hrows r); [lia|]. by eapply list_elem_of_lookup_2.
Qed.

Lemma wfBoard_setCell board row col v :
  wfBoard board → wfBoard (setCell board row col v).
Proof.
  intros [Hlen Hrows]. unfold setCell. split.
  - by rewrite length_alter.
  - rewrite Forall_forall in Hrows. apply Forall_forall. intros r Hr.
    apply list_elem_of_lookup in Hr as [i Hi].
    destruct (decide (row = i)) as [-> | Hne].
    + rewrite list_lookup_alter_eq in Hi.
      destruct (board !! i) as [r0|] eqn:E; simplify_eq/=.
      rewrite length_insert. apply Hrows. by eapply list_elem_of_lookup_2.
    + rewrite list_lookup_alter_ne in Hi by done.
      apply Hrows. by eapply list_elem_of_lookup_2.
Qed.

Lemma wfBoard_emptyBoard : wfBoard emptyBoard.
Proof. split; [done|]. by repeat constructor. Qed.

(** ** Placement test *)

Lemma isValidPlacement_unit board row col num :
  isValidPlacement board row col num = true ↔
  ∀ row' col', inUnit row col row' col' → cell board row' col' ≠ num.
Proof.
  unfold isValidPlacement, inUnit.
  rewrite !andb_true_iff, !forallb_spec. split.
  - intros [[Hrow Hcol] Hbox] row' col' [[-> Hc] | [[-> Hr] | [Hr Hc]]].
    + specialize (Hrow col'). rewrite elem_of_range in Hrow.
      apply Hrow in Hc. apply negb_true_iff, Nat.eqb_neq in Hc. done.
    + specialize (Hcol row'). rewrite elem_of_range in Hcol.
      apply Hcol in Hr. apply negb_true_iff, Nat.eqb_neq in Hr. done.
    + assert (Hin : (row' - row / 3 * 3, col' - col / 3 * 3) ∈ range2 3 3)
        by (apply elem_of_range2; lia).
      apply Hbox in Hin. cbv beta iota in Hin.
      replace (row / 3 * 3 + (row' - row / 3 * 3)) with row' in Hin by lia.
      replace (col / 3 * 3 + (col' - col / 3 * 3)) with col' in Hin by lia.
      by apply negb_true_iff, Nat.eqb_neq in Hin.
  - intros H. repeat split.
    + intros i Hi%elem_of_range. apply negb_true_iff, Nat.eqb_neq, H. lia.
    + intros i Hi%elem_of_range. apply negb_true_iff, Nat.eqb_neq, H. lia.
    + intros [i j] [Hi Hj]%elem_of_range2.
      apply negb_true_iff, Nat.eqb_neq, H. right. right. lia.
Qed.

(** C7, as stated, fails: the 5 in the target cell itself makes the test
    fail although no other cell of its row, column or box holds a 5. *)
Lemma isValidPlacement_reads_target :
  isValidPlacement cornerFive 0 0 5 = false
  ∧ ∀ row' col', inUnit 0 0 row' col' → (row', col') ≠ (0, 0) →
      cell cornerFive row' col' ≠ 5.
Proof.
  split; [done|]. intros row' col' _ Hne.
  unfold cornerFive. rewrite cell_setCell_ne by done.
  unfold cell, emptyBoard.
  destruct (replicate 9 (replicate 9 0) !! row') as [r|] eqn:Hr; [|done].
  apply lookup_replicate in Hr as [-> _].
  destruct (replicate 9 0 !! col') as [x|] eqn:Hx; [|done].
  by apply lookup_replicate in Hx as [-> _].
Qed.

(** C7, amended: the test holds exactly when no cell of the row, the
    column and the box of the target holds the number, the target cell
    included; when the target cell does not hold the number (it is empty
    wherever the generator calls the test) this is the same as no other
    cell holding it. *)
Theorem isValidPlacement_spec board row col num :
  (isValidPlacement board row col num = true ↔
     ∀ row' col', inUnit row col row' col' → cell board row' col' ≠ num)
  ∧ (cell board row col ≠ num →
     (isValidPlacement board row col num = true ↔
        ∀ row' col', inUnit row col row' col' → (row', col') ≠ (row, col) →
          cell board row' col' ≠ num)).
Proof.
  split; [apply isValidPlacement_unit|].
  intros Htarget. rewrite isValidPlacement_unit. split.
  - intros H row' col' Hu _. by apply H.
  - intros H row' col' Hu.
    destruct (decide ((row', col') = (row, col))) as [[= -> ->]|Hne]; [done|].
    by apply H.
Qed.

(** ** Validity and conflicts *)

(** Membership in a list written with [++] and [::]. *)
Ltac elem_of_list := rewrite ?elem_of_app, ?elem_of_cons; tauto.

Section ScanFacts.
Context {K : Type} (pos : K → Cell).
Implicit Types (items : list (K * nat)) (seen : gmap nat K).

Lemma scanInvalid_app items seen invalid :
  scanInvalid pos items seen invalid
  = invalid ++ scanInvalid pos items seen [].
Proof.
  revert seen invalid. induction items as [|[k num] items IH];
    intros seen invalid; simpl.
  - by rewrite app_nil_r.
  - destruct (num =? 0); [apply IH|].
    destruct (seen !! num) as [prev|]; [|apply IH].
    rewrite IH, (IH _ [_; _]). by rewrite app_assoc.
Qed.

(** The two scans agree on whether a number comes twice. *)
Lemma scanInvalid_nil items seen :
  scanInvalid pos items seen [] = [] ↔ scanSeen (items.*2) (dom seen) = true.
Proof.
  revert seen. induction items as [|[k num] items IH]; intros seen; simpl.
  - done.
  - destruct (num =? 0); [apply IH|].
    destruct (seen !! num) as [prev|] eqn:Hseen.
    + rewrite decide_True by (apply elem_of_dom; eauto).
      rewrite scanInvalid_app. simpl. split; intros; done.
    + rewrite decide_False by (by apply not_elem_of_dom).
      rewrite IH. by rewrite dom_insert_L.
Qed.

(** A number already in [seen] gets each later cell holding it pushed. *)
Lemma scanInvalid_later items seen invalid k num :
  (k, num) ∈ items → num ≠ 0 → is_Some (seen !! num) →
  pos k ∈ scanInvalid pos items seen invalid.
Proof.
  revert seen invalid. induction items as [|[k' num'] items IH];
    intros seen invalid Hin Hnum Hseen; simpl.
  - by apply elem_of_nil in Hin.
  - rewrite elem_of_cons in Hin. destruct Hin as [[= <- <-] | Hin].
    + apply Nat.eqb_neq in Hnum. rewrite Hnum.
      destruct Hseen as [prev ->].
      rewrite scanInvalid_app. elem_of_list.
    + destruct (num' =? 0); [by apply IH|].
      destruct (seen !! num') as [prev|] eqn:Hprev.
      * apply IH; [done..|].
        destruct (decide (num' = num)) as [->|Hne].
        -- rewrite lookup_insert_eq. eauto.
        -- by rewrite lookup_insert_ne.
      * apply IH; [done..|].
        destruct (decide (num' = num)) as [->|Hne].
        -- rewrite lookup_insert_eq. eauto.
        -- by rewrite lookup_insert_ne.
Qed.

(** The cell remembered for a number is pushed when the number comes
    again. *)
Lemma scanInvalid_earlier items seen invalid k prev num :
  (k, num) ∈ items → num ≠ 0 → seen !! num = Some prev →
  pos prev ∈ scanInvalid pos items seen invalid.
Proof.
  revert seen invalid. induction items as [|[k' num'] items IH];
    intros seen invalid Hin Hnum Hseen; simpl.
  - by apply elem_of_nil in Hin.
  - destruct (decide (num' = num)) as [->|Hne].
    + apply Nat.eqb_neq in Hnum. rewrite Hnum, Hseen.
      rewrite scanInvalid_app. elem_of_list.
    + rewrite elem_of_cons in Hin. destruct Hin as [? | Hin]; [congruence|].
      destruct (num' =? 0); [by eapply IH|].
      destruct (seen !! num') as [prev'|] eqn:Hprev.
      * eapply IH; [done..|]. by rewrite lookup_insert_ne.
      * eapply IH; [done..|]. by rewrite lookup_insert_ne.
Qed.

(** Two cells of one group with the same number are both pushed. *)
Lemma scanInvalid_pair items seen invalid k1 k2 num :
  (k1, num) ∈ items → (k2, num) ∈ items → k1 ≠ k2 → num ≠ 0 →
  pos k1 ∈ scanInvalid pos items seen invalid
  ∧ pos k2 ∈ scanInvalid pos items seen invalid.
Proof.
  revert seen invalid. induction items as [|[k' num'] items IH];
    intros seen invalid Hin1 Hin2 Hne Hnum.
  - by apply elem_of_nil in Hin1.
  - assert (Hstep : ∀ ka kb, (ka, num) ∈ items →
              seen !! num = None ∨ is_Some (seen !! num) →
              pos ka ∈ scanInvalid pos ((kb, num) :: items) seen invalid
              ∧ pos kb ∈ scanInvalid pos ((kb, num) :: items) seen invalid).
    { intros ka kb Ha _. simpl.
      apply Nat.eqb_neq in Hnum as Hnum'. rewrite Hnum'.
      destruct (seen !! num) as [prev|] eqn:Hprev.
      - split.
        + apply (scanInvalid_later _ _ _ ka num); [done..|].
          rewrite lookup_insert_eq. eauto.
        + rewrite scanInvalid_app. elem_of_list.
      - split.
        + apply (scanInvalid_later _ _ _ ka num); [done..|].
          rewrite lookup_insert_eq. eauto.
        + apply (scanInvalid_earlier _ _ _ ka kb num); [done..|].
          by rewrite lookup_insert_eq. }
    rewrite elem_of_cons in Hin1, Hin2.
    destruct Hin1 as [Heq1 | Hin1], Hin2 as [Heq2 | Hin2].
    + congruence.
    + injection Heq1 as <- <-.
      split; apply (Hstep k2 k1); try done; destruct (seen !! num); eauto.
    + injection Heq2 as <- <-.
      split; apply (Hstep k1 k2); try done; destruct (seen !! num); eauto.
    + simpl. destruct (num' =? 0); [by apply IH|].
      destruct (seen !! num'); by apply IH.
Qed.
End ScanFacts.

Lemma foldl_push {A} (f : list Cell → A → list Cell) (g : A → list Cell)
    (l : list A) (invalid : list Cell) :
  (∀ inv x, f inv x = inv ++ g x) →
  foldl f invalid l = invalid ++ (l ≫= g).
Proof.
  intros Hf. revert invalid. induction l as [|x l IH]; intros invalid; simpl.
  - by rewrite app_nil_r.
  - rewrite IH, Hf. by rewrite app_assoc.
Qed.

Lemma scanRow_push board invalid row :
  scanRow board invalid row = invalid ++ scanRow board [] row.
Proof. apply scanInvalid_app. Qed.

Lemma scanCol_push board invalid col :
  scanCol board invalid col = invalid ++ scanCol board [] col.
Proof. apply scanInvalid_app. Qed.

Lemma scanBox_push board invalid corner :
  scanBox board invalid corner = invalid ++ scanBox board [] corner.
Proof. destruct corner. apply scanInvalid_app. Qed.

(** The pushes of [highlightInvalidCells], group after group. *)
Lemma highlightInvalidCells_groups board :
  highlightInvalidCells board
  = (range 9 ≫= scanRow board []) ++ (range 9 ≫= scanCol board [])
    ++ (boxCorners ≫= scanBox board []).
Proof.
  unfold highlightInvalidCells.
  rewrite (foldl_push _ _ _ _ (scanRow_push board)).
  rewrite (foldl_push _ _ _ _ (scanCol_push board)).
  rewrite (foldl_push _ _ _ _ (scanBox_push board)).
  by rewrite <- app_assoc.
Qed.

Lemma bind_nil_iff {A B} (g : A → list B) (l : list A) :
  l ≫= g = [] ↔ ∀ x, x ∈ l → g x = [].
Proof.
  induction l as [|x l IH]; simpl.
  - split; [intros _ y Hy; by apply elem_of_nil in Hy | done].
  - rewrite app_nil, IH. split.
    + intros [Hx Hl] y [->|Hy]%elem_of_cons; auto.
    + intros H. split; [apply H; left | intros y Hy; apply H; by right].
Qed.

Lemma scanRow_nil board row :
  scanRow board [] row = [] ↔ scanSeen (values board (rowCells row)) ∅ = true.
Proof. unfold scanRow. rewrite scanInvalid_nil, dom_empty_L. done. Qed.

Lemma scanCol_nil board col :
  scanCol board [] col = [] ↔ scanSeen (values board (colCells col)) ∅ = true.
Proof. unfold scanCol. rewrite scanInvalid_nil, dom_empty_L. done. Qed.

Lemma scanBox_nil board boxRow boxCol :
  scanBox board [] (boxRow, boxCol) = []
  ↔ scanSeen (values board (boxCells boxRow boxCol)) ∅ = true.
Proof. unfold scanBox. rewrite scanInvalid_nil, dom_empty_L. done. Qed.

(** C5: [isBoardValid] accepts a board exactly when
    [highlightInvalidCells] finds no conflicting cell on it. *)
Theorem isBoardValid_iff_no_conflicts board :
  isBoardValid board = true ↔ highlightInvalidCells board = [].
Proof.
  rewrite highlightInvalidCells_groups. unfold isBoardValid.
  rewrite !app_nil, !bind_nil_iff, !andb_true_iff, !forallb_spec.
  split.
  - intros [[Hrows Hcols] Hboxes]. repeat split.
    + intros row Hrow. by apply scanRow_nil, Hrows.
    + intros col Hcol. by apply scanCol_nil, Hcols.
    + intros [boxRow boxCol] Hbox. apply scanBox_nil.
      by apply (Hboxes (boxRow, boxCol)).
  - intros (Hrows & Hcols & Hboxes). repeat split.
    + intros row Hrow. by apply scanRow_nil, Hrows.
    + intros col Hcol. by apply scanCol_nil, Hcols.
    + intros [boxRow boxCol] Hbox. by apply scanBox_nil, Hboxes.
Qed.

Lemma conflict_in_row board row c1 c2 :
  c1 < 9 → c2 < 9 → c1 ≠ c2 →
  cell board row c1 = cell board row c2 → cell board row c1 ≠ 0 →
  (row, c1) ∈ scanRow board [] row ∧ (row, c2) ∈ scanRow board [] row.
Proof.
  intros H1 H2 Hne Heq Hnz. unfold scanRow.
  apply (scanInvalid_pair (λ col, (row, col)) _ _ _ c1 c2 (cell board row c1));
    [| |done..].
  - apply (list_elem_of_fmap_2 (λ col, (col, cell board row col))).
    by apply elem_of_range.
  - rewrite Heq. apply (list_elem_of_fmap_2 (λ col, (col, cell board row col))).
    by apply elem_of_range.
Qed.

Lemma conflict_in_col board col r1 r2 :
  r1 < 9 → r2 < 9 → r1 ≠ r2 →
  cell board r1 col = cell board r2 col → cell board r1 col ≠ 0 →
  (r1, col) ∈ scanCol board [] col ∧ (r2, col) ∈ scanCol board [] col.
Proof.
  intros H1 H2 Hne Heq Hnz. unfold scanCol.
  apply (scanInvalid_pair (λ row, (row, col)) _ _ _ r1 r2 (cell board r1 col));
    [| |done..].
  - apply (list_elem_of_fmap_2 (λ row, (row, cell board row col))).
    by apply elem_of_range.
  - rewrite Heq. apply (list_elem_of_fmap_2 (λ row, (row, cell board row col))).
    by apply elem_of_range.
Qed.

Lemma conflict_in_box board boxRow boxCol i1 j1 i2 j2 :
  i1 < 3 → j1 < 3 → i2 < 3 → j2 < 3 → (i1, j1) ≠ (i2, j2) →
  cell board (boxRow + i1) (boxCol + j1) = cell board (boxRow + i2) (boxCol + j2) →
  cell board (boxRow + i1) (boxCol + j1) ≠ 0 →
  (boxRow + i1, boxCol + j1) ∈ scanBox board [] (boxRow, boxCol)
  ∧ (boxRow + i2, boxCol + j2) ∈ scanBox board [] (boxRow, boxCol).
Proof.
  intros Hi1 Hj1 Hi2 Hj2 Hne Heq Hnz. unfold scanBox.
  apply (scanInvalid_pair (λ '(i, j), (boxRow + i, boxCol + j)) _ _ _
           (i1, j1) (i2, j2) (cell board (boxRow + i1) (boxCol + j1)));
    [| |done..].
  - apply (list_elem_of_fmap_2
             (λ '(i, j), ((i, j), cell board (boxRow + i) (boxCol + j)))
             _ (i1, j1)).
    by apply elem_of_range2.
  - rewrite Heq.
    apply (list_elem_of_fmap_2
             (λ '(i, j), ((i, j), cell board (boxRow + i) (boxCol + j)))
             _ (i2, j2)).
    by apply elem_of_range2.
Qed.

Lemma elem_of_units u :
  u ∈ units ↔
  (∃ row, row < 9 ∧ u = rowCells row) ∨ (∃ col, col < 9 ∧ u = colCells col)
  ∨ (∃ corner, corner ∈ boxCorners ∧ u = boxCells corner.1 corner.2).
Proof.
  unfold units. rewrite !elem_of_app, !list_elem_of_fmap.
  setoid_rewrite elem_of_range.
  split; (intros [H | [H | H]]; [left | right; left | right; right]);
    try (destruct H as (x & H1 & H2); by eauto).
  - destruct H as ([boxRow boxCol] & -> & Hin). by exists (boxRow, boxCol).
  - destruct H as ([boxRow boxCol] & Hin & ->). by exists (boxRow, boxCol).
Qed.

Lemma elem_of_rowCells row p : p ∈ rowCells row ↔ ∃ col, col < 9 ∧ p = (row, col).
Proof.
  unfold rowCells. rewrite list_elem_of_fmap. setoid_rewrite elem_of_range.
  split; [intros (c & -> & Hc) | intros (c & Hc & ->)]; eauto.
Qed.

Lemma elem_of_colCells col p : p ∈ colCells col ↔ ∃ row, row < 9 ∧ p = (row, col).
Proof.
  unfold colCells. rewrite list_elem_of_fmap. setoid_rewrite elem_of_range.
  split; [intros (r & -> & Hr) | intros (r & Hr & ->)]; eauto.
Qed.

Lemma elem_of_boxCells boxRow boxCol p :
  p ∈ boxCells boxRow boxCol
  ↔ ∃ i j, i < 3 ∧ j < 3 ∧ p = (boxRow + i, boxCol + j).
Proof.
  unfold boxCells. rewrite list_elem_of_fmap. split.
  - intros ([i j] & -> & [Hi Hj]%elem_of_range2). eauto.
  - intros (i & j & Hi & Hj & ->). exists (i, j).
    by rewrite elem_of_range2.
Qed.

(** C6: two different cells of one group that hold the same number, not
    0, are both in the list [highlightInvalidCells] builds; and on the
    board with a 7 at (0,0), a 7 at (0,3) and nothing else the list is
    just these two cells. *)
Theorem highlightInvalidCells_pairs :
  (∀ board u p q,
     u ∈ units → p ∈ u → q ∈ u → p ≠ q →
     cellAt board p = cellAt board q → cellAt board p ≠ 0 →
     p ∈ highlightInvalidCells board ∧ q ∈ highlightInvalidCells board)
  ∧ highlightInvalidCells twoSevens = [(0, 3); (0, 0)]
  ∧ isBoardValid twoSevens = false.
Proof.
  split; [|split; by vm_compute].
  intros board u p q Hu Hp Hq Hne Heq Hnz.
  rewrite highlightInvalidCells_groups, !elem_of_app, !list_elem_of_bind.
  unfold cellAt in *.
  apply elem_of_units in Hu as [(row & Hrow & ->) | [(col & Hcol & ->) | Hu]].
  - apply elem_of_rowCells in Hp as (c1 & Hc1 & ->).
    apply elem_of_rowCells in Hq as (c2 & Hc2 & ->). simpl in *.
    destruct (conflict_in_row board row c1 c2) as [Hin1 Hin2];
      [done | done | congruence | done | done |].
    split; left; exists row; by rewrite elem_of_range.
  - apply elem_of_colCells in Hp as (r1 & Hr1 & ->).
    apply elem_of_colCells in Hq as (r2 & Hr2 & ->). simpl in *.
    destruct (conflict_in_col board col r1 r2) as [Hin1 Hin2];
      [done | done | congruence | done | done |].
    split; right; left; exists col; by rewrite elem_of_range.
  - destruct Hu as ([boxRow boxCol] & Hcorner & ->). simpl in *.
    apply elem_of_boxCells in Hp as (i1 & j1 & Hi1 & Hj1 & ->).
    apply elem_of_boxCells in Hq as (i2 & j2 & Hi2 & Hj2 & ->). simpl in *.
    destruct (conflict_in_box board boxRow boxCol i1 j1 i2 j2) as [Hin1 Hin2];
      [done | done | done | done | congruence | done | done |].
    split; right; right; by exists (boxRow, boxCol).
Qed.

Lemma highlightInvalidCells_pairs_witness :
  (0, 0) ∈ highlightInvalidCells twoSevens
  ∧ (0, 3) ∈ highlightInvalidCells twoSevens.
Proof.
  apply (proj1 highlightInvalidCells_pairs twoSevens (rowCells 0) (0, 0) (0, 3)).
  - apply elem_of_units. left. exists 0. split; [lia | done].
  - apply elem_of_rowCells. exists 0. split; [lia | done].
  - apply elem_of_rowCells. exists 3. split; [lia | done].
  - discriminate.
  - reflexivity.
  - discriminate.
Defined.

(** ** Solved grids *)

Lemma groupComplete_perm nums : groupComplete nums = true ↔ nums ≡ₚ seq 1 9.
Proof.
  unfold groupComplete. rewrite andb_true_iff, forallb_spec, Nat.eqb_eq.
  split.
  - intros [Hall Hlen]. symmetry. apply submseteq_length_Permutation.
    + apply NoDup_submseteq; [apply NoDup_seq|].
      intros d Hd. by eapply bool_decide_eq_true_1, Hall.
    + by rewrite Hlen.
  - intros Hperm. split.
    + intros d Hd. apply bool_decide_eq_true_2. by rewrite Hperm.
    + by rewrite Hperm.
Qed.

Lemma checkSolved_spec board : checkSolved board = true ↔ solvedGrid board.
Proof.
  unfold checkSolved, solvedGrid.
  rewrite andb_true_iff, bool_decide_eq_true, forallb_spec.
  by setoid_rewrite groupComplete_perm.
Qed.

Lemma solvedGrid_sampleSolved : solvedGrid sampleSolved.
Proof. apply checkSolved_spec. by vm_compute. Qed.

Lemma generateSolvedBoard_zero : (generateSolvedBoard (λ _, 0) 0).1 = sampleSolved.
Proof. by vm_compute. Qed.

(** Every entry of a solved grid is one of 1 to 9. *)
Lemma solvedGrid_entry board row col :
  solvedGrid board → row < 9 → col < 9 → 1 ≤ cell board row col ≤ 9.
Proof.
  intros [_ Hunits] Hrow Hcol.
  assert (Hin : cell board row col ∈ values board (rowCells row)).
  { apply (list_elem_of_fmap_2 (λ '(r, c), cell board r c) _ (row, col)).
    apply elem_of_rowCells. eauto. }
  rewrite (Hunits (rowCells row)) in Hin.
  - apply elem_of_seq in Hin. lia.
  - apply elem_of_units. left. eauto.
Qed.

(** ** Puzzle carver *)

Lemma filter_ext_in {A} (P Q : A → Prop) `{!∀ x, Decision (P x)}
    `{!∀ x, Decision (Q x)} (l : list A) :
  (∀ x, x ∈ l → (P x ↔ Q x)) → filter P l = filter Q l.
Proof.
  induction l as [|a l IH]; intros Hiff; [done|].
  rewrite !filter_cons.
  rewrite IH by (intros y Hy; apply Hiff; by right).
  assert (P a ↔ Q a) by (apply Hiff; by left).
  destruct (decide (P a)), (decide (Q a)); tauto || done.
Qed.

Lemma filter_all {A} (P : A → Prop) `{!∀ x, Decision (P x)} (l : list A) :
  (∀ x, x ∈ l → P x) → filter P l = l.
Proof.
  induction l as [|a l IH]; intros Hall; [done|].
  rewrite filter_cons, decide_True by (apply Hall; by left).
  f_equal. apply IH. intros y Hy. apply Hall. by right.
Qed.

Lemma filter_length_drop {A} (P Q : A → Prop) `{!∀ x, Decision (P x)}
    `{!∀ x, Decision (Q x)} (l : list A) (x : A) :
  NoDup l → x ∈ l → P x → ¬ Q x → (∀ y, y ≠ x → (P y ↔ Q y)) →
  length (filter P l) = S (length (filter Q l)).
Proof.
  intros Hnd Hin HP HQ Hrest. induction l as [|a l IH].
  - by apply elem_of_nil in Hin.
  - apply NoDup_cons in Hnd as [Ha Hnd]. rewrite !filter_cons.
    apply elem_of_cons in Hin as [->|Hin].
    + rewrite decide_True, decide_False by done. simpl. f_equal. f_equal.
      apply filter_ext_in. intros y Hy. apply Hrest. by intros ->.
    + assert (Hne : a ≠ x) by (by intros ->).
      specialize (IH Hnd Hin). pose proof (Hrest a Hne).
      destruct (decide (P a)), (decide (Q a)); simpl; rewrite ?IH; tauto || done.
Qed.

Lemma NoDup_range2_9_9 : NoDup (range2 9 9).
Proof. apply (bool_decide_unpack _). by vm_compute. Qed.

Lemma countNonZero_setCell_zero board row col :
  wfBoard board → row < 9 → col < 9 → cell board row col ≠ 0 →
  countNonZero board = S (countNonZero (setCell board row col 0)).
Proof.
  intros Hwf Hrow Hcol Hnz. unfold countNonZero.
  apply (filter_length_drop _ _ _ (row, col)).
  - apply NoDup_range2_9_9.
  - by apply elem_of_range2.
  - done.
  - rewrite cell_setCell_eq by done. by intros [].
  - intros [r c] Hne. by rewrite cell_setCell_ne.
Qed.

Lemma countNonZero_solved board : solvedGrid board → countNonZero board = 81.
Proof.
  intros Hs. unfold countNonZero. rewrite filter_all; [done|].
  intros [r c] [Hr Hc]%elem_of_range2.
  pose proof (solvedGrid_entry board r c Hs Hr Hc). lia.
Qed.

(** What the removal loop does to the board when it ends. *)
Lemma removeCells_spec fuel rnd k quota board removed board' k' :
  wfBoard board → removed ≤ quota →
  removeCells fuel rnd k quota board removed = Some (board', k') →
  wfBoard board'
  ∧ (∀ row col, cell board' row col = cell board row col ∨ cell board' row col = 0)
  ∧ countNonZero board' + (quota - removed) = countNonZero board.
Proof.
  revert k board removed. induction fuel as [|fuel IH];
    intros k board removed Hwf Hle Hrun; simpl in Hrun.
  - destruct (removed <? quota) eqn:Hlt; [done|].
    apply Nat.ltb_ge in Hlt. simplify_eq. split_and!; [done | auto | lia].
  - destruct (removed <? quota) eqn:Hlt.
    2:{ apply Nat.ltb_ge in Hlt. simplify_eq. split_and!; [done | auto | lia]. }
    apply Nat.ltb_lt in Hlt.
    set (row := randomBelow 9 (rnd k)) in *.
    set (col := randomBelow 9 (rnd (S k))) in *.
    assert (row < 9 ∧ col < 9) as [Hrow Hcol] by (unfold row, col, randomBelow; lia).
    destruct (cell board row col =? 0) eqn:Hz; simpl in Hrun.
    + by apply IH in Hrun.
    + apply Nat.eqb_neq in Hz.
      apply IH in Hrun as (Hwf' & Hcells & Hcount);
        [| by apply wfBoard_setCell | lia].
      split_and!; [done | |].
      * intros r c. destruct (Hcells r c) as [Heq | Heq]; [|by right].
        destruct (decide ((row, col) = (r, c))) as [[= <- <-]|Hne].
        -- right. by rewrite Heq, cell_setCell_eq.
        -- left. by rewrite Heq, cell_setCell_ne.
      * rewrite (countNonZero_setCell_zero board row col) by done. lia.
Qed.

Lemma picks_in_range rnd k n p : p ∈ picks rnd k n → p.1 < 9 ∧ p.2 < 9.
Proof.
  revert k. induction n as [|n IH]; intros k; simpl.
  - by intros ?%elem_of_nil.
  - intros [->|Hin]%elem_of_cons; [|by eapply IH].
    unfold randomBelow. simpl. lia.
Qed.

(** The loop ends within [fuel] rounds exactly when these rounds name
    enough cells that still hold a number. *)
Lemma removeCells_terminates fuel rnd k quota board removed :
  wfBoard board →
  is_Some (removeCells fuel rnd k quota board removed)
  ↔ quota ≤ removed + size (liveCells board (picks rnd k fuel)).
Proof.
  revert k board removed. induction fuel as [|fuel IH];
    intros k board removed Hwf; cbn [removeCells picks].
  - unfold liveCells. rewrite filter_nil, list_to_set_nil, size_empty.
    destruct (removed <? quota) eqn:Hlt.
    + apply Nat.ltb_lt in Hlt. split; [by intros [? ?] | lia].
    + apply Nat.ltb_ge in Hlt. split; [lia | eauto].
  - destruct (removed <? quota) eqn:Hlt.
    2:{ apply Nat.ltb_ge in Hlt. split; [lia | eauto]. }
    apply Nat.ltb_lt in Hlt.
    set (row := randomBelow 9 (rnd k)) in *.
    set (col := randomBelow 9 (rnd (S k))) in *.
    assert (row < 9 ∧ col < 9) as [Hrow Hcol] by (unfold row, col, randomBelow; lia).
    unfold liveCells at 1. rewrite filter_cons. unfold cellAt at 1. simpl.
    destruct (cell board row col =? 0) eqn:Hz; simpl.
    + apply Nat.eqb_eq in Hz. rewrite decide_False by (by intros []).
      by apply IH.
    + apply Nat.eqb_neq in Hz. rewrite decide_True by done.
      rewrite IH by (by apply wfBoard_setCell).
      rewrite list_to_set_cons.
      set (live := list_to_set _).
      assert (Hlive : liveCells (setCell board row col 0) (picks rnd (S (S k)) fuel)
                      = live ∖ {[(row, col)]}).
      { unfold liveCells, live. apply set_eq. intros [r c].
        rewrite elem_of_difference, !elem_of_list_to_set, !list_elem_of_filter.
        unfold cellAt. simpl. rewrite elem_of_singleton.
        destruct (decide ((row, col) = (r, c))) as [[= <- <-]|Hne].
        - rewrite cell_setCell_eq by done. split; [by intros [[] _] | by intros [_ []]].
        - rewrite cell_setCell_ne by done. split; [|tauto].
          intros [? ?]. split_and!; [done..|congruence]. }
      rewrite Hlive.
      assert (Hsize : size ({[(row, col)]} ∪ live)
                      = S (size (live ∖ {[(row, col)]}))).
      { assert ({[(row, col)]} ∪ live = {[(row, col)]} ∪ live ∖ {[(row, col)]})
          as -> by (apply set_eq; intros p;
                    rewrite !elem_of_union, elem_of_difference;
                    destruct (decide (p ∈ ({[(row, col)]} : gset Cell))); tauto).
        rewrite size_union, size_singleton; [done|].
        intros p Hp [_ Hq]%elem_of_difference. done. }
      rewrite Hsize. lia.
Qed.

Lemma size_list_to_set_remove_dups (cells : list Cell) :
  size (list_to_set cells : gset Cell) = length (remove_dups cells).
Proof.
  rewrite <- (size_list_to_set (C:=gset Cell)) by apply NoDup_remove_dups.
  f_equal. apply set_eq. intros p.
  by rewrite !elem_of_list_to_set, elem_of_remove_dups.
Qed.

Lemma liveCells_solved board rnd k n :
  solvedGrid board →
  size (liveCells board (picks rnd k n)) = length (remove_dups (picks rnd k n)).
Proof.
  intros Hs. unfold liveCells.
  rewrite filter_all; [apply size_list_to_set_remove_dups|].
  intros [r c] [Hr Hc]%picks_in_range.
  pose proof (solvedGrid_entry board r c Hs Hr Hc). unfold cellAt. simpl. lia.
Qed.

Lemma createPlayableBoard_is_Some fuel s t rnd k :
  solvedGrid s →
  is_Some (createPlayableBoard fuel s t rnd k)
  ↔ cellsToRemove t ≤ length (remove_dups (picks rnd k fuel)).
Proof.
  intros Hs. rewrite <- (liveCells_solved s) by done.
  rewrite <- (removeCells_terminates fuel rnd k _ s 0) by apply Hs.
  unfold createPlayableBoard.
  destruct (removeCells fuel rnd k (cellsToRemove t) s 0) as [[board' k']|].
  - split; eauto.
  - split; by intros [? ?].
Qed.



Lemma picks_constant_zero k n p : p ∈ picks (λ _, 0) k n → p = (0, 0).
Proof.
  revert k. induction n as [|n IH]; intros k; cbn [picks].
  - by intros ?%elem_of_nil.
  - intros [->|Hin]%elem_of_cons; [done | by eapply IH].
Qed.

(** C9, as stated, fails: when every draw is 0 the loop names the cell
    (0,0) again and again and never gets beyond one removal. *)
Lemma removal_loop_can_run_forever :
  ¬ (∀ s t rnd k, solvedGrid s →
       ∃ fuel, is_Some (createPlayableBoard fuel s t rnd k)).
Proof.
  intros Hterm.
  destruct (Hterm sampleSolved Easy (λ _, 0) 0 solvedGrid_sampleSolved)
    as [fuel Hends].
  apply createPlayableBoard_is_Some in Hends; [|apply solvedGrid_sampleSolved].
  assert (Hone : length (remove_dups (picks (λ _, 0) 0 fuel)) ≤ 1).
  { rewrite <- size_list_to_set_remove_dups.
    rewrite <- (size_singleton (C:=gset Cell) (0, 0)).
    apply subseteq_size. intros p Hp%elem_of_list_to_set.
    apply picks_constant_zero in Hp as ->. by apply elem_of_singleton. }
  simpl in Hends. lia.
Qed.

(** C9, amended: on a solved grid the removal loop ends within [fuel]
    rounds exactly when the cells named in these rounds include
    [cellsToRemove] different ones.  A stream of picks that keeps naming
    fewer different cells than the quota keeps the loop running. *)
Theorem removal_loop_ends_iff s t rnd k fuel :
  solvedGrid s →
  is_Some (createPlayableBoard fuel s t rnd k)
  ↔ cellsToRemove t ≤ length (remove_dups (picks rnd k fuel)).
Proof. intros Hs. by apply createPlayableBoard_is_Some. Qed.

Lemma removal_loop_ends_iff_witness :
  is_Some (createPlayableBoard 60 sampleSolved Expert rowMajorRandom 24).
Proof.
  apply (removal_loop_ends_iff sampleSolved Expert rowMajorRandom 24 60).
  - exact solvedGrid_sampleSolved.
  - vm_compute. lia.
Defined.

(** ** Sessions *)

Lemma play_reachable events s s' :
  reachable s → play events s = Some s' → reachable s'.
Proof.
  revert s. induction events as [|e events IH]; intros s Hs Hplay; simpl in Hplay.
  - by simplify_eq.
  - destruct (fire e s) as [s1|] eqn:Hfire; [|done].
    eapply IH; [|done]. by eapply reachable_fire.
Qed.

Lemma play_openingRun : play openingRun initialSession = Some openedSession.
Proof. by vm_compute. Qed.

Lemma play_winningRun : play winningRun initialSession = Some wonSession.
Proof. by vm_compute. Qed.

Lemma reachable_openedSession : reachable openedSession.
Proof. eapply play_reachable; [apply reachable_initial | apply play_openingRun]. Qed.

Lemma reachable_wonSession : reachable wonSession.
Proof. eapply play_reachable; [apply reachable_initial | apply play_winningRun]. Qed.

(** [handleCellSelect] leaves the session alone on a given cell. *)
Lemma handleCellSelect_given row col s :
  cell (originalBoard s) row col ≠ 0 → handleCellSelect row col s = s.
Proof.
  intros Hgiven%Nat.eqb_neq. unfold handleCellSelect. by rewrite Hgiven.
Qed.

(** C2 at a failing run: right after the start of a game the cell (4,7)
    is a given cell holding 1; a hint whose fresh solution has a 2 there
    and whose random index falls on that cell writes the 2 over it. *)
Lemma hint_overwrites_given_cell :
  reachable openedSession
  ∧ fire (ClickHint hintRandom) openedSession
    = Some (showHint hintRandom openedSession)
  ∧ cell (originalBoard openedSession) 4 7 = 1
  ∧ cell (gameBoard openedSession) 4 7 = 1
  ∧ cell (gameBoard (showHint hintRandom openedSession)) 4 7 = 2
  ∧ cell (originalBoard (showHint hintRandom openedSession)) 4 7 = 1.
Proof. split; [apply reachable_openedSession|]. by vm_compute. Qed.

(** C8 at a failing run: the game has been played to its end and is
    completed; the number pad is still there, and pressing 5 empties the
    selected cell (4,3) while the session stays completed. *)
Lemma completed_session_accepts_input :
  reachable wonSession
  ∧ completed wonSession = true
  ∧ gameBoard wonSession = sampleSolved
  ∧ fire (ClickNumber 5) wonSession = Some (handleNumberInput 5 wonSession)
  ∧ cell (gameBoard wonSession) 4 3 = 5
  ∧ cell (gameBoard (handleNumberInput 5 wonSession)) 4 3 = 0
  ∧ completed (handleNumberInput 5 wonSession) = true.
Proof. split; [apply reachable_wonSession|]. by vm_compute. Qed.



(** ** Completing a seeded board *)

Lemma existsb_spec {A} (f : A → bool) (l : list A) :
  existsb f l = true ↔ ∃ x, x ∈ l ∧ f x = true.
Proof.
  rewrite existsb_exists. by setoid_rewrite list_elem_of_In.
Qed.

Lemma elem_of_List_filter {A} (f : A → bool) (l : list A) x :
  x ∈ List.filter f l ↔ x ∈ l ∧ f x = true.
Proof. by rewrite !list_elem_of_In, filter_In. Qed.

(** ** Line lists *)

Lemma validb_Valid f : validb f = true ↔ Valid f.
Proof.
  unfold validb, Valid.
  rewrite andb_true_iff, Nat.eqb_eq, forallb_spec, Forall_forall.
  by setoid_rewrite Nat.ltb_lt.
Qed.

Lemma Valid_lookup f d i : Valid f → f !! d = Some i → i < 3.
Proof.
  intros [_ Hall] Hd. rewrite Forall_lookup in Hall. by apply (Hall d i).
Qed.

Lemma Valid_lookup_lt f d : Valid f → d < 9 → ∃ i, f !! d = Some i ∧ i < 3.
Proof.
  intros Hf Hd. destruct (lookup_lt_is_Some_2 f d) as [i Hi].
  - destruct Hf as [-> _]. done.
  - exists i. split; [done|]. by eapply Valid_lookup.
Qed.

Lemma avoidsb_Avoids f g : avoidsb f g = true → Avoids f g.
Proof.
  unfold avoidsb, Avoids. rewrite forallb_spec. intros Hall d i j Hf Hg.
  assert (Hin : (i, j) ∈ zip f g).
  { apply list_elem_of_lookup. exists d. rewrite lookup_zip_with, Hf. simpl.
    by rewrite Hg. }
  apply Hall in Hin. by apply negb_true_iff, Nat.eqb_neq in Hin.
Qed.

Lemma perpb_Perp p q : Valid q → perpb p q = true → Perp p q.
Proof.
  unfold perpb, Perp. rewrite forallb_spec. intros Hq Hall r c Hr Hc.
  assert (Hk : 3 * r + c ∈ seq 0 9) by (apply elem_of_seq; lia).
  apply Hall, existsb_spec in Hk as ([i j] & Hin & Heq).
  apply Nat.eqb_eq in Heq.
  apply list_elem_of_lookup in Hin as [d Hd].
  rewrite lookup_zip_with in Hd.
  destruct (p !! d) as [i'|] eqn:Hp; [simpl in Hd|done].
  destruct (q !! d) as [j'|] eqn:Hq'; [simpl in Hd|done].
  simplify_eq. exists d. pose proof (Valid_lookup q d j Hq Hq').
  assert (i = r ∧ j = c) as [-> ->] by lia. done.
Qed.

Lemma Perp_sym p q : Perp p q → Perp q p.
Proof. intros H c r Hc Hr. destruct (H r c Hr Hc) as [d [? ?]]. eauto. Qed.

Lemma lookup_third f g d :
  third f g !! d
  = match f !! d, g !! d with
    | Some i, Some j => Some (3 - i - j)
    | _, _ => None
    end.
Proof.
  unfold third. rewrite lookup_zip_with.
  destruct (f !! d), (g !! d); done.
Qed.

Lemma Valid_third f g : Valid f → Valid g → Avoids f g → Valid (third f g).
Proof.
  intros Hf Hg Ha. split.
  - unfold third. rewrite length_zip_with. destruct Hf as [-> _], Hg as [-> _]. done.
  - apply Forall_lookup. intros d k Hk. rewrite lookup_third in Hk.
    destruct (f !! d) as [i|] eqn:Hi; [|done].
    destruct (g !! d) as [j|] eqn:Hj; [|done].
    simpl in Hk. simplify_eq.
    pose proof (Valid_lookup f d i Hf Hi). pose proof (Valid_lookup g d j Hg Hj).
    pose proof (Ha d i j Hi Hj). lia.
Qed.

Lemma Avoids_third_l f g : Valid f → Valid g → Avoids f g → Avoids (third f g) f.
Proof.
  intros Hf Hg Ha d k i Hk Hi. rewrite lookup_third, Hi in Hk.
  destruct (g !! d) as [j|] eqn:Hj; [|done]. simpl in Hk. simplify_eq.
  pose proof (Valid_lookup f d i Hf Hi). pose proof (Valid_lookup g d j Hg Hj).
  pose proof (Ha d i j Hi Hj). lia.
Qed.

Lemma Avoids_third_r f g : Valid f → Valid g → Avoids f g → Avoids (third f g) g.
Proof.
  intros Hf Hg Ha d k j Hk Hj. rewrite lookup_third, Hj in Hk.
  destruct (f !! d) as [i|] eqn:Hi; [|done]. simpl in Hk. simplify_eq.
  pose proof (Valid_lookup f d i Hf Hi). pose proof (Valid_lookup g d j Hg Hj).
  pose proof (Ha d i j Hi Hj). lia.
Qed.

Lemma Avoids_sym f g : Avoids f g → Avoids g f.
Proof. intros H d i j Hi Hj Heq. by eapply (H d j i). Qed.

(** ** Renaming lines *)

Ltac perm_cases Ht :=
  repeat (apply elem_of_cons in Ht as [-> | Ht]);
  [.. | by apply elem_of_nil in Ht].

Ltac below3 i := destruct i as [|[|[|i]]]; [.. | lia].

Lemma perm_lt t i : t ∈ perms3 → i < 3 → nth i t 0 < 3.
Proof. intros Ht Hi. perm_cases Ht; below3 i; simpl; lia. Qed.

Lemma inverse3_perm t : t ∈ perms3 → inverse3 t ∈ perms3.
Proof. intros Ht. perm_cases Ht; vm_compute; repeat constructor. Qed.

Lemma inverse3_l t i : t ∈ perms3 → i < 3 → nth (nth i t 0) (inverse3 t) 0 = i.
Proof. intros Ht Hi. perm_cases Ht; below3 i; done. Qed.

Lemma inverse3_r t i : t ∈ perms3 → i < 3 → nth (nth i (inverse3 t) 0) t 0 = i.
Proof. intros Ht Hi. perm_cases Ht; below3 i; done. Qed.

Lemma perm_third t i j :
  t ∈ perms3 → i < 3 → j < 3 → i ≠ j →
  3 - nth i t 0 - nth j t 0 = nth (3 - i - j) t 0.
Proof. intros Ht Hi Hj Hne. perm_cases Ht; below3 i; below3 j; done. Qed.

Lemma lookup_relabel t f d : relabel t f !! d = (λ i, nth i t 0) <$> f !! d.
Proof. apply list_lookup_fmap. Qed.

Lemma Valid_relabel t f : t ∈ perms3 → Valid f → Valid (relabel t f).
Proof.
  intros Ht Hf. split.
  - unfold relabel. rewrite length_fmap. apply Hf.
  - apply Forall_lookup. intros d k Hk. rewrite lookup_relabel in Hk.
    destruct (f !! d) as [i|] eqn:Hi; simplify_eq/=.
    apply perm_lt; [done|]. by eapply Valid_lookup.
Qed.

Lemma relabel_inverse t f :
  t ∈ perms3 → Valid f → relabel (inverse3 t) (relabel t f) = f.
Proof.
  intros Ht Hf. apply list_eq. intros d. rewrite !lookup_relabel.
  destruct (f !! d) as [i|] eqn:Hi; [simpl|done].
  f_equal. apply inverse3_l; [done|]. by eapply Valid_lookup.
Qed.

Lemma Perp_relabel_r t p q : t ∈ perms3 → Perp p q → Perp p (relabel t q).
Proof.
  intros Ht Hperp r c Hr Hc.
  destruct (Hperp r (nth c (inverse3 t) 0)) as (d & Hp & Hq); [done | |].
  { apply perm_lt; [by apply inverse3_perm | done]. }
  exists d. split; [done|]. rewrite lookup_relabel, Hq. simpl.
  f_equal. by apply inverse3_r.
Qed.

Lemma Perp_relabel t s p q :
  t ∈ perms3 → s ∈ perms3 → Perp p q → Perp (relabel t p) (relabel s q).
Proof.
  intros Ht Hs Hperp. apply Perp_relabel_r; [done|].
  apply Perp_sym, Perp_relabel_r; [done|]. by apply Perp_sym.
Qed.

Lemma Avoids_relabel t p f :
  t ∈ perms3 → Valid p → Valid f →
  Avoids p (relabel t f) → Avoids (relabel (inverse3 t) p) f.
Proof.
  intros Ht Hp Hf Ha d k j Hk Hj. rewrite lookup_relabel in Hk.
  destruct (p !! d) as [i|] eqn:Hi; simplify_eq/=.
  intros Heq. apply (Ha d i (nth j t 0)); [done | |].
  - by rewrite lookup_relabel, Hj.
  - rewrite <- Heq. symmetry. apply inverse3_r; [done|].
    by apply (Valid_lookup p d).
Qed.

Lemma third_relabel t f g :
  t ∈ perms3 → Valid f → Valid g → Avoids f g →
  third (relabel t f) (relabel t g) = relabel t (third f g).
Proof.
  intros Ht Hf Hg Ha. apply list_eq. intros d.
  rewrite lookup_relabel, !lookup_third, !lookup_relabel.
  destruct (f !! d) as [i|] eqn:Hi; [simpl|done].
  destruct (g !! d) as [j|] eqn:Hj; [simpl|done].
  f_equal. apply perm_third.
  - done.
  - by apply (Valid_lookup f d).
  - by apply (Valid_lookup g d).
  - by apply (Ha d).
Qed.

Lemma normPerm_perm f : normPerm f ∈ perms3.
Proof.
  unfold normPerm. destruct (head _) as [t|] eqn:Hhead; simpl.
  - apply head_Some_elem_of in Hhead. by apply elem_of_List_filter in Hhead as [? _].
  - repeat constructor.
Qed.

Lemma Valid_normalize f : Valid f → Valid (normalize f).
Proof. intros Hf. apply Valid_relabel; [apply normPerm_perm | done]. Qed.

Lemma Perp_normalize p q :
  Valid p → Valid q → Perp (normalize p) (normalize q) → Perp p q.
Proof.
  intros Hp Hq Hperp.
  rewrite <- (relabel_inverse (normPerm p) p), <- (relabel_inverse (normPerm q) q)
    by (done || apply normPerm_perm).
  apply Perp_relabel; [apply inverse3_perm, normPerm_perm .. | done].
Qed.

(** ** Tries *)

Lemma lines_eqb_eq k k' : lines_eqb k k' = true → k = k'.
Proof.
  revert k'. induction k as [|i r IH]; intros [|i' r']; simpl; try done.
  intros [Hi Hr]%andb_true_iff. apply Nat.eqb_eq in Hi. f_equal; auto.
Qed.

Lemma tgetAux_Tip_None {V} key rest : tgetAux (V:=V) key rest (Tip None) = None.
Proof. by destruct rest. Qed.

Lemma tgetAux_tputAux {V} key rest k1 rest1 (v1 v : V) t :
  tgetAux key rest (tputAux k1 rest1 v1 t) = Some v →
  (key = k1 ∧ v = v1) ∨ tgetAux key rest t = Some v.
Proof.
  revert rest t. induction rest1 as [|i r1 IH]; intros rest t; simpl.
  - destruct rest; [|discriminate]. simpl.
    destruct (lines_eqb k1 key) eqn:He; [|discriminate].
    intros [= <-]. left. split; [|done]. symmetry. by apply lines_eqb_eq.
  - destruct rest as [|j rest']; [destruct t, i as [|[|?]]; discriminate|].
    destruct t as [o|a b c].
    + unfold tempty.
      destruct i as [|[|i]], j as [|[|j]]; simpl;
        rewrite ?tgetAux_Tip_None; try discriminate;
        intros Hget; apply IH in Hget as [?|Hget]; auto;
        by rewrite tgetAux_Tip_None in Hget.
    + destruct i as [|[|i]], j as [|[|j]]; simpl; auto.
Qed.

Lemma tget_tput {V} k k1 (v1 v : V) t :
  tget k (tput k1 v1 t) = Some v → (k = k1 ∧ v = v1) ∨ tget k t = Some v.
Proof. apply tgetAux_tputAux. Qed.

Lemma tgetAux_tunion {V} key rest (s t : Trie V) v :
  tgetAux key rest (tunion s t) = Some v →
  tgetAux key rest s = Some v ∨ tgetAux key rest t = Some v.
Proof.
  revert rest t. induction s as [[?|]|a IHa b IHb c IHc]; intros rest t; simpl.
  - destruct t as [[?|]|]; auto.
  - auto.
  - destruct t as [[?|]|a' b' c']; auto.
    destruct rest as [|[|[|j]] rest']; simpl; auto.
Qed.

Lemma tmem_tempty k : tmem k tempty = false.
Proof. unfold tmem, tget, tempty. by rewrite tgetAux_Tip_None. Qed.

Lemma tmem_tunion k s t : tmem k (tunion s t) = true → tmem k s = true ∨ tmem k t = true.
Proof.
  unfold tmem, tget. destruct (tgetAux k k (tunion s t)) as [v|] eqn:Hget; [|done].
  apply tgetAux_tunion in Hget as [-> | ->]; auto.
Qed.

Lemma tmem_tofList k l : tmem k (tofList l) = true → k ∈ l.
Proof.
  induction l as [|k1 l IH]; simpl.
  - by rewrite tmem_tempty.
  - unfold tmem. destruct (tget k (tput k1 () (tofList l))) as [v|] eqn:Hget; [|done].
    intros _. apply tget_tput in Hget as [[-> _] | Hget]; [left|].
    right. apply IH. unfold tmem. by rewrite Hget.
Qed.

Lemma tget_table {V} (F : Lines → V) k l s :
  tget k (foldr (λ p t, tput p (F p) t) tempty l) = Some s → s = F k.
Proof.
  induction l as [|p l IH]; simpl.
  - unfold tget, tempty. by rewrite tgetAux_Tip_None.
  - intros [[-> ->] | Hget]%tget_tput; auto.
Qed.

Lemma tmem_orthOf w v : tmem w (orthOf v) = true → tmem w (orthSet (normalize v)) = true.
Proof.
  unfold orthOf, orthTable.
  destruct (tget (normalize v) _) as [s|] eqn:Hget; simpl.
  - by apply tget_table in Hget as ->.
  - by rewrite tmem_tempty.
Qed.

Lemma tmem_orthSet w p : tmem w (orthSet p) = true → perpb p w = true.
Proof.
  intros Hin%tmem_tofList. by apply elem_of_List_filter in Hin as [_ ?].
Qed.

Lemma tmem_leftSet w f p :
  tmem w (leftSet f p) = true →
  ∃ p', p' ∈ opts p f ∧ perpb (normalize (third f p')) w = true.
Proof.
  unfold leftSet. induction (opts p f) as [|p' l IH]; simpl.
  - by rewrite tmem_tempty.
  - intros [Hin | Hin]%tmem_tunion.
    + exists p'. split; [left|]. by apply tmem_orthSet, tmem_orthOf.
    + destruct (IH Hin) as (p'' & ? & ?). exists p''. split; [by right | done].
Qed.

Lemma elem_of_opts q p f :
  q ∈ opts p f → Valid q ∧ Avoids q f ∧ Perp p q.
Proof.
  intros [_ Hq]%elem_of_List_filter.
  apply andb_true_iff in Hq as [[Hv Ha]%andb_true_iff Hp].
  apply validb_Valid in Hv. split_and!; [done | by apply avoidsb_Avoids |].
  by apply perpb_Perp.
Qed.

Lemma meets_sound p q f g :
  Valid f → Valid g → meets (leftSet f p) (rightKeys g q) = true → path p q f g.
Proof.
  intros Hf Hg Hm. apply existsb_spec in Hm as (w & Hw & Hin).
  apply list_elem_of_fmap in Hw as (u & -> & Hu).
  apply tmem_leftSet in Hin as (p' & Hp' & Hperp).
  apply elem_of_opts in Hu as (Hvu & Hau & Hpu).
  apply elem_of_opts in Hp' as (Hvp & Hap & Hpp).
  assert (Valid (third g u)) by (by apply Valid_third, Avoids_sym).
  assert (Valid (third f p')) by (by apply Valid_third, Avoids_sym).
  exists p', u. split_and!; try done.
  apply Perp_sym, Perp_normalize; [done..|].
  apply perpb_Perp; [by apply Valid_normalize | done].
Qed.

(** ** Chains *)

Lemma third_relabel_inverse t f p :
  t ∈ perms3 → Valid f → Valid p → Avoids p (relabel t f) →
  third f (relabel (inverse3 t) p) = relabel (inverse3 t) (third (relabel t f) p).
Proof.
  intros Ht Hf Hp Ha.
  rewrite <- third_relabel;
    [| by apply inverse3_perm | by apply Valid_relabel | done | by apply Avoids_sym].
  by rewrite relabel_inverse.
Qed.

Lemma path_relabel t s p q f g :
  t ∈ perms3 → s ∈ perms3 → Valid f → Valid g →
  path p q (relabel t f) (relabel s g) → path p q f g.
Proof.
  intros Ht Hs Hf Hg (p' & u & Hvp & Hvu & Hap & Hpp & Hau & Hpu & Hperp).
  exists (relabel (inverse3 t) p'), (relabel (inverse3 s) u).
  pose proof (inverse3_perm t Ht). pose proof (inverse3_perm s Hs).
  split_and!.
  - by apply Valid_relabel.
  - by apply Valid_relabel.
  - by apply Avoids_relabel.
  - by apply Perp_relabel_r.
  - by apply Avoids_relabel.
  - by apply Perp_relabel_r.
  - rewrite !third_relabel_inverse by done. by apply Perp_relabel.
Qed.

Lemma path_normalize p q f g :
  Valid f → Valid g → path p q (normalize f) (normalize g) → path p q f g.
Proof. intros Hf Hg. apply path_relabel; auto using normPerm_perm. Qed.

Lemma elem_of_allLines n f :
  length f = n → Forall (λ i, i < 3) f → f ∈ allLines n.
Proof.
  revert f. induction n as [|n IH]; intros [|i f] Hlen Hall; simplify_eq/=.
  - left.
  - apply Forall_cons in Hall as [Hi Hall].
    apply list_elem_of_bind. exists f. split; [|by apply IH].
    destruct i as [|[|[|i]]]; [| | |lia]; rewrite ?elem_of_cons; auto.
Qed.

Lemma normalize_parts f : Valid f → balancedb f = true → normalize f ∈ parts.
Proof.
  intros [Hlen Hall] Hbal. unfold parts.
  apply elem_of_remove_dups, list_elem_of_fmap. exists f. split; [done|].
  apply elem_of_List_filter. split; [|done]. by apply elem_of_allLines.
Qed.

Lemma majority_sound need ps qs f g :
  majority need ps qs = true → f ∈ parts → g ∈ parts →
  need ≤ countMeets (leftSet f <$> ps) (rightKeys g <$> qs).
Proof.
  unfold majority. cbv zeta. rewrite forallb_spec. intros Hall Hf Hg.
  apply Nat.leb_le.
  refine (proj1 (forallb_spec _ _) (Hall (leftSet f <$> ps) _) (rightKeys g <$> qs) _).
  - apply list_elem_of_fmap. by exists f.
  - apply list_elem_of_fmap. by exists g.
Qed.

Lemma countMeets_both {A} (L1 L2 : A → Trie unit) (R1 R2 : A → list Lines) l n1 n2 :
  n1 ≤ countMeets (L1 <$> l) (R1 <$> l) →
  n2 ≤ countMeets (L2 <$> l) (R2 <$> l) →
  length l < n1 + n2 →
  ∃ e, e ∈ l ∧ meets (L1 e) (R1 e) = true ∧ meets (L2 e) (R2 e) = true.
Proof.
  revert n1 n2. induction l as [|e l IH]; intros n1 n2; simpl; [lia|].
  destruct (meets (L1 e) (R1 e)) eqn:H1, (meets (L2 e) (R2 e)) eqn:H2.
  { intros _ _ _. exists e. split; [left | done]. }
  all: unfold fmap; intros Hn1 Hn2 Hlt.
  - destruct (IH (n1 - 1) n2) as (e' & ? & ? & ?); [unfold fmap; lia..|].
    exists e'; split; [by right | done].
  - destruct (IH n1 (n2 - 1)) as (e' & ? & ? & ?); [unfold fmap; lia..|].
    exists e'; split; [by right | done].
  - destruct (IH n1 n2) as (e' & ? & ? & ?); [unfold fmap; lia..|].
    exists e'; split; [by right | done].
Qed.

Lemma coversBelow_true : majority 7 (fst <$> family) (snd <$> family) = true.
Proof. by vm_compute. Qed.

Lemma coversAbove_true :
  majority 7 ((λ e, third colsA e.2) <$> family)
             ((λ e, third rowsA e.1) <$> family) = true.
Proof. by vm_compute. Qed.

Lemma family_covers b' c b c' :
  Valid b' → Valid c → Valid b → Valid c' →
  balancedb b' = true → balancedb c = true →
  balancedb b = true → balancedb c' = true →
  ∃ e, e ∈ family ∧ path e.1 e.2 b' c
       ∧ path (third colsA e.2) (third rowsA e.1) b c'.
Proof.
  intros Hb' Hc Hb Hc' Bb' Bc Bb Bc'.
  pose proof (majority_sound _ _ _ _ _ coversBelow_true
    (normalize_parts b' Hb' Bb') (normalize_parts c Hc Bc)) as H1'.
  pose proof (majority_sound _ _ _ _ _ coversAbove_true
    (normalize_parts b Hb Bb) (normalize_parts c' Hc' Bc')) as H2'.
  rewrite <- !list_fmap_compose in H1', H2'.
  assert (Hlen : length family < 7 + 7) by (clear; simpl; lia).
  pose proof (countMeets_both _ _ _ _ _ 7 7 H1' H2' Hlen) as (e & He & M1 & M2).
  unfold compose in M1, M2.
  exists e. split; [exact He|]. split.
  - apply path_normalize; [exact Hb' | exact Hc |].
    apply meets_sound; [by apply Valid_normalize..| exact M1].
  - apply path_normalize; [exact Hb | exact Hc' |].
    apply meets_sound; [by apply Valid_normalize..| exact M2].
Qed.

(** ** Boards from box layouts *)

Lemma cell_tabulate f r c : r < 9 → c < 9 → cell (tabulate f) r c = f r c.
Proof.
  intros Hr Hc. unfold cell, tabulate, range.
  rewrite list_lookup_fmap, lookup_seq_lt by done. simpl.
  do 9 (destruct c as [|c]; [done|]). lia.
Qed.

Lemma wfBoard_tabulate f : wfBoard (tabulate f).
Proof.
  unfold tabulate, range. split; [by rewrite length_fmap, length_seq|].
  apply Forall_fmap, Forall_forall. intros r _. done.
Qed.

Lemma lookup_zip_with_both {A B C} (f : A → B → C) l k i x y :
  l !! i = Some x → k !! i = Some y → zip_with f l k !! i = Some (f x y).
Proof. intros H1 H2. rewrite lookup_zip_with, H1. simpl. by rewrite H2. Qed.

Lemma Perp_inj p q d d' i j :
  Valid p → Valid q → Perp p q →
  p !! d = Some i → q !! d = Some j → p !! d' = Some i → q !! d' = Some j →
  d = d'.
Proof.
  intros [Hlp _] [Hlq _] Hperp Hp Hq Hp' Hq'.
  set (codes := zip_with (λ i j, 3 * i + j) p q).
  assert (Hnd : NoDup codes).
  { assert (Hperm : seq 0 9 ≡ₚ codes).
    { apply submseteq_length_Permutation.
      - apply NoDup_submseteq; [apply NoDup_seq|].
        intros k Hk%elem_of_seq.
        destruct (Hperp (k / 3) (k `mod` 3)) as (e & He1 & He2); [lia..|].
        apply list_elem_of_lookup. exists e. unfold codes.
        rewrite (lookup_zip_with_both _ _ _ _ _ _ He1 He2). f_equal. lia.
      - unfold codes. rewrite length_zip_with, length_seq. lia. }
    rewrite <- Hperm. apply NoDup_seq. }
  apply (NoDup_lookup codes d d' (3 * i + j)); [done|..]; unfold codes.
  - by rewrite (lookup_zip_with_both _ _ _ _ _ _ Hp Hq).
  - by rewrite (lookup_zip_with_both _ _ _ _ _ _ Hp' Hq').
Qed.

Lemma digitAt_Some bx d i j :
  Valid bx.1 → Valid bx.2 → Perp bx.1 bx.2 →
  bx.1 !! d = Some i → bx.2 !! d = Some j → digitAt bx i j = Some d.
Proof.
  intros H1 H2 Hperp Hi Hj. unfold digitAt.
  destruct (list_find _ _) as [[d' rc]|] eqn:Hfind; simpl.
  - apply list_find_Some in Hfind as (Hd' & -> & _).
    rewrite lookup_zip_with in Hd'.
    destruct (bx.1 !! d') as [i'|] eqn:Hi'; [simpl in Hd'|done].
    destruct (bx.2 !! d') as [j'|] eqn:Hj'; [simpl in Hd'|done].
    simplify_eq. f_equal. by eapply (Perp_inj bx.1 bx.2).
  - apply list_find_None in Hfind. rewrite Forall_forall in Hfind.
    destruct (Hfind (i, j)); [|done].
    apply list_elem_of_lookup. exists d.
    by rewrite (lookup_zip_with_both _ _ _ _ _ _ Hi Hj).
Qed.

Section Layout.
Variable digs : list nat.
Variable layout : nat → nat → Lines * Lines.
Hypothesis digs_perm : digs ≡ₚ seq 1 9.
Hypothesis boxes : ∀ R C, R < 3 → C < 3 →
  Valid (layout R C).1 ∧ Valid (layout R C).2 ∧ Perp (layout R C).1 (layout R C).2.
Hypothesis bands : ∀ R C C', R < 3 → C < 3 → C' < 3 → C ≠ C' →
  Avoids (layout R C).1 (layout R C').1.
Hypothesis stacks : ∀ C R R', C < 3 → R < 3 → R' < 3 → R ≠ R' →
  Avoids (layout R C).2 (layout R' C).2.

Lemma cell_assemble R C d i j :
  R < 3 → C < 3 →
  (layout R C).1 !! d = Some i → (layout R C).2 !! d = Some j →
  cell (assemble digs layout) (3 * R + i) (3 * C + j) = default 0 (digs !! d).
Proof.
  intros HR HC Hi Hj. destruct (boxes R C HR HC) as (H1 & H2 & Hperp).
  pose proof (Valid_lookup _ _ _ H1 Hi). pose proof (Valid_lookup _ _ _ H2 Hj).
  unfold assemble. rewrite cell_tabulate by lia.
  replace ((3 * R + i) / 3) with R by lia.
  replace ((3 * C + j) / 3) with C by lia.
  replace ((3 * R + i) `mod` 3) with i by lia.
  replace ((3 * C + j) `mod` 3) with j by lia.
  by rewrite (digitAt_Some _ d).
Qed.

Lemma digit_of v : v ∈ seq 1 9 → ∃ d, d < 9 ∧ digs !! d = Some v.
Proof.
  intros Hv. rewrite <- digs_perm in Hv.
  apply list_elem_of_lookup in Hv as [d Hd]. exists d. split; [|done].
  apply lookup_lt_Some in Hd. by rewrite digs_perm in Hd.
Qed.

Lemma line_in_band R d i :
  R < 3 → d < 9 → i < 3 → ∃ C, C < 3 ∧ (layout R C).1 !! d = Some i.
Proof.
  intros HR Hd Hi.
  destruct (boxes R 0) as (V0 & _); [lia..|].
  destruct (boxes R 1) as (V1 & _); [lia..|].
  destruct (boxes R 2) as (V2 & _); [lia..|].
  destruct (Valid_lookup_lt _ d V0 Hd) as (x0 & E0 & ?).
  destruct (Valid_lookup_lt _ d V1 Hd) as (x1 & E1 & ?).
  destruct (Valid_lookup_lt _ d V2 Hd) as (x2 & E2 & ?).
  pose proof (bands R 0 1 HR ltac:(lia) ltac:(lia) ltac:(lia) d x0 x1 E0 E1).
  pose proof (bands R 0 2 HR ltac:(lia) ltac:(lia) ltac:(lia) d x0 x2 E0 E2).
  pose proof (bands R 1 2 HR ltac:(lia) ltac:(lia) ltac:(lia) d x1 x2 E1 E2).
  destruct (decide (x0 = i)) as [<-|]; [exists 0; split; [lia | done]|].
  destruct (decide (x1 = i)) as [<-|]; [exists 1; split; [lia | done]|].
  exists 2. split; [lia|]. rewrite E2. f_equal. lia.
Qed.

Lemma line_in_stack C d j :
  C < 3 → d < 9 → j < 3 → ∃ R, R < 3 ∧ (layout R C).2 !! d = Some j.
Proof.
  intros HC Hd Hj.
  destruct (boxes 0 C) as (_ & V0 & _); [lia..|].
  destruct (boxes 1 C) as (_ & V1 & _); [lia..|].
  destruct (boxes 2 C) as (_ & V2 & _); [lia..|].
  destruct (Valid_lookup_lt _ d V0 Hd) as (x0 & E0 & ?).
  destruct (Valid_lookup_lt _ d V1 Hd) as (x1 & E1 & ?).
  destruct (Valid_lookup_lt _ d V2 Hd) as (x2 & E2 & ?).
  pose proof (stacks C 0 1 HC ltac:(lia) ltac:(lia) ltac:(lia) d x0 x1 E0 E1).
  pose proof (stacks C 0 2 HC ltac:(lia) ltac:(lia) ltac:(lia) d x0 x2 E0 E2).
  pose proof (stacks C 1 2 HC ltac:(lia) ltac:(lia) ltac:(lia) d x1 x2 E1 E2).
  destruct (decide (x0 = j)) as [<-|]; [exists 0; split; [lia | done]|].
  destruct (decide (x1 = j)) as [<-|]; [exists 1; split; [lia | done]|].
  exists 2. split; [lia|]. rewrite E2. f_equal. lia.
Qed.

Lemma complete_values (board : Board) (u : list Cell) :
  length u = 9 →
  (∀ v, v ∈ seq 1 9 → ∃ p, p ∈ u ∧ cell board p.1 p.2 = v) →
  values board u ≡ₚ seq 1 9.
Proof.
  intros Hlen Hall. symmetry. apply submseteq_length_Permutation.
  - apply NoDup_submseteq; [apply NoDup_seq|].
    intros v Hv. destruct (Hall v Hv) as ([r c] & Hin & <-).
    by apply (list_elem_of_fmap_2 (λ '(r, c), cell board r c) _ (r, c)).
  - unfold values. rewrite length_fmap, Hlen. done.
Qed.

Lemma assemble_solved : solvedGrid (assemble digs layout).
Proof.
  split; [apply wfBoard_tabulate|].
  intros u [(r & Hr & ->) | [(c & Hc & ->) | ([br bc] & Hcorner & ->)]]%elem_of_units.
  - apply complete_values; [done|]. intros v (d & Hd & Hv)%digit_of.
    destruct (line_in_band (r / 3) d (r `mod` 3)) as (C & HC & Hi); [lia..|].
    destruct (boxes (r / 3) C) as (_ & V2 & _); [lia..|].
    destruct (Valid_lookup_lt _ d V2 Hd) as (j & Hj & ?).
    exists (r, 3 * C + j). split.
    + apply elem_of_rowCells. exists (3 * C + j). split; [lia | done].
    + cbn [fst snd]. replace r with (3 * (r / 3) + r `mod` 3) at 1 by lia.
      rewrite (cell_assemble _ _ d) by (done || lia). by rewrite Hv.
  - apply complete_values; [done|]. intros v (d & Hd & Hv)%digit_of.
    destruct (line_in_stack (c / 3) d (c `mod` 3)) as (R & HR & Hj); [lia..|].
    destruct (boxes R (c / 3)) as (V1 & _ & _); [lia..|].
    destruct (Valid_lookup_lt _ d V1 Hd) as (i & Hi & ?).
    exists (3 * R + i, c). split.
    + apply elem_of_colCells. exists (3 * R + i). split; [lia | done].
    + cbn [fst snd]. replace c with (3 * (c / 3) + c `mod` 3) at 1 by lia.
      rewrite (cell_assemble _ _ d) by (done || lia). by rewrite Hv.
  - apply complete_values; [done|]. intros v (d & Hd & Hv)%digit_of.
    apply list_elem_of_fmap in Hcorner as ([R C] & [= -> ->] & [HR HC]%elem_of_range2).
    destruct (boxes R C HR HC) as (V1 & V2 & _).
    destruct (Valid_lookup_lt _ d V1 Hd) as (i & Hi & ?).
    destruct (Valid_lookup_lt _ d V2 Hd) as (j & Hj & ?).
    exists (3 * R + i, 3 * C + j). split.
    + apply elem_of_boxCells. by exists i, j.
    + cbn [fst snd]. rewrite (cell_assemble _ _ d) by done. by rewrite Hv.
Qed.

End Layout.

(** ** The seeded board *)

Lemma swap_perm nums i j :
  i < length nums → j < length nums → swap nums i j ≡ₚ nums.
Proof.
  intros Hi Hj. unfold swap. apply Permutation_insert_swap.
  - by apply list_lookup_lookup_total_lt.
  - by apply list_lookup_lookup_total_lt.
Qed.

Lemma shuffle_perm i rnd k nums :
  i < length nums → (shuffle i rnd k nums).1 ≡ₚ nums.
Proof.
  revert k nums. induction i as [|i IH]; intros k nums Hi; [done|].
  cbn [shuffle]. unfold randomBelow.
  assert (Hj : rnd k `mod` (S i + 1) < length nums).
  { pose proof (Nat.mod_upper_bound (rnd k) (S i + 1)). lia. }
  rewrite IH.
  - by apply swap_perm.
  - rewrite (Permutation_length (swap_perm nums (S i) _ Hi Hj)). lia.
Qed.

Lemma count_perm v f g : f ≡ₚ g → count v f = count v g.
Proof.
  unfold count. induction 1 as [|x f g _ IH|x y f|f g h _ IH1 _ IH2]; simpl.
  - done.
  - destruct (v =? x); simpl; lia.
  - destruct (v =? x), (v =? y); simpl; lia.
  - lia.
Qed.

Lemma position_lookup l k v : NoDup l → l !! k = Some v → position l v = k.
Proof.
  intros Hnd Hk. unfold position.
  destruct (list_find_elem_of (λ x, x = v) l v) as [[k' x] Hfind];
    [by eapply list_elem_of_lookup_2 | done |].
  rewrite Hfind. simpl.
  apply list_find_Some in Hfind as (Hk' & -> & _).
  by eapply NoDup_lookup.
Qed.

Section Boxes.
Variables la l : list nat.
Hypothesis la_perm : la ≡ₚ seq 1 9.
Hypothesis l_perm : l ≡ₚ seq 1 9.

Lemma NoDup_box : NoDup l.
Proof. rewrite l_perm. apply NoDup_seq. Qed.

Lemma positions_perm : position l <$> la ≡ₚ seq 0 9.
Proof.
  rewrite la_perm, <- l_perm.
  assert (position l <$> l = seq 0 (length l)) as ->.
  { apply list_eq. intros k. rewrite list_lookup_fmap.
    destruct (l !! k) as [v|] eqn:Hk; simpl.
    - rewrite (position_lookup l k v NoDup_box Hk).
      symmetry. apply lookup_seq. split; [done|]. by eapply lookup_lt_Some.
    - symmetry. apply lookup_ge_None. rewrite length_seq.
      by apply lookup_ge_None. }
  by rewrite l_perm.
Qed.

Lemma boxRows_positions : boxRows la l = (λ k, k / 3) <$> (position l <$> la).
Proof. unfold boxRows. by rewrite <- list_fmap_compose. Qed.

Lemma boxCols_positions : boxCols la l = (λ k, k `mod` 3) <$> (position l <$> la).
Proof. unfold boxCols. by rewrite <- list_fmap_compose. Qed.

Lemma position_lt d v : la !! d = Some v → position l v < 9.
Proof.
  intros Hd.
  assert (Hin : position l v ∈ position l <$> la).
  { apply list_elem_of_fmap. exists v. split; [done|].
    by eapply list_elem_of_lookup_2. }
  rewrite positions_perm in Hin. apply elem_of_seq in Hin. lia.
Qed.

Lemma Valid_boxRows : Valid (boxRows la l).
Proof.
  split.
  - unfold boxRows. by rewrite length_fmap, la_perm.
  - apply Forall_fmap, Forall_lookup. intros d v Hd. unfold compose.
    pose proof (position_lt d v Hd). lia.
Qed.

Lemma Valid_boxCols : Valid (boxCols la l).
Proof.
  split.
  - unfold boxCols. by rewrite length_fmap, la_perm.
  - apply Forall_fmap, Forall_lookup. intros d v Hd. unfold compose. lia.
Qed.

Lemma balanced_boxRows : balancedb (boxRows la l) = true.
Proof.
  unfold balancedb. rewrite boxRows_positions.
  by rewrite !(count_perm _ _ _ (fmap_Permutation _ _ _ positions_perm)).
Qed.

Lemma balanced_boxCols : balancedb (boxCols la l) = true.
Proof.
  unfold balancedb. rewrite boxCols_positions.
  by rewrite !(count_perm _ _ _ (fmap_Permutation _ _ _ positions_perm)).
Qed.

Lemma Perp_box : Perp (boxRows la l) (boxCols la l).
Proof.
  intros r c Hr Hc.
  assert (Hin : 3 * r + c ∈ position l <$> la).
  { rewrite positions_perm. apply elem_of_seq. lia. }
  apply list_elem_of_lookup in Hin as [d Hd]. exists d.
  rewrite list_lookup_fmap in Hd. unfold boxRows, boxCols.
  rewrite !list_lookup_fmap.
  destruct (la !! d) as [v|]; [|done]. injection Hd as Hd.
  cbn [fmap option_fmap option_map]. rewrite Hd. split; f_equal; lia.
Qed.

Lemma box_lookup d v i j :
  la !! d = Some v → boxRows la l !! d = Some i → boxCols la l !! d = Some j →
  l !! (3 * i + j) = Some v.
Proof.
  unfold boxRows, boxCols. rewrite !list_lookup_fmap. intros Hd. rewrite Hd.
  cbn [fmap option_fmap option_map]. intros Hi Hj.
  apply (inj Some) in Hi, Hj. subst i j.
  assert (Hin : v ∈ l).
  { rewrite l_perm, <- la_perm. by eapply list_elem_of_lookup_2. }
  apply list_elem_of_lookup in Hin as [k Hk].
  rewrite (position_lookup l k v NoDup_box Hk).
  replace (3 * (k / 3) + k `mod` 3) with k by lia. done.
Qed.

End Boxes.

Lemma positions_self l : NoDup l → position l <$> l = seq 0 (length l).
Proof.
  intros Hnd. apply list_eq. intros k. rewrite list_lookup_fmap.
  destruct (l !! k) as [v|] eqn:Hk; simpl.
  - rewrite (position_lookup l k v Hnd Hk).
    symmetry. apply lookup_seq. split; [done|]. by eapply lookup_lt_Some.
  - symmetry. apply lookup_ge_None. rewrite length_seq.
    by apply lookup_ge_None.
Qed.

Lemma boxRows_self la : la ≡ₚ seq 1 9 → boxRows la la = rowsA.
Proof.
  intros Ha. rewrite boxRows_positions, positions_self.
  - by rewrite Ha.
  - rewrite Ha. apply NoDup_seq.
Qed.

Lemma boxCols_self la : la ≡ₚ seq 1 9 → boxCols la la = colsA.
Proof.
  intros Ha. rewrite boxCols_positions, positions_self.
  - by rewrite Ha.
  - rewrite Ha. apply NoDup_seq.
Qed.

Lemma Valid_rowsA : Valid rowsA.
Proof. by apply validb_Valid. Qed.

Lemma Valid_colsA : Valid colsA.
Proof. by apply validb_Valid. Qed.

Lemma Perp_A : Perp rowsA colsA.
Proof. apply perpb_Perp; [apply Valid_colsA | done]. Qed.

Lemma family_fits e :
  e ∈ family → Valid e.1 ∧ Avoids e.1 rowsA ∧ Valid e.2 ∧ Avoids e.2 colsA.
Proof.
  assert (Hall : forallb (λ e, validb e.1 && avoidsb e.1 rowsA
                               && validb e.2 && avoidsb e.2 colsA) family = true)
    by done.
  rewrite forallb_spec in Hall. intros He. apply Hall in He.
  apply andb_true_iff in He as [[[V1 A1]%andb_true_iff V2]%andb_true_iff A2].
  split_and!; by (apply validb_Valid || apply avoidsb_Avoids).
Qed.

Lemma Avoids_third_l' f g : Valid f → Valid g → Avoids f g → Avoids f (third f g).
Proof. intros. by apply Avoids_sym, Avoids_third_l. Qed.

Lemma Avoids_third_r' f g : Valid f → Valid g → Avoids f g → Avoids g (third f g).
Proof. intros. by apply Avoids_sym, Avoids_third_r. Qed.

Section Completion.
Variables la lb lc : list nat.
Variables x x' y' z u u' : Lines.
Hypothesis la_perm : la ≡ₚ seq 1 9.
Hypothesis lb_perm : lb ≡ₚ seq 1 9.
Hypothesis lc_perm : lc ≡ₚ seq 1 9.
Hypothesis Vx : Valid x.
Hypothesis Vx' : Valid x'.
Hypothesis Vy' : Valid y'.
Hypothesis Vz : Valid z.
Hypothesis Vu : Valid u.
Hypothesis Vu' : Valid u'.
Hypothesis Ax : Avoids x rowsA.
Hypothesis Au' : Avoids u' colsA.
Hypothesis Ax' : Avoids x' (boxCols la lb).
Hypothesis Au : Avoids u (boxRows la lc).
Hypothesis Az : Avoids z (boxRows la lb).
Hypothesis Ay' : Avoids y' (boxCols la lc).
Hypothesis PX : Perp x x'.
Hypothesis PU : Perp u' u.
Hypothesis PV : Perp (third (boxRows la lc) u) (third (boxCols la lb) x').
Hypothesis PZ : Perp (third colsA u') z.
Hypothesis PY : Perp (third rowsA x) y'.
Hypothesis PW : Perp (third (boxCols la lc) y') (third (boxRows la lb) z).

Local Abbreviation layout := (completion la lb lc x x' y' z u u').

Ltac lines :=
  pose proof Valid_rowsA; pose proof Valid_colsA; pose proof Perp_A;
  pose proof (Valid_boxRows la lb la_perm lb_perm);
  pose proof (Valid_boxCols la lb la_perm);
  pose proof (Valid_boxRows la lc la_perm lc_perm);
  pose proof (Valid_boxCols la lc la_perm);
  pose proof (Perp_box la lb la_perm lb_perm);
  pose proof (Perp_box la lc la_perm lc_perm);
  pose proof (Avoids_sym _ _ Ax); pose proof (Avoids_sym _ _ Au');
  pose proof (Avoids_sym _ _ Ax'); pose proof (Avoids_sym _ _ Au);
  pose proof (Avoids_sym _ _ Az); pose proof (Avoids_sym _ _ Ay');
  pose proof (Perp_sym _ _ PX); pose proof (Perp_sym _ _ PU);
  pose proof (Perp_sym _ _ PZ); pose proof (Perp_sym _ _ PW).

Lemma completion_boxes R C :
  R < 3 → C < 3 →
  Valid (layout R C).1 ∧ Valid (layout R C).2 ∧ Perp (layout R C).1 (layout R C).2.
Proof.
  intros HR HC. lines.
  destruct R as [|[|[|R]]], C as [|[|[|C]]]; try lia;
    cbn [completion fst snd]; split_and!;
    auto using Valid_third.
Qed.

Lemma completion_bands R C C' :
  R < 3 → C < 3 → C' < 3 → C ≠ C' → Avoids (layout R C).1 (layout R C').1.
Proof.
  intros HR HC HC' Hne. lines.
  destruct R as [|[|[|R]]], C as [|[|[|C]]], C' as [|[|[|C']]]; try lia;
    cbn [completion fst snd];
    auto using Avoids_third_l, Avoids_third_r, Avoids_third_l', Avoids_third_r'.
Qed.

Lemma completion_stacks C R R' :
  C < 3 → R < 3 → R' < 3 → R ≠ R' → Avoids (layout R C).2 (layout R' C).2.
Proof.
  intros HC HR HR' Hne. lines.
  destruct C as [|[|[|C]]], R as [|[|[|R]]], R' as [|[|[|R']]]; try lia;
    cbn [completion fst snd];
    auto using Avoids_third_l, Avoids_third_r, Avoids_third_l', Avoids_third_r'.
Qed.

Lemma completion_solved : solvedGrid (assemble la layout).
Proof.
  apply assemble_solved; auto using completion_boxes, completion_bands, completion_stacks.
Qed.

Lemma completion_diagonal R :
  R < 3 →
  layout R R = (boxRows la (nth R [la; lb; lc] []), boxCols la (nth R [la; lb; lc] [])).
Proof.
  intros HR. destruct R as [|[|[|R]]]; try lia; cbn [completion nth];
    by rewrite ?boxRows_self, ?boxCols_self.
Qed.

Lemma completion_extends : extends (seedBoard la lb lc) (assemble la layout).
Proof.
  intros r c Hr Hc. unfold seedBoard. rewrite cell_tabulate by done.
  destruct (r / 3 =? c / 3) eqn:Hbox; [|done]. apply Nat.eqb_eq in Hbox.
  intros _. set (l := nth (r / 3) [la; lb; lc] []).
  assert (Hl : l ≡ₚ seq 1 9).
  { unfold l. destruct (r / 3) as [|[|[|R]]] eqn:E; [done..|lia]. }
  destruct (Perp_box la l la_perm Hl (r `mod` 3) (c `mod` 3)) as (d & Hi & Hj);
    [lia..|].
  destruct (lookup_lt_is_Some_2 la d) as [v Hv].
  { apply lookup_lt_Some in Hi. unfold boxRows in Hi.
    by rewrite length_fmap in Hi. }
  rewrite (nth_lookup_Some l _ 0 v (box_lookup la l la_perm Hl d v _ _ Hv Hi Hj)).
  replace r with (3 * (r / 3) + r `mod` 3) at 1 by lia.
  replace c with (3 * (r / 3) + c `mod` 3) at 1 by lia.
  rewrite (cell_assemble la layout completion_boxes _ _ d).
  - by rewrite Hv.
  - lia.
  - lia.
  - by rewrite completion_diagonal by lia.
  - by rewrite completion_diagonal by lia.
Qed.

End Completion.

(** Every seeding of the diagonal boxes leaves a board that has a solved
    grid above it. *)
Lemma seed_completable la lb lc :
  la ≡ₚ seq 1 9 → lb ≡ₚ seq 1 9 → lc ≡ₚ seq 1 9 →
  ∃ full, solvedGrid full ∧ extends (seedBoard la lb lc) full.
Proof.
  intros Ha Hb Hc.
  destruct (family_covers (boxCols la lb) (boxRows la lc)
                          (boxRows la lb) (boxCols la lc))
    as ([x u'] & He & P1 & P2);
    auto using Valid_boxRows, Valid_boxCols, balanced_boxRows, balanced_boxCols.
  destruct (family_fits _ He) as (Vx & Ax & Vu' & Au').
  destruct P1 as (x' & u & Vx' & Vu & Ax' & PX & Au & PU & PV).
  destruct P2 as (z & y' & Vz & Vy' & Az & PZ & Ay' & PY & PW).
  exists (assemble la (completion la lb lc x x' y' z u u')). split.
  - by apply completion_solved.
  - by apply completion_extends.
Qed.

Ltac nine l H :=
  apply Permutation_length in H;
  do 9 (destruct l as [|? l]; [discriminate H|]);
  destruct l; [clear H | discriminate H].

Lemma fillBox_writeBox board rowStart colStart rnd k :
  fillBox board rowStart colStart rnd k
  = (writeBox board rowStart colStart (shuffle 8 rnd k [1; 2; 3; 4; 5; 6; 7; 8; 9]).1,
     (shuffle 8 rnd k [1; 2; 3; 4; 5; 6; 7; 8; 9]).2).
Proof.
  unfold fillBox, writeBox. destruct (shuffle 8 rnd k _) as [nums k'].
  cbn [fst snd]. by destruct (foldl _ _ _).
Qed.

Lemma writeBox_seedBoard la lb lc :
  la ≡ₚ seq 1 9 → lb ≡ₚ seq 1 9 → lc ≡ₚ seq 1 9 →
  writeBox (writeBox (writeBox emptyBoard 0 0 la) 3 3 lb) 6 6 lc
  = seedBoard la lb lc.
Proof. intros Ha Hb Hc. nine la Ha. nine lb Hb. nine lc Hc. by vm_compute. Qed.

Lemma fillDiagonalBoxes_seed rnd k :
  ∃ la lb lc k',
    fillDiagonalBoxes emptyBoard rnd k = (seedBoard la lb lc, k')
    ∧ la ≡ₚ seq 1 9 ∧ lb ≡ₚ seq 1 9 ∧ lc ≡ₚ seq 1 9.
Proof.
  unfold fillDiagonalBoxes. cbn [foldl]. rewrite !fillBox_writeBox.
  cbn [fst snd].
  set (s1 := shuffle 8 rnd k _). set (s2 := shuffle 8 rnd s1.2 _).
  set (s3 := shuffle 8 rnd s2.2 _).
  assert (H1 : s1.1 ≡ₚ seq 1 9) by (apply shuffle_perm; simpl; lia).
  assert (H2 : s2.1 ≡ₚ seq 1 9) by (apply shuffle_perm; simpl; lia).
  assert (H3 : s3.1 ≡ₚ seq 1 9) by (apply shuffle_perm; simpl; lia).
  exists s1.1, s2.1, s3.1, s3.2. split_and!; [|done..].
  f_equal. by apply writeBox_seedBoard.
Qed.

(** ** Search *)

Lemma findEmptyCell_Some board r c :
  findEmptyCell board = Some (r, c) → r < 9 ∧ c < 9 ∧ cell board r c = 0.
Proof.
  unfold findEmptyCell. intros [Hin Hz]%find_some.
  apply list_elem_of_In, elem_of_range2 in Hin. apply Nat.eqb_eq in Hz. tauto.
Qed.

Lemma findEmptyCell_None board : findEmptyCell board = None → filled board.
Proof.
  unfold findEmptyCell. intros Hnone r c Hr Hc.
  assert (Hin : (r, c) ∈ range2 9 9) by by apply elem_of_range2.
  apply list_elem_of_In in Hin.
  apply (find_none _ _ Hnone) in Hin. by apply Nat.eqb_neq in Hin.
Qed.

Lemma setCell_restore board r c num :
  wfBoard board → r < 9 → c < 9 → cell board r c = 0 →
  setCell (setCell board r c num) r c 0 = board.
Proof.
  intros [Hlen Hrows] Hr Hc Hz. unfold setCell, cell in *.
  apply list_eq. intros i. destruct (decide (i = r)) as [-> | Hne].
  - rewrite !list_lookup_alter_eq.
    destruct (board !! r) as [row|] eqn:Hrow; [simpl|done]. f_equal.
    rewrite list_insert_insert_eq. apply list_insert_id.
    rewrite Forall_lookup in Hrows. specialize (Hrows r row Hrow).
    destruct (lookup_lt_is_Some_2 row c) as [v Hv]; [lia|].
    rewrite Hv in Hz |- *. simpl in Hz. by subst.
  - by rewrite !list_lookup_alter_ne.
Qed.

Lemma countNonZero_place board r c num :
  wfBoard board → r < 9 → c < 9 → cell board r c = 0 → num ≠ 0 →
  countNonZero (setCell board r c num) = S (countNonZero board).
Proof.
  intros Hwf Hr Hc Hz Hnum.
  rewrite (countNonZero_setCell_zero (setCell board r c num) r c).
  - by rewrite setCell_restore.
  - by apply wfBoard_setCell.
  - done.
  - done.
  - by rewrite cell_setCell_eq.
Qed.

Lemma countNonZero_le board : countNonZero board ≤ 81.
Proof. unfold countNonZero. by rewrite length_filter. Qed.

Lemma inUnit_bound r c r' c' :
  r < 9 → c < 9 → inUnit r c r' c' → r' < 9 ∧ c' < 9.
Proof. unfold inUnit. lia. Qed.

Lemma inUnit_sym r c r' c' :
  r < 9 → c < 9 → inUnit r c r' c' → inUnit r' c' r c.
Proof. unfold inUnit. lia. Qed.

Lemma units_shape u : u ∈ units → NoDup u ∧ length u = 9.
Proof.
  assert (Hall : Forall (λ u, NoDup u ∧ length u = 9) units).
  { apply (bool_decide_unpack _). by vm_compute. }
  rewrite Forall_forall in Hall. apply Hall.
Qed.

Lemma units_inUnit u p q :
  u ∈ units → p ∈ u → q ∈ u →
  p.1 < 9 ∧ p.2 < 9 ∧ q.1 < 9 ∧ q.2 < 9 ∧ inUnit p.1 p.2 q.1 q.2.
Proof.
  unfold inUnit.
  intros [(r & Hr & ->) | [(c & Hc & ->) | ([br bc] & Hcorner & ->)]]%elem_of_units.
  - intros (c1 & ? & ->)%elem_of_rowCells (c2 & ? & ->)%elem_of_rowCells.
    simpl. lia.
  - intros (r1 & ? & ->)%elem_of_colCells (r2 & ? & ->)%elem_of_colCells.
    simpl. lia.
  - apply list_elem_of_fmap in Hcorner as ([R C] & [= -> ->] & [HR HC]%elem_of_range2).
    intros (i1 & j1 & ? & ? & ->)%elem_of_boxCells
           (i2 & j2 & ? & ? & ->)%elem_of_boxCells.
    cbn [fst snd]. lia.
Qed.

Lemma inUnit_units r c r' c' :
  r < 9 → c < 9 → inUnit r c r' c' →
  ∃ u, u ∈ units ∧ (r, c) ∈ u ∧ (r', c') ∈ u.
Proof.
  intros Hr Hc [[-> Hc'] | [[-> Hr'] | [Hbr Hbc]]].
  - exists (rowCells r). rewrite elem_of_units, !elem_of_rowCells.
    split_and!; [left|..]; eauto.
  - exists (colCells c). rewrite elem_of_units, !elem_of_colCells.
    split_and!; [right; left|..]; eauto.
  - exists (boxCells (3 * (r / 3)) (3 * (c / 3))). split_and!.
    + apply elem_of_units. right. right. exists (3 * (r / 3), 3 * (c / 3)).
      split; [|done].
      apply (list_elem_of_fmap_2 (λ '(i, j), (3 * i, 3 * j)) _ (r / 3, c / 3)).
      apply elem_of_range2. lia.
    + apply elem_of_boxCells. exists (r `mod` 3), (c `mod` 3).
      split_and!; [lia..|]. f_equal; lia.
    + apply elem_of_boxCells. exists (r' `mod` 3), (c' `mod` 3).
      split_and!; [lia..|]. f_equal; lia.
Qed.

(** Two cells of one group of a solved grid hold different numbers. *)
Lemma solved_distinct full r c r' c' :
  solvedGrid full → r < 9 → c < 9 → (r, c) ≠ (r', c') → inUnit r c r' c' →
  cell full r c ≠ cell full r' c'.
Proof.
  intros [_ Hunits] Hr Hc Hne Hin Heq.
  destruct (inUnit_units r c r' c' Hr Hc Hin) as (u & Hu & Hp & Hq).
  assert (Hnd : NoDup (values full u)).
  { rewrite (Hunits u Hu). apply NoDup_seq. }
  apply list_elem_of_lookup in Hp as [i Hi], Hq as [j Hj].
  apply Hne. assert (i = j) as ->; [|congruence].
  apply (NoDup_lookup (values full u) i j (cell full r c)); [done|..];
    unfold values; rewrite list_lookup_fmap.
  - by rewrite Hi.
  - rewrite Hj. simpl. by rewrite Heq.
Qed.

Lemma extends_partialGrid board full :
  wfBoard board → solvedGrid full → extends board full → partialGrid board.
Proof.
  intros Hwf Hfull Hext. split_and!; [done|..].
  - intros r c Hr Hc. destruct (decide (cell board r c = 0)) as [-> | Hnz]; [lia|].
    rewrite <- (Hext r c Hr Hc Hnz).
    pose proof (solvedGrid_entry full r c Hfull Hr Hc). lia.
  - intros r c r' c' Hr Hc Hr' Hc' Hne Hin Hnz Heq.
    apply (solved_distinct full r c r' c' Hfull Hr Hc Hne Hin).
    rewrite (Hext r c Hr Hc Hnz), (Hext r' c' Hr' Hc'); [done|].
    by rewrite <- Heq.
Qed.

Lemma partialGrid_filled board : partialGrid board → filled board → solvedGrid board.
Proof.
  intros (Hwf & Hle & Hcons) Hfull. split; [done|]. intros u Hu.
  destruct (units_shape u Hu) as [Hnd Hlen].
  apply submseteq_length_Permutation.
  - apply NoDup_submseteq.
    + apply NoDup_fmap_2_strong; [|done]. intros [r c] [r' c'] Hp Hq Heq.
      destruct (units_inUnit u _ _ Hu Hp Hq) as (? & ? & ? & ? & ?).
      destruct (decide ((r, c) = (r', c'))) as [|Hne]; [done|].
      destruct (Hcons r c r' c'); auto.
    + intros v ([r c] & -> & Hp)%list_elem_of_fmap.
      destruct (units_inUnit u _ _ Hu Hp Hp) as (Hr & Hc & _). simpl in Hr, Hc.
      pose proof (Hle r c Hr Hc). pose proof (Hfull r c Hr Hc).
      apply elem_of_seq. lia.
  - unfold values. rewrite length_fmap, Hlen. done.
Qed.

Lemma partialGrid_place board r c num :
  partialGrid board → r < 9 → c < 9 → 1 ≤ num ≤ 9 →
  isValidPlacement board r c num = true →
  partialGrid (setCell board r c num).
Proof.
  intros (Hwf & Hle & Hcons) Hr Hc Hnum Hvalid.
  rewrite isValidPlacement_unit in Hvalid. split_and!.
  - by apply wfBoard_setCell.
  - intros r1 c1 Hr1 Hc1. destruct (decide ((r, c) = (r1, c1))) as [[= <- <-] | Hne].
    + rewrite cell_setCell_eq by done. lia.
    + rewrite cell_setCell_ne by done. auto.
  - intros r1 c1 r2 c2 Hr1 Hc1 Hr2 Hc2 Hne Hin.
    destruct (decide ((r, c) = (r1, c1))) as [[= <- <-] | Hne1].
    + rewrite cell_setCell_eq, cell_setCell_ne by done.
      intros _ Heq. by apply (Hvalid r2 c2).
    + rewrite (cell_setCell_ne _ _ _ _ r1 c1) by done.
      destruct (decide ((r, c) = (r2, c2))) as [[= <- <-] | Hne2].
      * rewrite cell_setCell_eq by done. intros _ Heq.
        apply (Hvalid r1 c1); [|done]. by apply inUnit_sym.
      * rewrite cell_setCell_ne by done. by apply Hcons.
Qed.

Lemma extends_place board full r c :
  wfBoard board → r < 9 → c < 9 →
  extends board full → extends (setCell board r c (cell full r c)) full.
Proof.
  intros Hwf Hr Hc Hext r1 c1 Hr1 Hc1.
  destruct (decide ((r, c) = (r1, c1))) as [[= <- <-] | Hne].
  - by rewrite cell_setCell_eq.
  - rewrite cell_setCell_ne by done. by apply Hext.
Qed.

(** A number that a solved grid above the board has at an empty cell
    passes the placement test. *)
Lemma extends_valid board full r c :
  solvedGrid full → extends board full → r < 9 → c < 9 → cell board r c = 0 →
  isValidPlacement board r c (cell full r c) = true.
Proof.
  intros Hfull Hext Hr Hc Hz. apply isValidPlacement_unit.
  intros r' c' Hin Heq.
  destruct (inUnit_bound r c r' c' Hr Hc Hin) as [Hr' Hc'].
  pose proof (solvedGrid_entry full r c Hfull Hr Hc) as Hentry.
  assert (Hne : (r, c) ≠ (r', c')).
  { intros [= <- <-]. lia. }
  apply (solved_distinct full r c r' c' Hfull Hr Hc Hne Hin).
  rewrite <- Heq. symmetry. apply Hext; [done..|]. lia.
Qed.

Section Search.
Variable solve : Board → option (bool * Board).
Variable budget : nat.

(** What the recursive call is known to do on boards with fewer than
    [budget] empty cells. *)
Hypothesis solve_spec : ∀ board,
  partialGrid board → 81 - countNonZero board < budget →
  ∃ ok board', solve board = Some (ok, board')
    ∧ if ok then partialGrid board' ∧ filled board'
      else board' = board ∧ ∀ full, solvedGrid full → ¬ extends board full.

Lemma tryNums_spec row col nums board :
  partialGrid board → row < 9 → col < 9 → cell board row col = 0 →
  81 - countNonZero board < S budget →
  Forall (λ num, 1 ≤ num ≤ 9) nums →
  ∃ ok board', tryNums solve row col nums board = Some (ok, board')
    ∧ if ok then partialGrid board' ∧ filled board'
      else board' = board
           ∧ ∀ full, solvedGrid full → extends board full →
                     cell full row col ∉ nums.
Proof.
  intros Hpart Hrow Hcol Hz Hbudget. induction nums as [|num nums IH]; intros Hall.
  { exists false, board. split; [done|]. split; [done|].
    intros full _ _ Hin. by apply elem_of_nil in Hin. }
  apply Forall_cons in Hall as [Hnum Hall]. specialize (IH Hall).
  destruct IH as (ok & board' & Hrest & Hpost). cbn [tryNums].
  pose proof Hpart as (Hwf & _).
  destruct (isValidPlacement board row col num) eqn:Hvalid.
  - destruct (solve_spec (setCell board row col num)) as (ok1 & b1 & Hsolve & Hpost1).
    { by apply partialGrid_place. }
    { rewrite countNonZero_place by (done || lia).
      pose proof (countNonZero_le (setCell board row col num)) as Hle.
      rewrite countNonZero_place in Hle by (done || lia). lia. }
    rewrite Hsolve. destruct ok1.
    { exists true, b1. by split. }
    destruct Hpost1 as [-> Hnone]. rewrite setCell_restore by done.
    exists ok, board'. split; [done|]. destruct ok; [done|].
    destruct Hpost as [-> Hnot]. split; [done|].
    intros full Hfull Hext [Heq | Hin]%elem_of_cons; [|by eapply Hnot].
    apply (Hnone full Hfull). rewrite <- Heq. by apply extends_place.
  - exists ok, board'. split; [done|]. destruct ok; [done|].
    destruct Hpost as [-> Hnot]. split; [done|].
    intros full Hfull Hext [Heq | Hin]%elem_of_cons; [|by eapply Hnot].
    by rewrite <- Heq, (extends_valid board full) in Hvalid.
Qed.

End Search.

(** [solveBoard] ends once the depth bound exceeds the number of empty
    cells; it answers [true] with a filled board, or [false] with the
    board as it was, and then no solved grid lies above the board. *)
Lemma solveBoard_spec fuel board :
  partialGrid board → 81 - countNonZero board < fuel →
  ∃ ok board', solveBoard fuel board = Some (ok, board')
    ∧ if ok then partialGrid board' ∧ filled board'
      else board' = board ∧ ∀ full, solvedGrid full → ¬ extends board full.
Proof.
  revert board. induction fuel as [|fuel IH]; intros board Hpart Hfuel; [lia|].
  cbn [solveBoard]. destruct (findEmptyCell board) as [[row col]|] eqn:Hfind.
  - apply findEmptyCell_Some in Hfind as (Hrow & Hcol & Hz).
    destruct (tryNums_spec (solveBoard fuel) fuel IH row col (seq 1 9) board)
      as (ok & board' & Htry & Hpost); [done..| |].
    { apply Forall_forall. intros num Hnum%elem_of_seq. lia. }
    exists ok, board'. split; [done|]. destruct ok; [done|].
    destruct Hpost as [-> Hnot]. split; [done|].
    intros full Hfull Hext. apply (Hnot full Hfull Hext).
    pose proof (solvedGrid_entry full row col Hfull Hrow Hcol).
    apply elem_of_seq. lia.
  - exists true, board. split; [done|]. split; [done|].
    by apply findEmptyCell_None.
Qed.

Lemma wfBoard_seedBoard la lb lc : wfBoard (seedBoard la lb lc).
Proof. apply wfBoard_tabulate. Qed.

(** The search on a seeded board ends with a solved grid. *)
Lemma solveBoard_seed la lb lc :
  la ≡ₚ seq 1 9 → lb ≡ₚ seq 1 9 → lc ≡ₚ seq 1 9 →
  ∃ board', solveBoard solveDepth (seedBoard la lb lc) = Some (true, board')
            ∧ solvedGrid board'.
Proof.
  intros Ha Hb Hc.
  destruct (seed_completable la lb lc Ha Hb Hc) as (full & Hfull & Hext).
  pose proof (extends_partialGrid _ _ (wfBoard_seedBoard la lb lc) Hfull Hext) as Hpart.
  destruct (solveBoard_spec solveDepth (seedBoard la lb lc) Hpart)
    as (ok & board' & Hsolve & Hpost).
  { unfold solveDepth. lia. }
  destruct ok.
  - destruct Hpost. exists board'. split; [done|]. by apply partialGrid_filled.
  - destruct Hpost as [_ Hnone]. by destruct (Hnone full).
Qed.

Lemma generateSolvedBoard_solved rnd k :
  ∃ board', solveBoard solveDepth (fillDiagonalBoxes emptyBoard rnd k).1
              = Some (true, board')
            ∧ (generateSolvedBoard rnd k).1 = board'
            ∧ solvedGrid board'.
Proof.
  destruct (fillDiagonalBoxes_seed rnd k) as (la & lb & lc & k' & Hseed & Ha & Hb & Hc).
  destruct (solveBoard_seed la lb lc Ha Hb Hc) as (board' & Hsolve & Hsolved).
  exists board'. unfold generateSolvedBoard. rewrite Hseed. cbn [fst].
  by rewrite Hsolve.
Qed.

(** ** The generator and the hint *)

Lemma tryNums_mono (solve solve' : Board → option (bool * Board)) row col nums board res :
  (∀ b r, solve b = Some r → solve' b = Some r) →
  tryNums solve row col nums board = Some res →
  tryNums solve' row col nums board = Some res.
Proof.
  intros Hmono. revert board. induction nums as [|num nums IH]; intros board; [done|].
  cbn [tryNums]. destruct (isValidPlacement board row col num); [|apply IH].
  destruct (solve (setCell board row col num)) as [[ok b1]|] eqn:Hsolve; [|done].
  rewrite (Hmono _ _ Hsolve). destruct ok; [done | apply IH].
Qed.

(** A larger depth bound does not change an answer. *)
Lemma solveBoard_mono fuel fuel' board res :
  fuel ≤ fuel' → solveBoard fuel board = Some res → solveBoard fuel' board = Some res.
Proof.
  revert fuel' board res. induction fuel as [|fuel IH]; intros fuel' board res Hle; [done|].
  destruct fuel' as [|fuel']; [lia|]. cbn [solveBoard].
  destruct (findEmptyCell board) as [[row col]|]; [|done].
  apply tryNums_mono. intros b r. apply IH. lia.
Qed.

Lemma filter_length_mono {A} (P Q : A → Prop) `{!∀ x, Decision (P x)}
    `{!∀ x, Decision (Q x)} (l : list A) :
  (∀ x, x ∈ l → P x → Q x) → length (filter P l) ≤ length (filter Q l).
Proof.
  induction l as [|x l IH]; intros Himp; [done|].
  assert (Hl : length (filter P l) ≤ length (filter Q l)).
  { apply IH. intros y Hy. apply Himp. by right. }
  rewrite !filter_cons.
  destruct (decide (P x)) as [HP|], (decide (Q x)) as [|HQ]; simpl; try lia.
  destruct HQ. apply Himp; [left | done].
Qed.

Lemma cell_setCell_cases board row col v :
  cell (setCell board row col v) row col = v
  ∨ cell (setCell board row col v) row col = cell board row col.
Proof.
  unfold cell, setCell. rewrite list_lookup_alter_eq.
  destruct (board !! row) as [r|]; [simpl | by right].
  destruct (decide (col < length r)).
  - left. by rewrite list_lookup_insert_eq.
  - right. rewrite list_insert_ge; [done | lia].
Qed.

Lemma countNonZero_setCell_le board row col v :
  v ≠ 0 → countNonZero board ≤ countNonZero (setCell board row col v).
Proof.
  intros Hv. unfold countNonZero. apply filter_length_mono.
  intros [r c] _ Hnz. destruct (decide ((row, col) = (r, c))) as [[= <- <-] | Hne].
  - destruct (cell_setCell_cases board row col v) as [-> | ->]; done.
  - by rewrite cell_setCell_ne.
Qed.

(** C1: for every stream of random draws the board that
    [generateSolvedBoard] returns is a solved grid: every row, every
    column and every box is a permutation of 1 to 9, so no cell is 0.
    The search ends: with the depth bound [solveDepth], and with every
    larger one, [solveBoard] answers [true] on the seeded board and leaves
    this grid. *)
Theorem generateSolvedBoard_fills rnd k :
  solvedGrid (generateSolvedBoard rnd k).1
  ∧ ∀ fuel, solveDepth ≤ fuel →
      solveBoard fuel (fillDiagonalBoxes emptyBoard rnd k).1
      = Some (true, (generateSolvedBoard rnd k).1).
Proof.
  destruct (generateSolvedBoard_solved rnd k) as (board' & Hsolve & -> & Hsolved).
  split; [done|]. intros fuel Hfuel. by apply (solveBoard_mono solveDepth).
Qed.

(** C10: a hint either leaves the session as it is, or it writes a number
    from 1 to 9 into a cell of the board, never 0; the number of cells
    that are not 0 does not go down. *)
Theorem showHint_writes_digit rnd s :
  (showHint rnd s = s
   ∨ ∃ row col v, row < 9 ∧ col < 9 ∧ 1 ≤ v ≤ 9
       ∧ showHint rnd s = commitBoard (setCell (gameBoard s) row col v) s)
  ∧ countNonZero (gameBoard s) ≤ countNonZero (gameBoard (showHint rnd s)).
Proof.
  unfold showHint. destruct (gameStarted s); [|by split; [left|]]. cbn [negb].
  destruct (generateSolvedBoard_solved rnd 0) as (solved & _ & Hgen & Hsolved).
  destruct (generateSolvedBoard rnd 0) as [solvedBoard k]. cbn [fst] in Hgen. subst.
  set (cells := emptyOrIncorrect (gameBoard s) solved).
  destruct (0 <? length cells) eqn:Hlen; [|by split; [left|]].
  apply Nat.ltb_lt in Hlen.
  set (i := randomBelow (length cells) (rnd k)).
  assert (Hi : i < length cells).
  { unfold i, randomBelow. apply Nat.mod_upper_bound. lia. }
  destruct (cells !!! i) as [row col] eqn:Hpick.
  assert (Hin : (row, col) ∈ range2 9 9).
  { rewrite <- Hpick.
    assert (Hc : cells !!! i ∈ cells) by by apply list_elem_of_lookup_total_2.
    unfold cells, emptyOrIncorrect in Hc.
    apply list_elem_of_In, filter_In in Hc as [Hc _]. by apply list_elem_of_In. }
  apply elem_of_range2 in Hin as [Hrow Hcol].
  pose proof (solvedGrid_entry solved row col Hsolved Hrow Hcol) as Hv.
  split.
  - right. exists row, col, (cell solved row col). done.
  - cbn [commitBoard gameBoard]. apply countNonZero_setCell_le. lia.
Qed.

Lemma elem_of_emptyOrIncorrect board solved row col :
  (row, col) ∈ emptyOrIncorrect board solved ↔
  row < 9 ∧ col < 9
  ∧ (cell board row col = 0 ∨ cell board row col ≠ cell solved row col).
Proof.
  unfold emptyOrIncorrect.
  rewrite elem_of_List_filter, elem_of_range2, orb_true_iff, negb_true_iff,
    Nat.eqb_eq, Nat.eqb_neq.
  tauto.
Qed.



(** ** The generator, function by function *)

Lemma find_first {A} (f : A → bool) (l : list A) x :
  List.find f l = Some x →
  ∃ i, l !! i = Some x ∧ f x = true
       ∧ ∀ j y, j < i → l !! j = Some y → f y = false.
Proof.
  induction l as [|a l IH]; [done|]. simpl.
  destruct (f a) eqn:Hfa.
  - intros [= ->]. exists 0. split_and!; [done..|]. intros j y Hj. lia.
  - intros (i & Hi & Hfx & Hbefore)%IH. exists (S i). split_and!; [done..|].
    intros [|j] y Hj Hy; simplify_eq/=; [done|]. apply (Hbefore j); [lia | done].
Qed.

Lemma range2_9_9_lookup r c :
  r < 9 → c < 9 → range2 9 9 !! (9 * r + c) = Some (r, c).
Proof.
  intros Hr Hc.
  do 9 (destruct r as [|r];
        [do 9 (destruct c as [|c]; [reflexivity|]); lia|]).
  lia.
Qed.

(** X1: [findEmptyCell] returns the first cell that holds 0, rows from the top
    and each row from the left; it returns nothing exactly on the boards
    that [isBoardFilled] accepts. *)
Theorem findEmptyCell_first board :
  match findEmptyCell board with
  | Some (r, c) =>
      r < 9 ∧ c < 9 ∧ cell board r c = 0 ∧ isBoardFilled board = false
      ∧ ∀ r' c', r' < 9 → c' < 9 → 9 * r' + c' < 9 * r + c →
                 cell board r' c' ≠ 0
  | None => isBoardFilled board = true
  end.
Proof.
  destruct (findEmptyCell board) as [[r c]|] eqn:Hfind.
  - pose proof (findEmptyCell_Some board r c Hfind) as (Hr & Hc & Hz).
    split_and!; [done..| |].
    + apply not_true_is_false. unfold isBoardFilled. rewrite forallb_spec.
      intros Hall. specialize (Hall (r, c)). cbv beta iota in Hall.
      rewrite Hz in Hall. discriminate Hall. by apply elem_of_range2.
    + unfold findEmptyCell in Hfind.
      apply find_first in Hfind as (i & Hi & _ & Hbefore).
      assert (i = 9 * r + c) as ->.
      { apply (NoDup_lookup (range2 9 9) _ _ (r, c)); [|done|].
        - apply NoDup_range2_9_9.
        - by apply range2_9_9_lookup. }
      intros r' c' Hr' Hc' Hlt.
      specialize (Hbefore _ _ Hlt (range2_9_9_lookup r' c' Hr' Hc')).
      by apply Nat.eqb_neq in Hbefore.
  - apply findEmptyCell_None in Hfind. unfold isBoardFilled.
    apply forallb_spec. intros [r c] [Hr Hc]%elem_of_range2.
    apply negb_true_iff, Nat.eqb_neq. by apply Hfind.
Qed.

Lemma shuffle_draws i rnd k nums : (shuffle i rnd k nums).2 = k + i.
Proof.
  revert k nums. induction i as [|i IH]; intros k nums; cbn [shuffle snd]; [lia|].
  rewrite IH. lia.
Qed.

Lemma shuffle_ext i rnd rnd' k nums :
  (∀ n, k ≤ n < k + i → rnd n = rnd' n) →
  shuffle i rnd k nums = shuffle i rnd' k nums.
Proof.
  revert k nums. induction i as [|i IH]; intros k nums Heq; [done|].
  cbn [shuffle]. rewrite <- (Heq k) by lia. apply IH.
  intros n Hn. apply Heq. lia.
Qed.

(** Writing [nums] from index [idx] on into the cells of a list. *)
Lemma foldl_setCell_spec (cells : list Cell) (nums : list nat) :
  ∀ board idx,
    wfBoard board → NoDup cells → Forall (λ p, p.1 < 9 ∧ p.2 < 9) cells →
    let board' := (foldl (λ '(b, n) '(r, c), (setCell b r c (nums !!! n), S n))
                         (board, idx) cells).1 in
    wfBoard board'
    ∧ (∀ i p, cells !! i = Some p → cell board' p.1 p.2 = nums !!! (idx + i))
    ∧ ∀ r c, (r, c) ∉ cells → cell board' r c = cell board r c.
Proof.
  induction cells as [|[r0 c0] cells IH]; intros board idx Hwf Hnd Hin; cbn zeta.
  { split_and!; [done | intros i p Hi; by rewrite lookup_nil in Hi | done]. }
  apply NoDup_cons in Hnd as [Hnotin Hnd].
  apply Forall_cons in Hin as [[Hr0 Hc0] Hin]. cbn [fst snd] in Hr0, Hc0.
  cbn [foldl].
  destruct (IH (setCell board r0 c0 (nums !!! idx)) (S idx)) as (Hwf' & Hat & Hout);
    [by apply wfBoard_setCell | done | done |].
  split_and!; [done | |].
  - intros [|i] p Hi; simplify_eq/=.
    + rewrite Hout by done. rewrite cell_setCell_eq by done. f_equal. lia.
    + rewrite (Hat i p Hi). f_equal. lia.
  - intros r c Hnot. rewrite not_elem_of_cons in Hnot. destruct Hnot as [Hne Hnot].
    rewrite Hout by done. by rewrite cell_setCell_ne.
Qed.

Lemma writeBox_boxCells board rowStart colStart (nums : list nat) :
  writeBox board rowStart colStart nums
  = (foldl (λ '(b, n) '(r, c), (setCell b r c (nums !!! n), S n))
           (board, 0) (boxCells rowStart colStart)).1.
Proof. reflexivity. Qed.

Lemma NoDup_boxCells rowStart colStart : NoDup (boxCells rowStart colStart).
Proof.
  unfold boxCells. apply NoDup_fmap_2_strong.
  - intros [i j] [i' j'] _ _ [= ? ?]. f_equal; lia.
  - apply (bool_decide_unpack _). by vm_compute.
Qed.

Lemma values_writeBox board rowStart colStart (nums : list nat) :
  wfBoard board → rowStart + 3 ≤ 9 → colStart + 3 ≤ 9 → length nums = 9 →
  wfBoard (writeBox board rowStart colStart nums)
  ∧ values (writeBox board rowStart colStart nums) (boxCells rowStart colStart) = nums
  ∧ ∀ r c, (r, c) ∉ boxCells rowStart colStart →
           cell (writeBox board rowStart colStart nums) r c = cell board r c.
Proof.
  intros Hwf Hrow Hcol Hlen. rewrite writeBox_boxCells.
  destruct (foldl_setCell_spec (boxCells rowStart colStart) nums board 0)
    as (Hwf' & Hat & Hout); [done | apply NoDup_boxCells | |].
  { apply Forall_forall. intros p (i & j & Hi & Hj & ->)%elem_of_boxCells.
    cbn [fst snd]. lia. }
  split_and!; [done | | done].
  apply list_eq. intros i. unfold values. rewrite list_lookup_fmap.
  destruct (boxCells rowStart colStart !! i) as [[r c]|] eqn:Hi;
    cbn [fmap option_fmap option_map].
  - pose proof (Hat i (r, c) Hi) as Hcell. cbn [fst snd] in Hcell.
    rewrite Hcell. symmetry. apply list_lookup_lookup_total_lt.
    apply lookup_lt_Some in Hi. unfold boxCells in Hi.
    rewrite length_fmap in Hi. simpl in Hi. lia.
  - symmetry. apply lookup_ge_None. apply lookup_ge_None in Hi.
    unfold boxCells in Hi. rewrite length_fmap in Hi. simpl in Hi. lia.
Qed.

(** X2: [fillBox] takes eight draws, writes each of 1 to 9 once into the box
    and leaves every cell outside the box as it was. *)
Theorem fillBox_spec board rowStart colStart rnd k :
  wfBoard board → rowStart + 3 ≤ 9 → colStart + 3 ≤ 9 →
  (fillBox board rowStart colStart rnd k).2 = k + 8
  ∧ wfBoard (fillBox board rowStart colStart rnd k).1
  ∧ values (fillBox board rowStart colStart rnd k).1 (boxCells rowStart colStart)
    ≡ₚ seq 1 9
  ∧ ∀ r c, (r, c) ∉ boxCells rowStart colStart →
           cell (fillBox board rowStart colStart rnd k).1 r c = cell board r c.
Proof.
  intros Hwf Hrow Hcol. rewrite fillBox_writeBox. cbn [fst snd].
  rewrite shuffle_draws. split; [done|].
  set (nums := (shuffle 8 rnd k _).1).
  assert (Hperm : nums ≡ₚ seq 1 9) by (apply shuffle_perm; simpl; lia).
  destruct (values_writeBox board rowStart colStart nums) as (Hwf' & Hvalues & Hout);
    [done | done | done | by rewrite Hperm |].
  by rewrite Hvalues.
Qed.

Lemma fillBox_spec_witness :
  (fillBox emptyBoard 3 3 (λ _, 0) 0).2 = 0 + 8
  ∧ wfBoard (fillBox emptyBoard 3 3 (λ _, 0) 0).1
  ∧ values (fillBox emptyBoard 3 3 (λ _, 0) 0).1 (boxCells 3 3) ≡ₚ seq 1 9
  ∧ ∀ r c, (r, c) ∉ boxCells 3 3 →
           cell (fillBox emptyBoard 3 3 (λ _, 0) 0).1 r c = cell emptyBoard r c.
Proof. apply fillBox_spec; [apply wfBoard_emptyBoard | lia | lia]. Defined.

(** ** Every arrangement can be drawn *)

Lemma swap_lookup nums i j x :
  i < length nums → nums !! j = Some x → swap nums i j !! i = Some x.
Proof.
  intros Hi Hj. unfold swap. rewrite (list_lookup_total_correct _ _ _ Hj).
  destruct (decide (j = i)) as [-> | Hne].
  - rewrite list_lookup_insert_eq by (by rewrite length_insert).
    f_equal. by apply list_lookup_total_correct.
  - rewrite list_lookup_insert_ne by done. by rewrite list_lookup_insert_eq.
Qed.

Lemma swap_drop nums i j : j ≤ i → drop (S i) (swap nums i j) = drop (S i) nums.
Proof. intros Hj. unfold swap. rewrite !drop_insert_lt by lia. done. Qed.

Lemma swap_take nums i j :
  i < length nums → j ≤ i → take (S i) (swap nums i j) ≡ₚ take (S i) nums.
Proof.
  intros Hi Hj. unfold swap. rewrite !take_insert_lt by lia.
  apply Permutation_insert_swap.
  - rewrite lookup_take_lt by lia. by apply list_lookup_lookup_total_lt.
  - rewrite lookup_take_lt by lia. apply list_lookup_lookup_total_lt. lia.
Qed.

(** The shuffle loop from index [i] down can leave any arrangement of the
    entries up to [i]. *)
Lemma shuffle_reaches i :
  ∀ k (nums target : list nat),
    i < length nums → length target = length nums →
    drop (S i) target = drop (S i) nums →
    take (S i) target ≡ₚ take (S i) nums →
    ∃ rnd, (shuffle i rnd k nums).1 = target.
Proof.
  induction i as [|i IH]; intros k nums target Hi Hlen Hdrop Htake.
  { exists (λ _, 0). cbn [shuffle fst].
    rewrite <- (take_drop 1 target), <- (take_drop 1 nums), Hdrop. f_equal.
    destruct target as [|t ts], nums as [|n ns]; simplify_eq/=; try lia.
    by apply Permutation_singleton_inj in Htake as ->. }
  destruct (lookup_lt_is_Some_2 target (S i)) as [x Hx]; [lia|].
  assert (Hin : x ∈ take (S (S i)) nums).
  { rewrite <- Htake. apply list_elem_of_lookup. exists (S i).
    by rewrite lookup_take_lt by lia. }
  apply list_elem_of_lookup in Hin as [j Hj].
  assert (Hjlt : j < S (S i)).
  { apply lookup_lt_Some in Hj. rewrite length_take in Hj. lia. }
  rewrite lookup_take_lt in Hj by done.
  set (nums' := swap nums (S i) j).
  assert (Hlen' : length nums' = length nums).
  { unfold nums', swap. by rewrite !length_insert. }
  assert (Hat : nums' !! S i = Some x) by by apply swap_lookup.
  destruct (IH (S k) nums' target) as [rnd' Hrnd'].
  - lia.
  - lia.
  - rewrite (drop_S target x (S i) Hx), (drop_S nums' x (S i) Hat).
    f_equal. unfold nums'. rewrite swap_drop by lia. done.
  - apply (Permutation_app_inv_r [x]).
    rewrite <- (take_S_r target (S i) x Hx), <- (take_S_r nums' (S i) x Hat).
    rewrite Htake. symmetry. apply swap_take; lia.
  - exists (λ n, if decide (n = k) then j else rnd' n).
    cbn [shuffle]. destruct (decide (k = k)) as [_|]; [|done].
    unfold randomBelow. rewrite (Nat.mod_small j) by lia. fold nums'.
    rewrite <- Hrnd'. f_equal. apply shuffle_ext.
    intros n Hn. destruct (decide (n = k)); [lia | done].
Qed.

(** X3: [fillBox] can fill a box in every way: for each arrangement of 1 to 9
    there are draws that make the box hold it, row by row. *)
Theorem fillBox_reaches board rowStart colStart k target :
  wfBoard board → rowStart + 3 ≤ 9 → colStart + 3 ≤ 9 → target ≡ₚ seq 1 9 →
  ∃ rnd, values (fillBox board rowStart colStart rnd k).1
                (boxCells rowStart colStart) = target.
Proof.
  intros Hwf Hrow Hcol Hperm.
  assert (Hlen : length target = 9) by by rewrite Hperm.
  destruct (shuffle_reaches 8 k [1; 2; 3; 4; 5; 6; 7; 8; 9] target) as [rnd Hrnd].
  - simpl. lia.
  - done.
  - rewrite !drop_ge by (simpl; lia). done.
  - rewrite !take_ge by (simpl; lia). done.
  - exists rnd. rewrite fillBox_writeBox. cbn [fst]. rewrite Hrnd.
    by apply values_writeBox.
Qed.

Lemma fillBox_reaches_witness :
  ∃ rnd, values (fillBox emptyBoard 0 0 rnd 0).1 (boxCells 0 0)
         = [9; 8; 7; 6; 5; 4; 3; 2; 1].
Proof.
  apply fillBox_reaches; [apply wfBoard_emptyBoard | lia | lia |].
  symmetry. apply (Permutation_rev (seq 1 9)).
Defined.

Lemma fillDiagonalBoxes_unfold board rnd k :
  fillDiagonalBoxes board rnd k
  = fillBox (fillBox (fillBox board 0 0 rnd k).1 3 3 rnd (k + 8)).1 6 6 rnd (k + 16).
Proof.
  unfold fillDiagonalBoxes. cbn [foldl].
  pose proof (fillBox_writeBox board 0 0 rnd k) as H1.
  destruct (fillBox board 0 0 rnd k) as [b1 k1].
  apply (f_equal snd) in H1. cbn [snd] in H1. rewrite shuffle_draws in H1. subst k1.
  pose proof (fillBox_writeBox b1 3 3 rnd (k + 8)) as H2. cbn [fst].
  destruct (fillBox b1 3 3 rnd (k + 8)) as [b2 k2].
  apply (f_equal snd) in H2. cbn [snd] in H2. rewrite shuffle_draws in H2. subst k2.
  cbn [fst]. f_equal. lia.
Qed.

Lemma fillBox_ext board rowStart colStart rnd rnd' k :
  (∀ n, k ≤ n < k + 8 → rnd n = rnd' n) →
  fillBox board rowStart colStart rnd k = fillBox board rowStart colStart rnd' k.
Proof. intros Heq. by rewrite !fillBox_writeBox, (shuffle_ext 8 rnd rnd'). Qed.

Lemma fillDiagonalBoxes_ext board rnd rnd' k :
  (∀ n, k ≤ n < k + 24 → rnd n = rnd' n) →
  fillDiagonalBoxes board rnd k = fillDiagonalBoxes board rnd' k.
Proof.
  intros Heq. rewrite !fillDiagonalBoxes_unfold.
  rewrite (fillBox_ext board 0 0 rnd rnd') by (intros n Hn; apply Heq; lia).
  rewrite (fillBox_ext _ 3 3 rnd rnd') by (intros n Hn; apply Heq; lia).
  rewrite (fillBox_ext _ 6 6 rnd rnd') by (intros n Hn; apply Heq; lia).
  done.
Qed.

Lemma fillDiagonalBoxes_draws board rnd k : (fillDiagonalBoxes board rnd k).2 = k + 24.
Proof.
  rewrite fillDiagonalBoxes_unfold, fillBox_writeBox. cbn [snd].
  rewrite shuffle_draws. lia.
Qed.

(** X4: [generateSolvedBoard] takes 24 draws, eight for each diagonal box, and
    its result depends on no other draw; the search draws nothing. *)
Theorem generateSolvedBoard_draws rnd k :
  (generateSolvedBoard rnd k).2 = k + 24
  ∧ ∀ rnd', (∀ n, k ≤ n < k + 24 → rnd n = rnd' n) →
            generateSolvedBoard rnd' k = generateSolvedBoard rnd k.
Proof.
  unfold generateSolvedBoard. split.
  - pose proof (fillDiagonalBoxes_draws emptyBoard rnd k) as Hk.
    destruct (fillDiagonalBoxes emptyBoard rnd k) as [board k']. cbn [snd] in Hk.
    by destruct (solveBoard solveDepth board) as [[? ?]|].
  - intros rnd' Heq. by rewrite (fillDiagonalBoxes_ext _ rnd rnd').
Qed.

(** ** The validity test *)

Lemma scanSeen_spec nums seen :
  scanSeen nums seen = true
  ↔ NoDup (filter (λ v, v ≠ 0) nums) ∧ ∀ v, v ∈ nums → v ≠ 0 → v ∉ seen.
Proof.
  revert seen. induction nums as [|num nums IH]; intros seen; simpl.
  { split; [|done]. intros _. split; [constructor|].
    intros v Hv. by apply elem_of_nil in Hv. }
  destruct (num =? 0) eqn:Hz.
  - apply Nat.eqb_eq in Hz as ->. rewrite filter_cons_False by (intros H; by apply H).
    rewrite IH. split; intros [Hnd Hall]; (split; [done|]).
    + intros v [->|Hv]%elem_of_cons; [done | by apply Hall].
    + intros v Hv. apply Hall. by right.
  - apply Nat.eqb_neq in Hz. rewrite filter_cons_True by done.
    destruct (decide (num ∈ seen)) as [Hin | Hnotin].
    + split; [done|]. intros [_ Hall]. destruct (Hall num); [left | done..].
    + rewrite IH, NoDup_cons, list_elem_of_filter. split.
      * intros [Hnd Hall]. split_and!; [|done|].
        -- intros [_ Hnum]. apply (Hall num Hnum Hz).
           apply elem_of_union. left. by apply elem_of_singleton.
        -- intros v [->|Hv]%elem_of_cons Hvz; [done|].
           intros Hs. apply (Hall v Hv Hvz), elem_of_union. by right.
      * intros [[Hnum Hnd] Hall]. split; [done|]. intros v Hv Hvz.
        assert (v ≠ num) by (intros ->; apply Hnum; done).
        assert (v ∉ seen) by (apply Hall; [by right | done]).
        by intros [Hs%elem_of_singleton | Hs]%elem_of_union.
Qed.

Lemma isBoardValid_units board :
  isBoardValid board = true
  ↔ ∀ u, u ∈ units → scanSeen (values board u) ∅ = true.
Proof.
  unfold isBoardValid. rewrite !andb_true_iff, !forallb_spec.
  setoid_rewrite elem_of_units. split.
  - intros [[Hrows Hcols] Hboxes] u [(r & Hr & ->) | [(c & Hc & ->) | (corner & Hin & ->)]].
    + apply Hrows. by apply elem_of_range.
    + apply Hcols. by apply elem_of_range.
    + destruct corner as [br bc]. by apply (Hboxes (br, bc)).
  - intros Hall. split_and!.
    + intros r Hr%elem_of_range. apply Hall. left. eauto.
    + intros c Hc%elem_of_range. apply Hall. right. left. eauto.
    + intros [br bc] Hin. apply Hall. right. right. by exists (br, bc).
Qed.

Lemma NoDup_filter_lookup {A} (P : A → Prop) `{!∀ x, Decision (P x)} (l : list A) i j x :
  NoDup (filter P l) → l !! i = Some x → l !! j = Some x → P x → i = j.
Proof.
  revert i j. induction l as [|a l IH]; intros i j Hnd Hi Hj HP; [done|].
  rewrite filter_cons in Hnd. destruct (decide (P a)) as [Ha | Ha].
  - apply NoDup_cons in Hnd as [Hnotin Hnd].
    destruct i as [|i], j as [|j]; simplify_eq/=; [done | | |f_equal; eauto].
    + destruct Hnotin. apply list_elem_of_filter. split; [done|].
      by eapply list_elem_of_lookup_2.
    + destruct Hnotin. apply list_elem_of_filter. split; [done|].
      by eapply list_elem_of_lookup_2.
  - destruct i as [|i], j as [|j]; simplify_eq/=; [done..|f_equal; eauto].
Qed.

Lemma NoDup_filter_fmap {A B} (f : A → B) (P : B → Prop) `{!∀ y, Decision (P y)}
    (l : list A) :
  NoDup l → (∀ x y, x ∈ l → y ∈ l → x ≠ y → P (f x) → f x ≠ f y) →
  NoDup (filter P (f <$> l)).
Proof.
  induction l as [|a l IH]; intros Hnd Hinj; [constructor|].
  apply NoDup_cons in Hnd as [Hnotin Hnd]. rewrite fmap_cons, filter_cons.
  assert (Hrest : NoDup (filter P (f <$> l))).
  { apply IH; [done|]. intros x y Hx Hy. apply Hinj; by right. }
  destruct (decide (P (f a))) as [Ha | Ha]; [|done].
  apply NoDup_cons. split; [|done].
  intros [_ (y & Heq & Hy)%list_elem_of_fmap]%list_elem_of_filter.
  apply (Hinj a y); [left | by right | | done..].
  intros ->. done.
Qed.

Lemma scanSeen_distinct board u :
  u ∈ units →
  scanSeen (values board u) ∅ = true
  ↔ ∀ p q, p ∈ u → q ∈ u → p ≠ q →
           cellAt board p ≠ 0 → cellAt board p ≠ cellAt board q.
Proof.
  intros Hu. rewrite scanSeen_spec. split.
  - intros [Hnd _] p q Hp Hq Hne Hnz Heq.
    apply list_elem_of_lookup in Hp as [i Hi], Hq as [j Hj].
    apply Hne. assert (i = j) as ->; [|congruence].
    apply (NoDup_filter_lookup _ _ i j (cellAt board p) Hnd); [| |done];
      unfold values; rewrite list_lookup_fmap.
    + rewrite Hi. by destruct p.
    + rewrite Hj. simpl. rewrite Heq. by destruct q.
  - intros Hdist. split; [|intros v _ _; apply not_elem_of_empty].
    destruct (units_shape u Hu) as [Hnd _].
    apply NoDup_filter_fmap; [done|].
    intros [r c] [r' c'] Hp Hq Hne Hnz. by apply (Hdist (r, c) (r', c')).
Qed.

(** X5: [isBoardValid] accepts a board exactly when no two different cells of
    a row, a column or a box hold the same number, zero aside. *)
Theorem isBoardValid_spec board :
  isBoardValid board = true
  ↔ ∀ u p q, u ∈ units → p ∈ u → q ∈ u → p ≠ q →
             cellAt board p ≠ 0 → cellAt board p ≠ cellAt board q.
Proof.
  rewrite isBoardValid_units. split.
  - intros Hall u p q Hu.
    by apply (proj1 (scanSeen_distinct board u Hu) (Hall u Hu)).
  - intros Hdist u Hu. apply scanSeen_distinct; [done|].
    intros p q. by apply Hdist.
Qed.

Lemma isBoardFilled_filled board : isBoardFilled board = true ↔ filled board.
Proof.
  unfold isBoardFilled, filled. rewrite forallb_spec. split.
  - intros Hall r c Hr Hc. specialize (Hall (r, c)). cbv beta iota in Hall.
    apply Nat.eqb_neq, negb_true_iff, Hall. by apply elem_of_range2.
  - intros Hall [r c] [Hr Hc]%elem_of_range2.
    apply negb_true_iff, Nat.eqb_neq. by apply Hall.
Qed.

Lemma partialGrid_valid board :
  partialGrid board
  ↔ wfBoard board ∧ (∀ r c, r < 9 → c < 9 → cell board r c ≤ 9)
    ∧ isBoardValid board = true.
Proof.
  unfold partialGrid. rewrite isBoardValid_units. split.
  - intros (Hwf & Hle & Hcons). split_and!; [done..|].
    intros u Hu. apply scanSeen_distinct; [done|].
    intros [r c] [r' c'] Hp Hq Hne.
    destruct (units_inUnit u _ _ Hu Hp Hq) as (? & ? & ? & ? & ?).
    by apply Hcons.
  - intros (Hwf & Hle & Hall). split_and!; [done..|].
    intros r c r' c' Hr Hc Hr' Hc' Hne Hin.
    destruct (inUnit_units r c r' c' Hr Hc Hin) as (u & Hu & Hp & Hq).
    by apply (proj1 (scanSeen_distinct board u Hu) (Hall u Hu) (r, c) (r', c')).
Qed.

(** X6: the test behind [setCompleted(true)]: on a 9x9 board with entries up
    to 9, [isBoardFilled] and [isBoardValid] both hold exactly for the
    solved grids. *)
Theorem completion_test_spec board :
  wfBoard board → (∀ r c, r < 9 → c < 9 → cell board r c ≤ 9) →
  isBoardFilled board && isBoardValid board = true ↔ solvedGrid board.
Proof.
  intros Hwf Hle. rewrite andb_true_iff, isBoardFilled_filled. split.
  - intros [Hfilled Hvalid]. apply partialGrid_filled; [|done].
    by apply partialGrid_valid.
  - intros Hsolved. split.
    + intros r c Hr Hc. pose proof (solvedGrid_entry board r c Hsolved Hr Hc). lia.
    + apply isBoardValid_units. intros u Hu. apply scanSeen_distinct; [done|].
      intros [r c] [r' c'] Hp Hq Hne _.
      destruct (units_inUnit u _ _ Hu Hp Hq) as (? & ? & ? & ? & ?).
      by apply solved_distinct.
Qed.

Lemma completion_test_spec_witness :
  isBoardFilled sampleSolved && isBoardValid sampleSolved = true
  ↔ solvedGrid sampleSolved.
Proof.
  apply completion_test_spec.
  - apply solvedGrid_sampleSolved.
  - intros r c Hr Hc. pose proof (solvedGrid_entry _ r c solvedGrid_sampleSolved Hr Hc). lia.
Defined.

(** ** The search on any board *)

Lemma extends_refl board : extends board board.
Proof. by intros r c _ _ _. Qed.

Lemma extends_after_place board board' row col num :
  cell board row col = 0 →
  extends (setCell board row col num) board' → extends board board'.
Proof.
  intros Hz Hext r c Hr Hc Hnz.
  destruct (decide ((row, col) = (r, c))) as [[= <- <-] | Hne]; [done|].
  rewrite <- (cell_setCell_ne board row col num r c Hne) in Hnz |- *.
  by apply Hext.
Qed.

Section SearchShape.
Variable solve : Board → option (bool * Board).
Hypothesis solve_shape : ∀ board ok board',
  wfBoard board → solve board = Some (ok, board') →
  wfBoard board' ∧ if ok then extends board board' ∧ filled board' else board' = board.

Lemma tryNums_shape row col nums board ok board' :
  wfBoard board → row < 9 → col < 9 → cell board row col = 0 →
  tryNums solve row col nums board = Some (ok, board') →
  wfBoard board' ∧ if ok then extends board board' ∧ filled board' else board' = board.
Proof.
  intros Hwf Hrow Hcol Hz. induction nums as [|num nums IH]; cbn [tryNums].
  { by intros [= <- <-]. }
  destruct (isValidPlacement board row col num); [|done].
  destruct (solve (setCell board row col num)) as [[ok1 b1]|] eqn:Hsolve; [|done].
  apply solve_shape in Hsolve as [Hwf1 Hpost]; [|by apply wfBoard_setCell].
  destruct ok1.
  - intros [= <- <-]. split; [done|]. destruct Hpost as [Hext Hfilled].
    split; [|done]. by eapply extends_after_place.
  - subst b1. by rewrite setCell_restore.
Qed.

End SearchShape.

(** Whatever the board: an answer [true] comes with a board without
    empty cells that keeps every entry of the input, an answer [false]
    with the input board itself. *)
Lemma solveBoard_shape fuel board ok board' :
  wfBoard board → solveBoard fuel board = Some (ok, board') →
  wfBoard board' ∧ if ok then extends board board' ∧ filled board' else board' = board.
Proof.
  revert board ok board'. induction fuel as [|fuel IH]; intros board ok board' Hwf; [done|].
  cbn [solveBoard]. destruct (findEmptyCell board) as [[row col]|] eqn:Hfind.
  - apply findEmptyCell_Some in Hfind as (Hrow & Hcol & Hz).
    by apply tryNums_shape.
  - intros [= <- <-]. split; [done|]. split; [apply extends_refl|].
    by apply findEmptyCell_None.
Qed.

(** X7: [solveBoard] decides whether a board can be completed.  On a 9x9
    board with entries up to 9 that [isBoardValid] accepts, and with a
    depth bound above the number of empty cells, it either answers [true]
    and leaves a solved grid that keeps the entries of the input, or it
    answers [false], leaves the board as it was, and no solved grid keeps
    the entries of the input. *)
Theorem solveBoard_decides fuel board :
  wfBoard board → (∀ r c, r < 9 → c < 9 → cell board r c ≤ 9) →
  isBoardValid board = true → 81 - countNonZero board < fuel →
  (∃ board', solveBoard fuel board = Some (true, board')
             ∧ solvedGrid board' ∧ extends board board')
  ∨ (solveBoard fuel board = Some (false, board)
     ∧ ∀ full, solvedGrid full → ¬ extends board full).
Proof.
  intros Hwf Hle Hvalid Hfuel.
  assert (Hpart : partialGrid board) by by apply partialGrid_valid.
  destruct (solveBoard_spec fuel board Hpart Hfuel) as (ok & board' & Hsolve & Hpost).
  destruct (solveBoard_shape fuel board ok board' Hwf Hsolve) as [_ Hshape].
  destruct ok.
  - left. exists board'. destruct Hpost, Hshape. split_and!; [done| |done].
    by apply partialGrid_filled.
  - right. destruct Hpost as [-> Hnone]. done.
Qed.

Lemma solveBoard_decides_witness :
  (∃ board', solveBoard 81 cornerFive = Some (true, board')
             ∧ solvedGrid board' ∧ extends cornerFive board')
  ∨ (solveBoard 81 cornerFive = Some (false, cornerFive)
     ∧ ∀ full, solvedGrid full → ¬ extends cornerFive full).
Proof.
  apply solveBoard_decides.
  - apply wfBoard_setCell, wfBoard_emptyBoard.
  - intros r c Hr Hc.
    assert (Hall : forallb (λ '(r, c), cell cornerFive r c <=? 9) (range2 9 9) = true)
      by by vm_compute.
    rewrite forallb_spec in Hall.
    apply Nat.leb_le, (Hall (r, c)). by apply elem_of_range2.
  - by vm_compute.
  - assert (countNonZero cornerFive = 1) as -> by by vm_compute. lia.
Defined.

(** X8: the search leaves the seeded boxes alone: the grid that
    [generateSolvedBoard] returns has every number that
    [fillDiagonalBoxes] wrote. *)
Theorem generateSolvedBoard_keeps_seed rnd k :
  extends (fillDiagonalBoxes emptyBoard rnd k).1 (generateSolvedBoard rnd k).1.
Proof.
  destruct (fillDiagonalBoxes_seed rnd k) as (la & lb & lc & k' & Hseed & _).
  unfold generateSolvedBoard. rewrite Hseed. cbn [fst].
  destruct (solveBoard solveDepth (seedBoard la lb lc)) as [[ok board']|] eqn:Hsolve;
    [|apply extends_refl].
  apply solveBoard_shape in Hsolve as [_ Hshape]; [|apply wfBoard_seedBoard].
  destruct ok; [apply Hshape|]. rewrite Hshape. apply extends_refl.
Qed.

(** ** Highlighted cells are in conflict *)

Section ScanSound.
Context {K : Type} (pos : K → Cell).
Implicit Types (items : list (K * nat)) (seen : gmap nat K).

(** A pushed cell holds a number, not 0, that comes twice in the group:
    at two places of the scanned list, or once in the list and before
    that in the map. *)
Lemma scanInvalid_sound items seen p :
  p ∈ scanInvalid pos items seen [] →
  ∃ k1 k2 num, num ≠ 0 ∧ (p = pos k1 ∨ p = pos k2)
    ∧ ((∃ i j, i < j ∧ items !! i = Some (k1, num) ∧ items !! j = Some (k2, num))
       ∨ (seen !! num = Some k1 ∧ (k2, num) ∈ items)).
Proof.
  revert seen. induction items as [|[k num] items IH]; intros seen; simpl.
  { intros Hin. by apply elem_of_nil in Hin. }
  assert (Hshift : ∀ seen',
    (∀ num' k1, seen' !! num' = Some k1 →
                seen !! num' = Some k1 ∨ (num' = num ∧ k1 = k ∧ num ≠ 0)) →
    p ∈ scanInvalid pos items seen' [] →
    ∃ k1 k2 num', num' ≠ 0 ∧ (p = pos k1 ∨ p = pos k2)
      ∧ ((∃ i j, i < j ∧ ((k, num) :: items) !! i = Some (k1, num')
                 ∧ ((k, num) :: items) !! j = Some (k2, num'))
         ∨ (seen !! num' = Some k1 ∧ (k2, num') ∈ (k, num) :: items))).
  { intros seen' Hseen' (k1 & k2 & num' & Hnz & Hp & Hcase)%IH.
    exists k1, k2, num'. split_and!; [done..|].
    destruct Hcase as [(i & j & Hij & Hi & Hj) | [Hs Hin]].
    - left. exists (S i), (S j). split_and!; [lia | done..].
    - destruct (Hseen' _ _ Hs) as [Hold | (-> & -> & _)].
      + right. split; [done | by right].
      + left. apply list_elem_of_lookup in Hin as [j Hj].
        exists 0, (S j). split_and!; [lia | done..]. }
  destruct (num =? 0) eqn:Hz.
  { apply Hshift. intros num' k1 Hs. by left. }
  apply Nat.eqb_neq in Hz.
  assert (Hins : ∀ num' k1, <[num:=k]> seen !! num' = Some k1 →
                 seen !! num' = Some k1 ∨ (num' = num ∧ k1 = k ∧ num ≠ 0)).
  { intros num' k1. destruct (decide (num = num')) as [<- | Hne].
    - rewrite lookup_insert_eq. intros [= <-]. by right.
    - rewrite lookup_insert_ne by done. by left. }
  destruct (seen !! num) as [prev|] eqn:Hprev; [|by apply (Hshift _ Hins)].
  rewrite scanInvalid_app.
  intros [Hpush | Hrest]%elem_of_app; [|by apply (Hshift _ Hins)].
  exists prev, k, num. split; [done|]. split.
  - rewrite !elem_of_cons in Hpush. destruct Hpush as [-> | [-> | Hnil]]; auto.
    by apply elem_of_nil in Hnil.
  - right. split; [done | left].
Qed.

Lemma scanInvalid_sound_empty items p :
  p ∈ scanInvalid pos items ∅ [] →
  ∃ i j k1 k2 num, i ≠ j ∧ num ≠ 0 ∧ p = pos k1
    ∧ items !! i = Some (k1, num) ∧ items !! j = Some (k2, num).
Proof.
  intros (k1 & k2 & num & Hnz & Hp & [(i & j & Hij & Hi & Hj) | [Hs _]])%scanInvalid_sound;
    [|by rewrite lookup_empty in Hs].
  destruct Hp as [-> | ->].
  - exists i, j, k1, k2, num. split_and!; [lia | done..].
  - exists j, i, k2, k1, num. split_and!; [lia | done..].
Qed.
End ScanSound.

Lemma range_lookup n i x : range n !! i = Some x → x = i ∧ i < n.
Proof.
  unfold range. intros [-> ?]%lookup_seq. done.
Qed.

Lemma range2_3_3_lookup i p :
  range2 3 3 !! i = Some p → p.1 < 3 ∧ p.2 < 3 ∧ i = 3 * p.1 + p.2.
Proof.
  intros Hi. assert (Hlt : i < 9) by (apply lookup_lt_Some in Hi; simpl in Hi; lia).
  do 9 (destruct i as [|i]; [simpl in Hi; simplify_eq; simpl; lia|]). lia.
Qed.

(** X9: every cell that [highlightInvalidCells] lists holds a number, not 0,
    that another cell of its row, its column or its box holds too. *)
Theorem highlightInvalidCells_sound board p :
  p ∈ highlightInvalidCells board →
  ∃ u q, u ∈ units ∧ p ∈ u ∧ q ∈ u ∧ p ≠ q
         ∧ cellAt board p ≠ 0 ∧ cellAt board p = cellAt board q.
Proof.
  rewrite highlightInvalidCells_groups, !elem_of_app, !list_elem_of_bind.
  unfold cellAt.
  intros [(row & Hp & Hrow%elem_of_range) | [(col & Hp & Hcol%elem_of_range)
         | ([boxRow boxCol] & Hp & Hcorner)]].
  - apply scanInvalid_sound_empty in Hp as (i & j & k1 & k2 & num & Hij & Hnz & -> & Hi & Hj).
    rewrite list_lookup_fmap in Hi, Hj.
    destruct (range 9 !! i) as [x|] eqn:Ei; [|done].
    destruct (range 9 !! j) as [y|] eqn:Ej; [|done].
    apply range_lookup in Ei as [Ex ?], Ej as [Ey ?]. subst x y.
    cbn [fmap option_fmap option_map] in Hi, Hj.
    injection Hi as <- Hi. injection Hj as <- Hj. subst num.
    exists (rowCells row), (row, j). split_and!; [| | |congruence|done..].
    + apply elem_of_units. left. eauto.
    + apply elem_of_rowCells. eauto.
    + apply elem_of_rowCells. eauto.
  - apply scanInvalid_sound_empty in Hp as (i & j & k1 & k2 & num & Hij & Hnz & -> & Hi & Hj).
    rewrite list_lookup_fmap in Hi, Hj.
    destruct (range 9 !! i) as [x|] eqn:Ei; [|done].
    destruct (range 9 !! j) as [y|] eqn:Ej; [|done].
    apply range_lookup in Ei as [Ex ?], Ej as [Ey ?]. subst x y.
    cbn [fmap option_fmap option_map] in Hi, Hj.
    injection Hi as <- Hi. injection Hj as <- Hj. subst num.
    exists (colCells col), (j, col). split_and!; [| | |congruence|done..].
    + apply elem_of_units. right. left. eauto.
    + apply elem_of_colCells. eauto.
    + apply elem_of_colCells. eauto.
  - unfold scanBox in Hp.
    apply scanInvalid_sound_empty in Hp as (i & j & k1 & k2 & num & Hij & Hnz & -> & Hi & Hj).
    rewrite list_lookup_fmap in Hi, Hj.
    destruct (range2 3 3 !! i) as [[a1 b1]|] eqn:Ei; [|done].
    destruct (range2 3 3 !! j) as [[a2 b2]|] eqn:Ej; [|done].
    apply range2_3_3_lookup in Ei as (? & ? & ?), Ej as (? & ? & ?).
    cbn [fst snd] in *.
    cbn [fmap option_fmap option_map] in Hi, Hj.
    injection Hi as <- Hi. injection Hj as <- Hj.
    exists (boxCells boxRow boxCol), (boxRow + a2, boxCol + b2).
    split_and!.
    + apply elem_of_units. right. right. by exists (boxRow, boxCol).
    + apply elem_of_boxCells. by exists a1, b1.
    + apply elem_of_boxCells. by exists a2, b2.
    + intros [= ? ?]. lia.
    + cbn [fst snd]. by rewrite Hi.
    + cbn [fst snd]. by rewrite Hi, Hj.
Qed.

Lemma highlightInvalidCells_sound_witness :
  ∃ u q, u ∈ units ∧ (0, 0) ∈ u ∧ q ∈ u ∧ (0, 0) ≠ q
         ∧ cellAt twoSevens (0, 0) ≠ 0 ∧ cellAt twoSevens (0, 0) = cellAt twoSevens q.
Proof.
  apply highlightInvalidCells_sound.
  assert (highlightInvalidCells twoSevens = [(0, 3); (0, 0)]) as -> by by vm_compute.
  by right; left.
Defined.

(** ** The shaded cells *)

Lemma isRelatedToSelected_inUnit s selRow selCol row col :
  selectedCell s = Some (selRow, selCol) → row < 9 → col < 9 →
  isRelatedToSelected s row col = true ↔ inUnit selRow selCol row col.
Proof.
  intros Hsel Hrow Hcol. unfold isRelatedToSelected, inUnit. rewrite Hsel.
  destruct (row =? selRow) eqn:Hr.
  { apply Nat.eqb_eq in Hr. split; [|done]. intros _. left. lia. }
  destruct (col =? selCol) eqn:Hc.
  { apply Nat.eqb_eq in Hc. split; [|done]. intros _. right. left. lia. }
  apply Nat.eqb_neq in Hr, Hc. rewrite andb_true_iff, !Nat.eqb_eq. lia.
Qed.

(** X10: the cells shaded for the selected cell ([isRelatedToSelected], the
    selected cell among them) are the cells [isValidPlacement] reads: a
    number passes the test at the selected cell exactly when no shaded
    cell holds it. *)
Theorem isRelatedToSelected_placement s selRow selCol num :
  selectedCell s = Some (selRow, selCol) → selRow < 9 → selCol < 9 →
  isValidPlacement (gameBoard s) selRow selCol num = true
  ↔ ∀ row col, row < 9 → col < 9 → isRelatedToSelected s row col = true →
               cell (gameBoard s) row col ≠ num.
Proof.
  intros Hsel Hr Hc. rewrite isValidPlacement_unit. split.
  - intros Hall row col Hrow Hcol Hrel. apply Hall.
    by apply (isRelatedToSelected_inUnit s).
  - intros Hall row col Hin.
    destruct (inUnit_bound selRow selCol row col Hr Hc Hin) as [Hrow Hcol].
    apply Hall; [done..|]. by apply (isRelatedToSelected_inUnit s selRow selCol).
Qed.

Lemma isRelatedToSelected_placement_witness :
  isValidPlacement (gameBoard wonSession) 4 3 5 = true
  ↔ ∀ row col, row < 9 → col < 9 → isRelatedToSelected wonSession row col = true →
               cell (gameBoard wonSession) row col ≠ 5.
Proof. apply isRelatedToSelected_placement; [by vm_compute | lia | lia]. Defined.

(** ** Invariants of the session *)

Lemma highlightInvalidCells_valid board :
  (∀ u, u ∈ units → scanSeen (values board u) ∅ = true) →
  highlightInvalidCells board = [].
Proof.
  intros Hall.
  rewrite highlightInvalidCells_groups, !app_nil, !bind_nil_iff. split_and!.
  - intros r Hr%elem_of_range. apply scanRow_nil, Hall, elem_of_units. left. eauto.
  - intros c Hc%elem_of_range. apply scanCol_nil, Hall, elem_of_units. right. left. eauto.
  - intros [br bc] Hin. apply scanBox_nil, Hall, elem_of_units. right. right.
    by exists (br, bc).
Qed.

Lemma cell_setCell_le board row col v :
  (∀ r c, r < 9 → c < 9 → cell board r c ≤ 9) → v ≤ 9 →
  ∀ r c, r < 9 → c < 9 → cell (setCell board row col v) r c ≤ 9.
Proof.
  intros Hle Hv r c Hr Hc.
  destruct (decide ((row, col) = (r, c))) as [[= <- <-] | Hne].
  - destruct (cell_setCell_cases board row col v) as [-> | ->]; auto.
  - rewrite cell_setCell_ne by done. auto.
Qed.

Lemma sessionInv_initial : sessionInv initialSession.
Proof. by split_and!. Qed.

(** What [startNewGame] sets up. *)
Lemma startNewGame_boards fuel rnd s s' :
  startNewGame fuel rnd s = Some s' →
  gameBoard s' = originalBoard s' ∧ wfBoard (gameBoard s')
  ∧ extends (gameBoard s') (generateSolvedBoard rnd 0).1
  ∧ countNonZero (gameBoard s') = 81 - cellsToRemove (difficulty s)
  ∧ selectedCell s' = None ∧ completed s' = false ∧ gameStarted s' = true
  ∧ timerRunning s' = true ∧ invalidCells s' = [] ∧ difficulty s' = difficulty s
  ∧ timer s' = 0.
Proof.
  unfold startNewGame, createPlayableBoard.
  destruct (generateSolvedBoard_solved rnd 0) as (solved & _ & Hgen & Hsolved).
  destruct (generateSolvedBoard rnd 0) as [solvedBoard k]. cbn [fst] in *. subst.
  destruct (removeCells _ _ _ _ _ _) as [[board' k']|] eqn:Hrun; [|discriminate].
  intros [= <-]. cbn [selectedCell gameBoard originalBoard completed difficulty gameStarted timer timerRunning invalidCells playable].
  apply removeCells_spec in Hrun as (Hwf & Hcells & Hcount); [|apply Hsolved | lia].
  rewrite (countNonZero_solved solved Hsolved) in Hcount.
  split_and!; try done; [|lia].
  intros r c Hr Hc Hnz. by destruct (Hcells r c).
Qed.

Lemma sessionInv_startNewGame fuel rnd s s' :
  startNewGame fuel rnd s = Some s' → sessionInv s'.
Proof.
  intros Hstart.
  destruct (generateSolvedBoard_solved rnd 0) as (solved & _ & Hgen & Hsolved).
  apply startNewGame_boards in Hstart
    as (Hsame & Hwf & Hext & Hcount & Hsel & Hcompl & Hstarted & Hrun & Hinv & Hdiff & _).
  rewrite Hgen in Hext.
  assert (Hpart : partialGrid (gameBoard s')) by by eapply extends_partialGrid.
  unfold sessionInv. rewrite Hstarted, Hcompl, Hrun, Hsel, Hinv, <- Hsame, Hdiff.
  split_and!; try done.
  - symmetry. apply highlightInvalidCells_valid.
    by apply isBoardValid_units, partialGrid_valid.
  - apply Hpart.
  - eauto.
Qed.

Lemma sessionInv_handleCellSelect row col s :
  sessionInv s → gameStarted s = true → row < 9 → col < 9 →
  sessionInv (handleCellSelect row col s).
Proof.
  intros Hinv Hstarted Hrow Hcol. unfold handleCellSelect.
  destruct (cell (originalBoard s) row col =? 0) eqn:Hz; [|done].
  apply Nat.eqb_eq in Hz. cbn [negb].
  destruct Hinv as (H1 & H2 & H3 & H4 & H5).
  unfold sessionInv. cbn [selectedCell gameBoard originalBoard completed difficulty gameStarted timer timerRunning invalidCells playable].
  split_and!; try done. intros r c [= <- <-]. done.
Qed.

Lemma sessionInv_commitBoard newBoard s :
  sessionInv s → gameStarted s = true → wfBoard newBoard →
  (∀ r c, r < 9 → c < 9 → cell newBoard r c ≤ 9) →
  sessionInv (commitBoard newBoard s).
Proof.
  intros (H1 & H2 & H3 & H4 & H5) Hstarted Hwf Hle.
  rewrite Hstarted in H2, H5. destruct H5 as (_ & Hwfo & _ & Hfull & Hcount).
  unfold sessionInv, commitBoard. cbn [selectedCell gameBoard originalBoard completed difficulty gameStarted timer timerRunning invalidCells playable].
  rewrite Hstarted.
  destruct (isBoardFilled newBoard && isBoardValid newBoard); split_and!; try done.
  all: intros row col Hsel; by destruct (H4 row col Hsel) as (_ & ? & ? & ?).
Qed.

Lemma sessionInv_handleNumberInput num s :
  sessionInv s → gameStarted s = true → num ≤ 9 →
  sessionInv (handleNumberInput num s).
Proof.
  intros Hinv Hstarted Hnum. unfold handleNumberInput.
  destruct (selectedCell s) as [[row col]|]; [|done].
  pose proof Hinv as (_ & _ & _ & _ & H5). rewrite Hstarted in H5.
  destruct H5 as (Hwf & _ & Hle & _).
  apply sessionInv_commitBoard; [done | done | by apply wfBoard_setCell |].
  apply cell_setCell_le; [done|]. destruct (num =? _); lia.
Qed.

(** The two ways [showHint] ends. *)
Lemma showHint_cases rnd s :
  showHint rnd s = s
  ∨ gameStarted s = true
    ∧ ∃ row col,
        (row, col) ∈ emptyOrIncorrect (gameBoard s) (generateSolvedBoard rnd 0).1
        ∧ showHint rnd s
          = commitBoard (setCell (gameBoard s) row col
                           (cell (generateSolvedBoard rnd 0).1 row col)) s.
Proof.
  unfold showHint. destruct (gameStarted s); [|by left]. cbn [negb].
  destruct (generateSolvedBoard rnd 0) as [solved k]. cbn [fst].
  set (cells := emptyOrIncorrect (gameBoard s) solved).
  destruct (0 <? length cells) eqn:Hlen; [|by left].
  apply Nat.ltb_lt in Hlen. right. split; [done|].
  set (i := randomBelow (length cells) (rnd k)).
  assert (Hi : i < length cells).
  { unfold i, randomBelow. apply Nat.mod_upper_bound. lia. }
  pose proof (list_elem_of_lookup_total_2 cells i Hi) as Hin.
  destruct (cells !!! i) as [row col]. by exists row, col.
Qed.

Lemma sessionInv_showHint rnd s : sessionInv s → sessionInv (showHint rnd s).
Proof.
  intros Hinv.
  destruct (showHint_cases rnd s) as [-> | (Hstarted & row & col & Hin & ->)]; [done|].
  destruct (generateSolvedBoard_solved rnd 0) as (solved & _ & Hgen & Hsolved).
  rewrite Hgen in *.
  apply elem_of_emptyOrIncorrect in Hin as (Hrow & Hcol & _).
  pose proof Hinv as (_ & _ & _ & _ & H5). rewrite Hstarted in H5.
  destruct H5 as (Hwf & _ & Hle & _).
  apply sessionInv_commitBoard; [done | done | by apply wfBoard_setCell |].
  apply cell_setCell_le; [done|].
  pose proof (solvedGrid_entry solved row col Hsolved Hrow Hcol). lia.
Qed.

Lemma sessionInv_changeDifficulty d s :
  sessionInv s → negb (gameStarted s && negb (completed s)) = true →
  sessionInv (changeDifficulty d s).
Proof.
  intros (H1 & H2 & H3 & H4 & H5) Henabled.
  unfold sessionInv, changeDifficulty. cbn [selectedCell gameBoard originalBoard completed difficulty gameStarted timer timerRunning invalidCells playable].
  split_and!; try done.
  destruct (gameStarted s); [|done]. destruct (completed s); [|done].
  destruct H5 as (? & ? & ? & ? & ?). split_and!; done.
Qed.

Lemma sessionInv_tick s : sessionInv s → sessionInv (tick s).
Proof.
  intros Hinv. unfold tick. destruct (timerRunning s) eqn:Hrun; [|done].
  destruct Hinv as (H1 & H2 & H3 & H4 & H5).
  unfold sessionInv. cbn [selectedCell gameBoard originalBoard completed difficulty gameStarted timer timerRunning invalidCells playable].
  split_and!; [done | congruence | done..].
Qed.

Lemma sessionInv_fire e s s' : sessionInv s → fire e s = Some s' → sessionInv s'.
Proof.
  intros Hinv. unfold fire. destruct (enabled e s) eqn:Hen; [|done].
  destruct e as [fuel rnd | row col | num | rnd | d |]; cbn [enabled handle] in Hen |- *.
  - by apply sessionInv_startNewGame.
  - apply andb_true_iff in Hen as [[Hs Hr%Nat.ltb_lt]%andb_true_iff Hc%Nat.ltb_lt].
    intros [= <-]. by apply sessionInv_handleCellSelect.
  - apply andb_true_iff in Hen as [[[Hs _]%andb_true_iff _]%andb_true_iff Hn%Nat.leb_le].
    intros [= <-]. by apply sessionInv_handleNumberInput.
  - intros [= <-]. by apply sessionInv_showHint.
  - intros [= <-]. by apply sessionInv_changeDifficulty.
  - intros [= <-]. by apply sessionInv_tick.
Qed.

Lemma reachable_sessionInv s : reachable s → sessionInv s.
Proof.
  induction 1 as [|e s s' _ IH Hfire]; [apply sessionInv_initial|].
  by eapply sessionInv_fire.
Qed.

Lemma play_lastMoveRun : play lastMoveRun initialSession = Some lastMoveSession.
Proof. by vm_compute. Qed.

Lemma reachable_lastMoveSession : reachable lastMoveSession.
Proof.
  apply (play_reachable lastMoveRun initialSession);
    [constructor | apply play_lastMoveRun].
Qed.

(** ** What every session shows *)

(** X11: the selected cell is always a cell of the board that the puzzle left
    empty: a given cell is never selected. *)
Theorem selectedCell_not_given s row col :
  reachable s → selectedCell s = Some (row, col) →
  row < 9 ∧ col < 9 ∧ cell (originalBoard s) row col = 0.
Proof.
  intros (_ & _ & _ & Hsel & _)%reachable_sessionInv Hs.
  by destruct (Hsel row col Hs) as (_ & ? & ? & ?).
Qed.

Lemma selectedCell_not_given_witness :
  4 < 9 ∧ 3 < 9 ∧ cell (originalBoard wonSession) 4 3 = 0.
Proof.
  apply (selectedCell_not_given wonSession 4 3);
    [apply reachable_wonSession | by vm_compute].
Defined.

(** X12: the clock runs exactly while a game is in progress: from the start
    of a game until it is completed. *)
Theorem timerRunning_in_progress s :
  reachable s → timerRunning s = gameStarted s && negb (completed s).
Proof. intros Hinv%reachable_sessionInv. apply Hinv. Qed.

Lemma timerRunning_in_progress_witness :
  timerRunning wonSession = gameStarted wonSession && negb (completed wonSession).
Proof. apply timerRunning_in_progress, reachable_wonSession. Defined.

(** X13: the cells painted as invalid are those of the current board: in every
    session [isInvalidCell] holds for the cells that
    [highlightInvalidCells] lists for the board on the page. *)
Theorem isInvalidCell_current s row col :
  reachable s →
  isInvalidCell s row col = true ↔ (row, col) ∈ highlightInvalidCells (gameBoard s).
Proof.
  intros (Hinv & _)%reachable_sessionInv. unfold isInvalidCell.
  rewrite existsb_spec, <- Hinv. split.
  - intros ([r c] & Hin & [<-%Nat.eqb_eq <-%Nat.eqb_eq]%andb_true_iff). done.
  - intros Hin. exists (row, col). split; [done|]. cbn [fst snd].
    by rewrite !Nat.eqb_refl.
Qed.

Lemma isInvalidCell_current_witness :
  isInvalidCell wonSession 0 0 = true
  ↔ (0, 0) ∈ highlightInvalidCells (gameBoard wonSession).
Proof. apply isInvalidCell_current, reachable_wonSession. Defined.

(** X14: while a game is in progress the puzzle has as many given numbers as
    the difficulty in the selector leaves: 81 less the removal quota. *)
Theorem givens_match_difficulty s :
  reachable s → gameStarted s = true → completed s = false →
  countNonZero (originalBoard s) = 81 - cellsToRemove (difficulty s).
Proof.
  intros (_ & _ & _ & _ & Hboards)%reachable_sessionInv Hstarted Hcompleted.
  rewrite Hstarted in Hboards. by apply Hboards.
Qed.

Lemma givens_match_difficulty_witness :
  countNonZero (originalBoard openedSession)
  = 81 - cellsToRemove (difficulty openedSession).
Proof.
  apply givens_match_difficulty; [apply reachable_openedSession | done | done].
Defined.

(** X15: every puzzle the game presents can be solved: [isBoardValid] accepts
    it and [solveBoard] completes it to a solved grid that keeps the
    given numbers. *)
Theorem puzzle_solvable s :
  reachable s → gameStarted s = true →
  isBoardValid (originalBoard s) = true
  ∧ ∃ board', solveBoard solveDepth (originalBoard s) = Some (true, board')
              ∧ solvedGrid board' ∧ extends (originalBoard s) board'.
Proof.
  intros (_ & _ & _ & _ & Hboards)%reachable_sessionInv Hstarted.
  rewrite Hstarted in Hboards.
  destruct Hboards as (_ & Hwf & _ & (full & Hfull & Hext) & _).
  pose proof (extends_partialGrid _ _ Hwf Hfull Hext) as Hpart.
  split; [by apply partialGrid_valid|].
  destruct (solveBoard_spec solveDepth (originalBoard s) Hpart)
    as (ok & board' & Hsolve & Hpost); [unfold solveDepth; lia|].
  destruct (solveBoard_shape _ _ _ _ Hwf Hsolve) as [_ Hshape].
  destruct ok.
  - exists board'. destruct Hpost, Hshape. split_and!; [done | | done].
    by apply partialGrid_filled.
  - destruct Hpost as [_ Hnone]. by destruct (Hnone full).
Qed.

Lemma puzzle_solvable_witness :
  isBoardValid (originalBoard openedSession) = true
  ∧ ∃ board', solveBoard solveDepth (originalBoard openedSession) = Some (true, board')
              ∧ solvedGrid board' ∧ extends (originalBoard openedSession) board'.
Proof. apply puzzle_solvable; [apply reachable_openedSession | done]. Defined.

(** X16: entering a number never changes a given cell. *)
Theorem handleNumberInput_keeps_givens num s r c :
  reachable s → cell (originalBoard s) r c ≠ 0 →
  cell (gameBoard (handleNumberInput num s)) r c = cell (gameBoard s) r c.
Proof.
  intros (_ & _ & _ & Hsel & _)%reachable_sessionInv Hgiven.
  unfold handleNumberInput.
  destruct (selectedCell s) as [[row col]|] eqn:Hs; [|done].
  destruct (Hsel row col eq_refl) as (_ & _ & _ & Hz).
  cbn [commitBoard gameBoard]. apply cell_setCell_ne. intros [= -> ->]. done.
Qed.

Lemma handleNumberInput_keeps_givens_witness :
  cell (gameBoard (handleNumberInput 5 wonSession)) 4 4
  = cell (gameBoard wonSession) 4 4.
Proof.
  apply handleNumberInput_keeps_givens; [apply reachable_wonSession | by vm_compute].
Defined.

Lemma completed_commitBoard newBoard s :
  completed (commitBoard newBoard s)
  = isBoardFilled newBoard && isBoardValid newBoard || completed s.
Proof.
  unfold commitBoard. cbn [completed].
  by destruct (isBoardFilled newBoard && isBoardValid newBoard).
Qed.

Lemma completed_handleCellSelect row col s :
  completed (handleCellSelect row col s) = completed s.
Proof. unfold handleCellSelect. by destruct (negb _). Qed.

Lemma completed_tick s : completed (tick s) = completed s.
Proof. unfold tick. by destruct (timerRunning s). Qed.

Lemma completed_handleNumberInput num s :
  completed s = false → completed (handleNumberInput num s) = true →
  isBoardFilled (gameBoard (handleNumberInput num s))
  && isBoardValid (gameBoard (handleNumberInput num s)) = true.
Proof.
  intros Hbefore. unfold handleNumberInput.
  destruct (selectedCell s) as [[row col]|]; [|by rewrite Hbefore].
  by rewrite completed_commitBoard, Hbefore, orb_false_r.
Qed.

(** The moves that can complete a game: after them the board is filled
    and valid. *)
Lemma completed_fire e s s' :
  fire e s = Some s' → completed s = false → completed s' = true →
  isBoardFilled (gameBoard s') && isBoardValid (gameBoard s') = true.
Proof.
  unfold fire. destruct (enabled e s); [|done].
  destruct e as [fuel rnd | row col | num | rnd | d |]; cbn [handle].
  - intros (_ & _ & _ & _ & _ & Hc & _)%startNewGame_boards _ Hafter.
    by rewrite Hc in Hafter.
  - intros [= <-] Hbefore. by rewrite completed_handleCellSelect, Hbefore.
  - intros [= <-] Hbefore. by apply completed_handleNumberInput.
  - intros [= <-] Hbefore.
    destruct (showHint_cases rnd s) as [-> | (_ & row & col & _ & ->)];
      [by rewrite Hbefore|].
    by rewrite completed_commitBoard, Hbefore, orb_false_r.
  - intros [= <-] Hbefore. cbn [changeDifficulty completed]. by rewrite Hbefore.
  - intros [= <-] Hbefore. by rewrite completed_tick, Hbefore.
Qed.

(** X17: a game is declared completed only by a move that leaves a solved
    grid on the board. *)
Theorem completed_only_on_solved e s s' :
  reachable s → fire e s = Some s' →
  completed s = false → completed s' = true → solvedGrid (gameBoard s').
Proof.
  intros Hreach Hfire Hbefore Hafter.
  assert (Hinv' : sessionInv s').
  { eapply sessionInv_fire; [by apply reachable_sessionInv | done]. }
  destruct Hinv' as (_ & _ & Hstarted & _ & Hboards).
  rewrite (Hstarted Hafter) in Hboards. destruct Hboards as (Hwf & _ & Hle & _).
  destruct (proj1 (andb_true_iff _ _) (completed_fire e s s' Hfire Hbefore Hafter))
    as [Hfilled Hvalid].
  apply partialGrid_filled; [by apply partialGrid_valid | by apply isBoardFilled_filled].
Qed.

Lemma completed_only_on_solved_witness :
  solvedGrid (gameBoard (handleNumberInput 5 lastMoveSession)).
Proof.
  apply (completed_only_on_solved (ClickNumber 5) lastMoveSession);
    [apply reachable_lastMoveSession | by vm_compute..].
Defined.

(** ** Entering numbers *)

Lemma setCell_setCell board row col x y :
  setCell (setCell board row col x) row col y = setCell board row col y.
Proof.
  unfold setCell. apply list_eq. intros i.
  destruct (decide (i = row)) as [-> | Hne].
  - rewrite !list_lookup_alter_eq. destruct (board !! row) as [r|]; [simpl|done].
    by rewrite list_insert_insert_eq.
  - by rewrite !list_lookup_alter_ne.
Qed.

Lemma setCell_same board row col : setCell board row col (cell board row col) = board.
Proof.
  unfold setCell, cell. apply list_eq. intros i.
  destruct (decide (i = row)) as [-> | Hne]; [|by rewrite list_lookup_alter_ne].
  rewrite list_lookup_alter_eq. destruct (board !! row) as [r|]; [simpl|done].
  f_equal. destruct (r !! col) as [v|] eqn:Hv; simpl.
  - by apply list_insert_id.
  - apply list_insert_ge. by apply lookup_ge_None.
Qed.

Lemma gameBoard_handleNumberInput num s row col :
  selectedCell s = Some (row, col) →
  gameBoard (handleNumberInput num s)
  = setCell (gameBoard s) row col
            (if num =? cell (gameBoard s) row col then 0 else num)
  ∧ selectedCell (handleNumberInput num s) = Some (row, col).
Proof. intros Hsel. unfold handleNumberInput. by rewrite Hsel. Qed.

(** X18: the number pad toggles.  With a number, not 0, pressed again and
    again on the selected cell, every second press undoes the one before:
    the third press gives the board of the first, and two presses give
    back the board they started from when the cell was empty or held that
    number. *)
Theorem handleNumberInput_toggle num s row col :
  selectedCell s = Some (row, col) → row < 9 → col < 9 →
  wfBoard (gameBoard s) → num ≠ 0 →
  gameBoard (handleNumberInput num (handleNumberInput num (handleNumberInput num s)))
  = gameBoard (handleNumberInput num s)
  ∧ (cell (gameBoard s) row col = 0 ∨ cell (gameBoard s) row col = num →
     gameBoard (handleNumberInput num (handleNumberInput num s)) = gameBoard s).
Proof.
  intros Hsel Hrow Hcol Hwf Hnum.
  destruct (gameBoard_handleNumberInput num s row col Hsel) as [Hb1 Hsel1].
  destruct (gameBoard_handleNumberInput num _ row col Hsel1) as [Hb2 Hsel2].
  destruct (gameBoard_handleNumberInput num _ row col Hsel2) as [Hb3 _].
  set (b := gameBoard s) in *. set (v := cell b row col) in *.
  assert (Hwf1 : wfBoard (gameBoard (handleNumberInput num s))).
  { rewrite Hb1. by apply wfBoard_setCell. }
  rewrite Hb1, cell_setCell_eq, setCell_setCell in Hb2 by done.
  rewrite Hb2, cell_setCell_eq, setCell_setCell in Hb3 by done.
  rewrite Hb3, Hb2, Hb1. clear Hb1 Hb2 Hb3.
  destruct (num =? v) eqn:Hv.
  - apply Nat.eqb_eq in Hv. apply Nat.eqb_neq in Hnum as Hnum'.
    rewrite Hnum', Nat.eqb_refl. split; [done|]. intros _. rewrite Hv.
    apply setCell_same.
  - rewrite Nat.eqb_refl. apply Nat.eqb_neq in Hnum as Hnum'. rewrite Hnum'.
    split; [done|]. apply Nat.eqb_neq in Hv. intros [Hz | Heq]; [|congruence].
    rewrite <- Hz. apply setCell_same.
Qed.

Lemma handleNumberInput_toggle_witness :
  gameBoard (handleNumberInput 5 (handleNumberInput 5 (handleNumberInput 5 wonSession)))
  = gameBoard (handleNumberInput 5 wonSession)
  ∧ (cell (gameBoard wonSession) 4 3 = 0 ∨ cell (gameBoard wonSession) 4 3 = 5 →
     gameBoard (handleNumberInput 5 (handleNumberInput 5 wonSession))
     = gameBoard wonSession).
Proof.
  apply handleNumberInput_toggle; [by vm_compute | lia | lia | | lia].
  assert (gameBoard wonSession = sampleSolved) as -> by by vm_compute.
  apply solvedGrid_sampleSolved.
Defined.

(** ** The clock display *)

Lemma string_length_app (a b : string) :
  String.length (a +:+ b) = String.length a + String.length b.
Proof. induction a as [|c a IH]; simpl; [done | by rewrite IH]. Qed.

(** Two strings with tails of the same length. *)
Lemma string_app_inj (a a' b b' : string) :
  String.length b = String.length b' → a +:+ b = a' +:+ b' → a = a' ∧ b = b'.
Proof.
  intros Hlen. revert a'. induction a as [|c a IH]; intros [|c' a'] Heq; simpl in Heq.
  - done.
  - apply (f_equal String.length) in Heq. simpl in Heq.
    rewrite !string_length_app in Heq. simpl in Heq. lia.
  - apply (f_equal String.length) in Heq. simpl in Heq.
    rewrite !string_length_app in Heq. simpl in Heq. lia.
  - injection Heq as -> Heq. destruct (IH a' Heq) as [-> ->]. done.
Qed.

Lemma pretty_N_go_length x s :
  String.length s ≤ String.length (pretty_N_go x s).
Proof.
  revert s. induction (N.lt_wf_0 x) as [x _ IH]; intros s.
  destruct (decide (x = 0)%N) as [-> | Hx]; [by rewrite pretty_N_go_0|].
  rewrite pretty_N_go_step by lia.
  etrans; [|apply IH; apply N.div_lt; lia]. simpl. lia.
Qed.

(** A number from 100 on has at least three digits. *)
Lemma pretty_length_3 (n : nat) : 100 ≤ n → 3 ≤ String.length (pretty n).
Proof.
  intros Hn. unfold pretty, pretty_nat, pretty, pretty_N.
  destruct (decide (N.of_nat n = 0)%N) as [|_]; [lia|].
  assert (0 < (N.of_nat n `div` 10) `div` 10)%N.
  { apply N.div_str_pos. split; [lia|]. apply N.div_le_lower_bound; lia. }
  assert (0 < N.of_nat n `div` 10)%N.
  { apply N.div_str_pos. lia. }
  rewrite 3!pretty_N_go_step by lia.
  etrans; [|apply pretty_N_go_length]. simpl. lia.
Qed.

Lemma padStart_long n fill s : n ≤ String.length s → padStart n fill s = s.
Proof. intros Hlen. unfold padStart. by replace (n - String.length s) with 0 by lia. Qed.

(** The two-digit fields, checked one by one: they have two characters
    and no two of them are the same. *)
Lemma pad2_small :
  Forall (λ n, String.length (padStart 2 "0" (pretty n)) = 2) (seq 0 100)
  ∧ NoDup ((λ n, padStart 2 "0" (pretty n)) <$> seq 0 100).
Proof. split; apply (bool_decide_unpack _); by vm_compute. Qed.

Lemma pad2_length (n : nat) :
  String.length (padStart 2 "0" (pretty n)) = 2 ↔ n < 100.
Proof.
  split.
  - intros Hlen. destruct (decide (n < 100)) as [|Hge]; [done|].
    rewrite padStart_long in Hlen.
    + pose proof (pretty_length_3 n). lia.
    + pose proof (pretty_length_3 n). lia.
  - intros Hn. destruct pad2_small as [Hall _]. rewrite Forall_forall in Hall.
    apply Hall, elem_of_seq. lia.
Qed.

Lemma pad2_inj (m m' : nat) :
  padStart 2 "0" (pretty m) = padStart 2 "0" (pretty m') → m = m'.
Proof.
  intros Heq.
  destruct (decide (m < 100)) as [Hm | Hm], (decide (m' < 100)) as [Hm' | Hm'].
  - destruct pad2_small as [_ Hnd].
    assert (Hi : ((λ n, padStart 2 "0" (pretty n)) <$> seq 0 100) !! m
                 = Some (padStart 2 "0" (pretty m))).
    { by rewrite list_lookup_fmap, lookup_seq_lt. }
    assert (Hj : ((λ n, padStart 2 "0" (pretty n)) <$> seq 0 100) !! m'
                 = Some (padStart 2 "0" (pretty m))).
    { rewrite list_lookup_fmap, lookup_seq_lt by done. simpl. by rewrite Heq. }
    apply (NoDup_lookup _ _ _ _ Hnd Hi Hj).
  - apply pad2_length in Hm. rewrite Heq in Hm. apply pad2_length in Hm. lia.
  - apply pad2_length in Hm'. rewrite <- Heq in Hm'. apply pad2_length in Hm'. lia.
  - rewrite !padStart_long in Heq
      by (pose proof (pretty_length_3 m); pose proof (pretty_length_3 m'); lia).
    by apply (inj pretty).
Qed.

(** X19: [formatTime] shows different times differently, and it fills exactly
    five characters, [mm:ss], up to 99 minutes and 59 seconds; from 100
    minutes on the minutes take more room.  The times are integers that
    JavaScript holds exactly. *)
Theorem formatTime_spec (a b : nat) :
  a < 2 ^ 53 → b < 2 ^ 53 →
  (formatTime a = formatTime b ↔ a = b)
  ∧ (String.length (formatTime a) = 5 ↔ a < 100 * 60).
Proof.
  intros _ _. unfold formatTime. cbv zeta. split.
  - split; [|by intros ->]. intros Heq.
    apply string_app_inj in Heq as [Hmin Hsec].
    + apply pad2_inj in Hmin.
      apply string_app_inj in Hsec as [_ Hs];
        [|by rewrite !(proj2 (pad2_length _)) by lia].
      apply pad2_inj in Hs. lia.
    + by rewrite !string_length_app, !(proj2 (pad2_length _)) by lia.
  - rewrite !string_length_app.
    rewrite (proj2 (pad2_length (a `mod` 60))) by lia.
    pose proof (pad2_length (a / 60)) as Hmin. cbn [String.length]. lia.
Qed.

Lemma formatTime_spec_witness :
  (formatTime 50 = formatTime 7 ↔ 50 = 7)
  ∧ (String.length (formatTime 50) = 5 ↔ 50 < 100 * 60).
Proof.
  pose proof (Nat.pow_gt_lin_r 2 53).
  apply formatTime_spec; lia.
Defined.

(** ** The drawn board *)

(** X20: the thick lines of the drawn board run between the boxes: a cell has
    a thick right border exactly when the cell right of it is on the
    board and in another box, and a thick bottom border exactly when the
    cell below it is. *)
Theorem cellView_borders s row col :
  (borderRight (cellView s row col) = "border-r-2 border-r-black"
   ↔ col + 1 < 9 ∧ (col + 1) / 3 ≠ col / 3)
  ∧ (borderBottom (cellView s row col) = "border-b-2 border-b-black"
     ↔ row + 1 < 9 ∧ (row + 1) / 3 ≠ row / 3).
Proof.
  unfold cellView. cbn [borderRight borderBottom]. split.
  - destruct ((col + 1) `mod` 3 =? 0) eqn:Hmod, (col <? 8) eqn:Hlt; cbn [andb];
      rewrite ?Nat.eqb_eq, ?Nat.eqb_neq, ?Nat.ltb_lt, ?Nat.ltb_ge in *;
      (split; [try discriminate | try done]); lia.
  - destruct ((row + 1) `mod` 3 =? 0) eqn:Hmod, (row <? 8) eqn:Hlt; cbn [andb];
      rewrite ?Nat.eqb_eq, ?Nat.eqb_neq, ?Nat.ltb_lt, ?Nat.ltb_ge in *;
      (split; [try discriminate | try done]); lia.
Qed.
